(** * heat_storage_module: a shallow embedding of HeatStorage and its companions

    The source is [heat_storage_module.hpp]: a 1D finite-volume solver for a
    fluid and a solid temperature field ([HeatStorage::CalcStep]), a
    mesh-to-mesh linear interpolation ([HeatStorage::GetInterpolated]), a
    mesh-convergence harness ([HeatStorage::TesterMms]), a cyclic
    operating-mode scheduler ([HeatStorage::Scheduler]) and the module
    constructor [hydro::hydro].

    Numbers.  [HeatStorage] is a template over [Mesh], and its scalar type is
    [Mesh::Scal]; the embedding keeps it abstract ([ScalOps]) and translates
    every arithmetic expression operator by operator, in the order C++
    evaluates it.  Two instances are given: IEEE binary64 ([float], the
    [double] of the program, used to run the code on concrete inputs) and the
    real numbers ([R], exact arithmetic, used for the statements that need the
    laws of a field).  Rounding, infinities and NaN are outside the statements
    made over [R].  The scheduler works on [double] and converts to
    [size_t]; it is embedded over the same abstract scalars, with the
    conversion partial ([ScalTrunc]), at binary64 and at the rationals [Q]
    (exact arithmetic; every finite [double] is a rational). *)

From Stdlib Require Import ZArith QArith Qround Reals Psatz Lia String.
From Stdlib Require Import PrimFloat Uint63 SpecFloat FloatOps.
From stdpp Require Import base list.

Set Default Proof Using "Type".

(** ** Scalars *)

Class ScalOps (Scal : Type) := {
  s_of_Z : Z -> Scal;               (* numeric literals, integer conversions *)
  s_add : Scal -> Scal -> Scal;
  s_sub : Scal -> Scal -> Scal;
  s_mul : Scal -> Scal -> Scal;
  s_div : Scal -> Scal -> Scal;
  s_opp : Scal -> Scal;
  s_ltb : Scal -> Scal -> bool;
}.

(** [std::cos] and [std::sin], used by the manufactured solutions only. *)
Class ScalTrig (Scal : Type) := {
  s_cos : Scal -> Scal;
  s_sin : Scal -> Scal;
}.

Declare Scope scal_scope.
Delimit Scope scal_scope with scal.
Infix "+" := s_add : scal_scope.
Infix "-" := s_sub : scal_scope.
Infix "*" := s_mul : scal_scope.
Infix "/" := s_div : scal_scope.
Notation "- x" := (s_opp x) : scal_scope.
Infix "<?" := s_ltb : scal_scope.

(** A value-initialised scalar is [0.]. *)
#[export] Instance Scal_inhabited `{ScalOps Scal} : Inhabited Scal :=
  populate (s_of_Z 0).

(** The conversion of an integer to [double], rounding to nearest, ties to
    even.  Below [2^63] the primitive conversion does it.  From [2^63] up
    the 62 leading bits are kept, with a last bit that records whether a
    lower bit was set, which rounds to the same [double]; the scaling by a
    power of two that follows is exact, or overflows to infinity. *)
Definition float_of_Z (z : Z) : float :=
  let a := Z.abs z in
  let f :=
    if (a <? 2 ^ 63)%Z then PrimFloat.of_uint63 (Uint63.of_Z a)
    else
      let s := (Z.log2 a - 61)%Z in
      let q := Z.shiftr a s in
      let sticky := if (a mod 2 ^ s =? 0)%Z then 0%Z else 1%Z in
      if (2000 <? s)%Z then PrimFloat.infinity
      else
        PrimFloat.ldshiftexp
          (PrimFloat.of_uint63 (Uint63.of_Z (Z.lor q sticky)))
          (Uint63.of_Z (s + FloatOps.shift)) in
  if (z <? 0)%Z then PrimFloat.opp f else f.

(** [Scal = double]. *)
#[export] Instance float_ops : ScalOps float := {|
  s_of_Z := float_of_Z;
  s_add := PrimFloat.add;
  s_sub := PrimFloat.sub;
  s_mul := PrimFloat.mul;
  s_div := PrimFloat.div;
  s_opp := PrimFloat.opp;
  s_ltb := PrimFloat.ltb;
|}.

(** Exact arithmetic. *)
#[export] Instance R_ops : ScalOps R := {|
  s_of_Z := IZR;
  s_add := Rplus;
  s_sub := Rminus;
  s_mul := Rmult;
  s_div := Rdiv;
  s_opp := Ropp;
  s_ltb := fun x y => if Rlt_dec x y then true else false;
|}.

#[export] Instance R_trig : ScalTrig R := {| s_cos := cos; s_sin := sin |}.



(** The integer part of a scalar: the fraction is discarded (rounding
    towards zero), as a conversion from [double] to an integer type does
    before it looks at the range of the target.  [None] for a scalar that
    has no integer part (an infinity, a NaN). *)
Class ScalTrunc (Scal : Type) := {
  s_trunc : Scal -> option Z;
}.

(** A finite binary64 number is [(-1)^s * m * 2^e]. *)
Definition float_trunc (f : float) : option Z :=
  match Prim2SF f with
  | S754_zero _ => Some 0%Z
  | S754_finite s m e =>
    let a :=
      if (0 <=? e)%Z then (Zpos m * 2 ^ e)%Z else (Zpos m / 2 ^ (- e))%Z in
    Some (if s then (- a)%Z else a)
  | S754_infinity _ => None
  | S754_nan => None
  end.

#[export] Instance float_truncation : ScalTrunc float :=
  {| s_trunc := float_trunc |}.



(** ** Mesh, fields, interpolation, solver *)

(** [geom::IdxCell] and [geom::IdxFace]: positions in the cell and face
    orders of the mesh. *)
Abbreviation IdxCell := nat (only parsing).
Abbreviation IdxFace := nat (only parsing).

(** [geom::FieldCell<Scal>] and [geom::FieldFace<Scal>]: one scalar per cell
    (face), stored in index order.  [fc[i]] is [fc !!! i], [fc[i] = v] is
    [<[i:=v]> fc]; an index outside the field is undefined behaviour in the
    program, and never happens on a field sized for its mesh. *)
Abbreviation FieldCell Scal := (list Scal) (only parsing).
Abbreviation FieldFace Scal := (list Scal) (only parsing).

Section Solver.
Context {Scal : Type} `{ScalOps Scal}.
Local Open Scope scal_scope.

(** Modelled from the spec: the 1D mesh class of [hydro2dmpi/mesh1d.hpp] and
    [mesh.hpp], which are not part of the sources at hand.  The spec (sections
    2 and 6) gives ordered cells and faces, a volume per cell, a centre
    coordinate per cell, the minus and plus neighbour cell of a face (absent at
    a domain boundary), the minus and plus neighbour face of a cell and the
    neighbour cell of a cell.  Cells are [0 .. NumCells-1], faces are
    [0 .. NumCells]; face [f] lies between cells [f-1] and [f]. *)
Record Mesh := {
  NumCells : nat;
  Center : IdxCell -> Scal;
  Volume : IdxCell -> Scal;
}.

Definition Cells (m : Mesh) : list IdxCell := seq 0 (NumCells m).
Definition Faces (m : Mesh) : list IdxFace := seq 0 (S (NumCells m)).
Definition GetNumCells (m : Mesh) : nat := NumCells m.
Definition GetCenter (m : Mesh) (c : IdxCell) : Scal := Center m c.
Definition GetVolume (m : Mesh) (c : IdxCell) : Scal := Volume m c.

(** [mesh.GetNeighbourCell(idxface, n)]: [None] is [IsNone()]. *)
Definition GetNeighbourCellOfFace (m : Mesh) (f : IdxFace) (n : nat)
  : option IdxCell :=
  match n with
  | O => match f with O => None | S c => Some c end
  | _ => if decide (f < NumCells m)%nat then Some f else None
  end.

(** [mesh.GetNeighbourCell(idxcell, n)]. *)
Definition GetNeighbourCell (m : Mesh) (c : IdxCell) (n : nat)
  : option IdxCell :=
  match n with
  | O => match c with O => None | S c' => Some c' end
  | _ => if decide (S c < NumCells m)%nat then Some (S c) else None
  end.

(** [mesh.GetNeighbourFace(idxcell, n)]. *)
Definition GetNeighbourFace (m : Mesh) (c : IdxCell) (n : nat) : IdxFace :=
  match n with
  | O => c
  | _ => S c
  end.

(** Modelled from the spec: [geom::InitUniformMesh] (absent from the sources),
    "uniform-mesh construction from a domain rectangle and per-axis cell
    counts": [n] cells of equal size on [[a, b]]. *)
Definition InitUniformMesh (a b : Scal) (n : nat) : Mesh :=
  let h := (b - a) / s_of_Z (Z.of_nat n) in
  {| NumCells := n;
     Center := fun c => a + (s_of_Z (Z.of_nat c) + s_of_Z 1 / s_of_Z 2) * h;
     Volume := fun _ => h |}.

(** [FieldCell<Scal>(mesh, v)] and [Reinit(mesh, v)]. *)
Definition NewFieldCell (m : Mesh) (v : Scal) : FieldCell Scal :=
  replicate (NumCells m) v.
Definition NewFieldFace (m : Mesh) (v : Scal) : FieldFace Scal :=
  replicate (S (NumCells m)) v.

Definition FuncTX := Scal -> Scal -> Scal.

Definition Evaluate (func : FuncTX) (t : Scal) (m : Mesh) : FieldCell Scal :=
  fold_left
    (fun (res : FieldCell Scal) idxcell =>
       let x := GetCenter m idxcell in
       <[idxcell := func t x]> res)
    (Cells m) (NewFieldCell m (s_of_Z 0)).

(** The scalar overload of [GetInterpolated]. *)
Definition GetInterpolated (x x_left x_right u_left u_right : Scal) : Scal :=
  ((x - x_left) * u_right + (x_right - x) * u_left) / (x_right - x_left).

(** The [while] loop of the field overload, on the bracket
    [(idx_left_src, idx_right_src)].  [fuel] bounds the number of iterations;
    every iteration moves the right index one cell up, so [NumCells mesh_src]
    is enough ([AdvanceBracket_enough] below). *)
Fixpoint AdvanceBracket (fuel : nat) (mesh_src : Mesh) (x_dest : Scal)
  (idx_left_src idx_right_src : IdxCell) : IdxCell * IdxCell :=
  match fuel with
  | O => (idx_left_src, idx_right_src)
  | S fuel' =>
    if GetCenter mesh_src idx_right_src <? x_dest then
      match GetNeighbourCell mesh_src idx_right_src 1 with
      | None => (idx_left_src, idx_right_src)
      | Some idx_new_src =>
        AdvanceBracket fuel' mesh_src x_dest idx_right_src idx_new_src
      end
    else (idx_left_src, idx_right_src)
  end.

(** One iteration of the [for] loop over the destination cells: the state is
    the bracket and the result field. *)
Definition InterpolateCell (fc_src : FieldCell Scal)
  (mesh_src mesh_dest : Mesh)
  (st : IdxCell * IdxCell * FieldCell Scal) (idx_dest : IdxCell)
  : IdxCell * IdxCell * FieldCell Scal :=
  let '(idx_left_src, idx_right_src, res) := st in
  let x_dest := GetCenter mesh_dest idx_dest in
  let '(idx_left_src, idx_right_src) :=
    AdvanceBracket (NumCells mesh_src) mesh_src x_dest
                   idx_left_src idx_right_src in
  (idx_left_src, idx_right_src,
   <[idx_dest := GetInterpolated x_dest
                   (GetCenter mesh_src idx_left_src)
                   (GetCenter mesh_src idx_right_src)
                   (fc_src !!! idx_left_src) (fc_src !!! idx_right_src)]> res).

(** The field overload of [GetInterpolated]. *)
Definition GetInterpolatedField (fc_src : FieldCell Scal)
  (mesh_src mesh_dest : Mesh) : FieldCell Scal :=
  (fold_left (InterpolateCell fc_src mesh_src mesh_dest)
     (Cells mesh_dest) (0%nat, 0%nat, NewFieldCell mesh_dest (s_of_Z 0))).2.

(** *** The solver *)

(** Modelled from the spec: [solver::Layers] and [solver::LayersData] of
    [hydro2dmpi/solver.hpp] (absent from the sources), section 4.1: a pair of
    snapshots read by layer tag. *)
Inductive Layers := Layers_time_curr | Layers_time_prev.

Record LayersData := {
  time_curr : FieldCell Scal;
  time_prev : FieldCell Scal;
}.

Definition Get (d : LayersData) (layer : Layers) : FieldCell Scal :=
  match layer with
  | Layers_time_curr => time_curr d
  | Layers_time_prev => time_prev d
  end.

(** The members of [HeatStorage]; [time_] and [time_step_] are those of its
    base class [solver::UnsteadySolver].  The two source fields are pointers to
    fields owned by the caller, [None] for [nullptr]. *)
Record HeatStorage := {
  time_ : Scal;
  time_step_ : Scal;
  mesh : Mesh;
  fc_temperature_fluid_ : LayersData;
  fc_temperature_solid_ : LayersData;
  fluid_velocity_ : Scal;
  conductivity_fluid_ : Scal;
  conductivity_solid_ : Scal;
  temperature_hot_ : Scal;
  temperature_cold_ : Scal;
  exchange_fluid_ : Scal;
  exchange_solid_ : Scal;
  p_fc_rhs_fluid_ : option (FieldCell Scal);
  p_fc_rhs_solid_ : option (FieldCell Scal);
}.

(** The constructor [HeatStorage::HeatStorage]. *)
Definition NewHeatStorage (m : Mesh) (time_step : Scal)
  (fluid_velocity conductivity_fluid conductivity_solid : Scal)
  (temperature_hot temperature_cold exchange_fluid exchange_solid : Scal)
  (p_fc_rhs_fluid p_fc_rhs_solid : option (FieldCell Scal)) : HeatStorage :=
  {| time_ := s_of_Z 0;
     time_step_ := time_step;
     mesh := m;
     fc_temperature_fluid_ :=
       {| time_curr := NewFieldCell m temperature_cold;
          time_prev := NewFieldCell m temperature_cold |};
     fc_temperature_solid_ :=
       {| time_curr := NewFieldCell m temperature_cold;
          time_prev := NewFieldCell m temperature_cold |};
     fluid_velocity_ := fluid_velocity;
     conductivity_fluid_ := conductivity_fluid;
     conductivity_solid_ := conductivity_solid;
     temperature_hot_ := temperature_hot;
     temperature_cold_ := temperature_cold;
     exchange_fluid_ := exchange_fluid;
     exchange_solid_ := exchange_solid;
     p_fc_rhs_fluid_ := p_fc_rhs_fluid;
     p_fc_rhs_solid_ := p_fc_rhs_solid |}.

Definition GetFluidTemperatureAt (s : HeatStorage) (layer : Layers)
  : FieldCell Scal := Get (fc_temperature_fluid_ s) layer.
Definition GetFluidTemperature (s : HeatStorage) : FieldCell Scal :=
  time_curr (fc_temperature_fluid_ s).
Definition GetSolidTemperatureAt (s : HeatStorage) (layer : Layers)
  : FieldCell Scal := Get (fc_temperature_solid_ s) layer.
Definition GetSolidTemperature (s : HeatStorage) : FieldCell Scal :=
  time_curr (fc_temperature_solid_ s).
Definition GetMesh (s : HeatStorage) : Mesh := mesh s.
Definition GetTimeStep (s : HeatStorage) : Scal := time_step_ s.

(** Modelled from the spec: [UnsteadySolver::StartStep] and [FinishStep]
    (absent from the sources), section 4.2: "bookkeeping only: advance the
    time counter, no field math". *)
Definition StartStep (s : HeatStorage) : HeatStorage := s.

Definition FinishStep (s : HeatStorage) : HeatStorage :=
  {| time_ := time_ s + time_step_ s;
     time_step_ := time_step_ s;
     mesh := mesh s;
     fc_temperature_fluid_ := fc_temperature_fluid_ s;
     fc_temperature_solid_ := fc_temperature_solid_ s;
     fluid_velocity_ := fluid_velocity_ s;
     conductivity_fluid_ := conductivity_fluid_ s;
     conductivity_solid_ := conductivity_solid_ s;
     temperature_hot_ := temperature_hot_ s;
     temperature_cold_ := temperature_cold_ s;
     exchange_fluid_ := exchange_fluid_ s;
     exchange_solid_ := exchange_solid_ s;
     p_fc_rhs_fluid_ := p_fc_rhs_fluid_ s;
     p_fc_rhs_solid_ := p_fc_rhs_solid_ s |}.

(** [f[i] += v]. *)
Definition AddAt (f : list Scal) (i : nat) (v : Scal) : list Scal :=
  <[i := f !!! i + v]> f.

(** The body of the loop over the faces in [CalcStep]; [Tf] and [Ts] are the
    previous layers after the swap. *)
Definition FaceFluxes (m : Mesh) (uf alpha_f alpha_s T_in h : Scal)
  (Tf Ts : FieldCell Scal) (st : FieldFace Scal * FieldFace Scal)
  (idxface : IdxFace)
  : FieldFace Scal * FieldFace Scal :=
  let '(ff_flux_fluid, ff_flux_solid) := st in
  let cm := GetNeighbourCellOfFace m idxface 0 in
  let cp := GetNeighbourCellOfFace m idxface 1 in
  match cm, cp with
  | None, _ =>                                          (* left boundary *)
    (AddAt ff_flux_fluid idxface (uf * T_in),
     AddAt ff_flux_solid idxface (s_of_Z 0))
  | Some cm, None =>                                    (* right boundary *)
    (AddAt ff_flux_fluid idxface (uf * Tf !!! cm),
     AddAt ff_flux_solid idxface (s_of_Z 0))
  | Some cm, Some cp =>
    (* convection: first order upwind *)
    let ff_flux_fluid := AddAt ff_flux_fluid idxface (uf * Tf !!! cm) in
    (* diffusion: central second order *)
    (AddAt ff_flux_fluid idxface
       ((- alpha_f) * (Tf !!! cp - Tf !!! cm) / h),
     AddAt ff_flux_solid idxface
       ((- alpha_s) * (Ts !!! cp - Ts !!! cm) / h))
  end.

(** The body of the loop "time integration of flux terms". *)
Definition IntegrateFluxes (m : Mesh) (dt h : Scal)
  (ff_flux_fluid ff_flux_solid : FieldFace Scal) (Tf Ts : FieldCell Scal)
  (st : FieldCell Scal * FieldCell Scal) (idxcell : IdxCell)
  : FieldCell Scal * FieldCell Scal :=
  let '(Tf_new, Ts_new) := st in
  let fm := GetNeighbourFace m idxcell 0 in
  let fp := GetNeighbourFace m idxcell 1 in
  let fluxsum_fluid := ff_flux_fluid !!! fp - ff_flux_fluid !!! fm in
  let Tf_new := <[idxcell := Tf !!! idxcell - dt / h * fluxsum_fluid]> Tf_new in
  let fluxsum_solid := ff_flux_solid !!! fp - ff_flux_solid !!! fm in
  let Ts_new := <[idxcell := Ts !!! idxcell - dt / h * fluxsum_solid]> Ts_new in
  (Tf_new, Ts_new).

(** "Time integration of source terms", for one phase. *)
Definition IntegrateSource (m : Mesh) (dt : Scal)
  (p_fc_rhs : option (FieldCell Scal)) (T_new : FieldCell Scal)
  : FieldCell Scal :=
  match p_fc_rhs with
  | Some fc_rhs =>
    fold_left
      (fun (T_new : FieldCell Scal) idxcell =>
         AddAt T_new idxcell (dt * fc_rhs !!! idxcell))
      (Cells m) T_new
  | None => T_new
  end.

Definition CalcStep (s : HeatStorage) : HeatStorage :=
  (* std::swap on both fields: the previous layers now hold the old current
     ones, the current layers are the buffers to be overwritten *)
  let Tf := time_curr (fc_temperature_fluid_ s) in
  let Tf_new := time_prev (fc_temperature_fluid_ s) in
  let Ts := time_curr (fc_temperature_solid_ s) in
  let Ts_new := time_prev (fc_temperature_solid_ s) in
  let h := GetVolume (mesh s) 0%nat in
  let dt := GetTimeStep s in
  let uf := fluid_velocity_ s in
  let alpha_f := conductivity_fluid_ s in
  let alpha_s := conductivity_solid_ s in
  let T_in := temperature_hot_ s in
  let '(ff_flux_fluid, ff_flux_solid) :=
    fold_left (FaceFluxes (mesh s) uf alpha_f alpha_s T_in h Tf Ts)
      (Faces (mesh s))
      (NewFieldFace (mesh s) (s_of_Z 0), NewFieldFace (mesh s) (s_of_Z 0)) in
  let '(Tf_new, Ts_new) :=
    fold_left (IntegrateFluxes (mesh s) dt h ff_flux_fluid ff_flux_solid Tf Ts)
      (Cells (mesh s)) (Tf_new, Ts_new) in
  let Tf_new := IntegrateSource (mesh s) dt (p_fc_rhs_fluid_ s) Tf_new in
  let Ts_new := IntegrateSource (mesh s) dt (p_fc_rhs_solid_ s) Ts_new in
  {| time_ := time_ s;
     time_step_ := time_step_ s;
     mesh := mesh s;
     fc_temperature_fluid_ := {| time_curr := Tf_new; time_prev := Tf |};
     fc_temperature_solid_ := {| time_curr := Ts_new; time_prev := Ts |};
     fluid_velocity_ := fluid_velocity_ s;
     conductivity_fluid_ := conductivity_fluid_ s;
     conductivity_solid_ := conductivity_solid_ s;
     temperature_hot_ := temperature_hot_ s;
     temperature_cold_ := temperature_cold_ s;
     exchange_fluid_ := exchange_fluid_ s;
     exchange_solid_ := exchange_solid_ s;
     p_fc_rhs_fluid_ := p_fc_rhs_fluid_ s;
     p_fc_rhs_solid_ := p_fc_rhs_solid_ s |}.

(** One step as every caller runs it. *)
Definition Step (s : HeatStorage) : HeatStorage :=
  FinishStep (CalcStep (StartStep s)).

End Solver.

Arguments Mesh Scal : clear implicits.
Arguments FuncTX Scal : clear implicits.
Arguments LayersData Scal : clear implicits.
Arguments HeatStorage Scal : clear implicits.

(** ** The convergence tester and the module constructor *)

Section Tester.
Context {Scal : Type} `{ScalOps Scal}.
Local Open Scope scal_scope.

(** [solver::CalcDiff] is defined in [hydro2dmpi/solver.hpp], which is not
    part of the sources at hand; it is a parameter of everything below. *)
Variable CalcDiff : FieldCell Scal -> FieldCell Scal -> Mesh Scal -> Scal.

(** [TesterMms::Entry]; [entry_mesh] is the member [mesh]. *)
Record Entry := {
  diff_prev : Scal;
  error : Scal;
  h : Scal;
  entry_mesh : Mesh Scal;
  fc_fluid_temperature : FieldCell Scal;
  fc_exact_fluid_temperature : FieldCell Scal;
  solver : option (HeatStorage Scal);
}.

(** A value-initialised [Entry], as [series_.emplace_back()] makes it. *)
Definition EmptyEntry : Entry :=
  {| diff_prev := s_of_Z 0;
     error := s_of_Z 0;
     h := s_of_Z 0;
     entry_mesh :=
       {| NumCells := 0; Center := fun _ => s_of_Z 0;
          Volume := fun _ => s_of_Z 0 |};
     fc_fluid_temperature := [];
     fc_exact_fluid_temperature := [];
     solver := None |}.

#[local] Instance Entry_inhabited : Inhabited Entry := populate EmptyEntry.

Definition set_diff_prev (v : Scal) (e : Entry) : Entry :=
  {| diff_prev := v; error := error e; h := h e; entry_mesh := entry_mesh e;
     fc_fluid_temperature := fc_fluid_temperature e;
     fc_exact_fluid_temperature := fc_exact_fluid_temperature e;
     solver := solver e |}.
Definition set_error (v : Scal) (e : Entry) : Entry :=
  {| diff_prev := diff_prev e; error := v; h := h e;
     entry_mesh := entry_mesh e;
     fc_fluid_temperature := fc_fluid_temperature e;
     fc_exact_fluid_temperature := fc_exact_fluid_temperature e;
     solver := solver e |}.
Definition set_mesh (m : Mesh Scal) (e : Entry) : Entry :=
  {| diff_prev := diff_prev e; error := error e; h := h e; entry_mesh := m;
     fc_fluid_temperature := fc_fluid_temperature e;
     fc_exact_fluid_temperature := fc_exact_fluid_temperature e;
     solver := solver e |}.
Definition set_fc_fluid_temperature (f : FieldCell Scal) (e : Entry) : Entry :=
  {| diff_prev := diff_prev e; error := error e; h := h e;
     entry_mesh := entry_mesh e;
     fc_fluid_temperature := f;
     fc_exact_fluid_temperature := fc_exact_fluid_temperature e;
     solver := solver e |}.
Definition set_fc_exact_fluid_temperature (f : FieldCell Scal) (e : Entry)
  : Entry :=
  {| diff_prev := diff_prev e; error := error e; h := h e;
     entry_mesh := entry_mesh e;
     fc_fluid_temperature := fc_fluid_temperature e;
     fc_exact_fluid_temperature := f;
     solver := solver e |}.
Definition set_solver (s : HeatStorage Scal) (e : Entry) : Entry :=
  {| diff_prev := diff_prev e; error := error e; h := h e;
     entry_mesh := entry_mesh e;
     fc_fluid_temperature := fc_fluid_temperature e;
     fc_exact_fluid_temperature := fc_exact_fluid_temperature e;
     solver := Some s |}.

(** [series_.back()]. *)
Definition back (series : list Entry) : Entry :=
  series !!! pred (length series).

(** What is inserted into the stream [stat] of [mms_statistics.dat], one
    item per [<<].  How a number is printed (with [precision(20)]) is not
    described. *)
Inductive StatItem :=
  | StatText (text : string)      (* a string or a character *)
  | StatSize (n : N)              (* a [size_t] *)
  | StatScal (x : Scal)           (* a [Scal] or a [double] *)
  | StatEndl.                     (* [std::endl] *)

(** The header line, written before the loop over the stages. *)
Definition StatHeader : list StatItem :=
  [StatText "num_cells error diff dt num_steps step_diff"; StatEndl].

(** The line of a stage.  No separator is inserted between [diff_prev] and
    [time_step]. *)
Definition StatRow (num_cells : N) (error diff_prev time_step : Scal)
  (actual_num_steps : nat) (step_diff : Scal) : list StatItem :=
  [StatSize num_cells; StatText " "; StatScal error; StatText " ";
   StatScal diff_prev; StatScal time_step; StatText " ";
   StatSize (N.of_nat actual_num_steps); StatText " "; StatScal step_diff;
   StatEndl].

(** The field files written by [WriteField]: the one of a stage is named by
    its cell count, the last one is the exact solution. *)
Inductive FieldFile :=
  | FieldFileCells (num_cells : N) (fc_u : FieldCell Scal)
  | FieldFileExact (fc_u : FieldCell Scal).

Record TesterMms := {
  series_ : list Entry;
  stat : list StatItem;
  written : list FieldFile;
}.

Definition GetSeries (t : TesterMms) : list Entry := series_ t.

(** The inner loop of a stage: at most [num_steps] steps, left as soon as two
    successive fluid fields differ by less than [step_threshold].  [remaining]
    counts the iterations left, [n] is the loop variable; the result is the
    solver and [actual_num_steps]. *)
Fixpoint StepLoop (remaining n num_steps : nat) (step_threshold : Scal)
  (m : Mesh Scal) (slv : HeatStorage Scal) : HeatStorage Scal * nat :=
  match remaining with
  | O => (slv, num_steps)
  | S remaining' =>
    let slv := FinishStep (CalcStep (StartStep slv)) in
    if CalcDiff (GetFluidTemperatureAt slv Layers_time_curr)
                (GetFluidTemperatureAt slv Layers_time_prev) m
         <? step_threshold
    then (slv, n)
    else StepLoop remaining' (S n) num_steps step_threshold m slv
  end.

(** The body of the loop over the stages.  [entry] is a reference to
    [series_.back()] taken right after [emplace_back]: here the index of the
    new element, so that every later [series_.back()] and [series_.empty()]
    sees the element already in place. *)
Definition TesterStage (domain_length : Scal) (num_steps : nat)
  (time_step step_threshold fluid_velocity conductivity Tleft : Scal)
  (func_rhs_fluid func_exact_fluid_temperature : FuncTX Scal)
  (t : TesterMms) (num_cells : N) : TesterMms :=
  let entry := length (series_ t) in
  let series := series_ t ++ [EmptyEntry] in
  (* Create mesh *)
  let m := InitUniformMesh (s_of_Z 0) domain_length (N.to_nat num_cells) in
  let series := alter (set_mesh m) entry series in
  let fc_rhs_solid := NewFieldCell m (s_of_Z 0) in
  let fc_rhs_fluid := Evaluate func_rhs_fluid (s_of_Z 0) m in
  let slv :=
    NewHeatStorage m time_step fluid_velocity conductivity conductivity
      Tleft Tleft (s_of_Z 0) (s_of_Z 0)
      (Some fc_rhs_fluid) (Some fc_rhs_solid) in
  let '(slv, actual_num_steps) :=
    StepLoop num_steps 0 num_steps step_threshold m slv in
  let series := alter (set_solver slv) entry series in
  let series :=
    alter (set_fc_fluid_temperature (GetFluidTemperature slv)) entry series in
  let series :=
    alter (set_diff_prev
             (match series with
              | [] => s_of_Z 0
              | _ =>
                CalcDiff (fc_fluid_temperature (series !!! entry))
                  (GetInterpolatedField
                     (fc_fluid_temperature (back series))
                     (entry_mesh (back series)) m)
                  m
              end)) entry series in
  let series :=
    alter (set_fc_exact_fluid_temperature
             (Evaluate func_exact_fluid_temperature (s_of_Z 0) m))
      entry series in
  let series :=
    alter (set_error
             (CalcDiff (fc_exact_fluid_temperature (series !!! entry))
                (fc_fluid_temperature (series !!! entry)) m))
      entry series in
  let step_diff :=
    CalcDiff (GetFluidTemperatureAt slv Layers_time_curr)
             (GetFluidTemperatureAt slv Layers_time_prev) m in
  {| series_ := series;
     stat := stat t ++
       StatRow num_cells (error (series !!! entry))
         (diff_prev (series !!! entry)) time_step actual_num_steps step_diff;
     written := written t ++
       [FieldFileCells num_cells (GetFluidTemperature slv)] |}.

(** The cell counts of the stages: [num_cells *= factor] on [size_t]. *)
Definition size_t_max : N := 2 ^ 64.

Fixpoint StageCells (num_stages : nat) (num_cells factor : N) : list N :=
  match num_stages with
  | O => []
  | S k =>
    num_cells :: StageCells k ((num_cells * factor) mod size_t_max)%N factor
  end.

(** The constructor [TesterMms::TesterMms]. *)
Definition NewTesterMms (num_cells_initial : N) (num_stages : nat)
  (factor : N) (domain_length : Scal) (num_steps : nat)
  (time_step step_threshold fluid_velocity conductivity Tleft : Scal)
  (func_rhs_fluid func_exact_fluid_temperature : FuncTX Scal) : TesterMms :=
  let t :=
    fold_left
      (TesterStage domain_length num_steps time_step step_threshold
         fluid_velocity conductivity Tleft
         func_rhs_fluid func_exact_fluid_temperature)
      (StageCells num_stages num_cells_initial factor)
      {| series_ := []; stat := StatHeader; written := [] |} in
  (* Write the exact solution on the finest mesh *)
  match series_ t with
  | [] => t
  | _ =>
    {| series_ := series_ t;
       stat := stat t;
       written := written t ++
         [FieldFileExact (fc_exact_fluid_temperature (back (series_ t)))] |}
  end.

End Tester.

Arguments Entry Scal : clear implicits.
Arguments TesterMms Scal : clear implicits.
Arguments StatItem Scal : clear implicits.
Arguments FieldFile Scal : clear implicits.

(** The outcome of code that may throw. *)
Inductive Result (A : Type) : Type :=
  | Ok (a : A)
  | Throw (what : string).
Arguments Ok {A} a.
Arguments Throw {A} what.

Section Hydro.
Context {Scal : Type} `{ScalOps Scal} `{ScalTrig Scal}.
Local Open Scope scal_scope.
Variable CalcDiff : FieldCell Scal -> FieldCell Scal -> Mesh Scal -> Scal.

(** The parameter store of the experiment ([P_int], [P_double], [P_string],
    [P_vect], [flag], from [control/experiment.hpp]) as read-only lookups. *)
Record Parameters := {
  P_int : string -> Z;
  P_double : string -> Scal;
  P_string : string -> string;
  P_vect : string -> list Scal;
  flag : string -> bool;
}.

(** [GetVect<geom::Vect<Scal, 1>>]. *)
Definition GetVect (v : list Scal) : Scal := v !!! 0%nat.

(** [sqr] of [common/vect.hpp]: the square. *)
Definition sqr (x : Scal) : Scal := x * x.

(** An [int] parameter passed where [size_t] is expected. *)
Definition size_t_of_int (z : Z) : N := Z.to_N (z mod 2 ^ 64).

(** The two manufactured solutions, with the lambdas of the constructor. *)
Definition func_exact_cos_kx (wavenumber : Scal) : FuncTX Scal :=
  fun _ x => s_cos (x * wavenumber).
Definition func_rhs_cos_kx (uf alpha wavenumber : Scal) : FuncTX Scal :=
  fun _ x =>
    - uf * wavenumber * s_sin (x * wavenumber) +
    alpha * sqr wavenumber * s_cos (x * wavenumber).
Definition func_exact_cos_kx2 (wavenumber : Scal) : FuncTX Scal :=
  fun _ x => s_cos (sqr x * wavenumber).
Definition func_rhs_cos_kx2 (uf alpha wavenumber : Scal) : FuncTX Scal :=
  fun _ x =>
    - uf * wavenumber * s_of_Z 2 * x * s_sin (sqr x * wavenumber) +
    alpha * (sqr wavenumber * s_of_Z 4 * sqr x * s_cos (sqr x * wavenumber) +
             wavenumber * s_of_Z 2 * s_sin (sqr x * wavenumber)).

(** The selection of [(func_exact, func_rhs)] by [MMS_exact_solution]. *)
Definition SelectMms (mmsfunc : string) (uf alpha wavenumber : Scal)
  : Result (FuncTX Scal * FuncTX Scal) :=
  if String.eqb mmsfunc "cos(kx)" then
    Ok (func_exact_cos_kx wavenumber, func_rhs_cos_kx uf alpha wavenumber)
  else if String.eqb mmsfunc "cos(kx^2)" then
    Ok (func_exact_cos_kx2 wavenumber, func_rhs_cos_kx2 uf alpha wavenumber)
  else Throw ("Unknown MMS_exact_solution: " ++ mmsfunc).

(** The members of [hydro] that the solver and the tester touch, and the
    local [tester] of the constructor when the flag [MMS] is set. *)
Record hydro := {
  solver_ : HeatStorage Scal;
  hydro_mesh : Mesh Scal;
  tester : option (TesterMms Scal);
}.

(** The constructor [hydro::hydro]: the mesh, the solver and the MMS block.
    Its writes to the parameter store and its output sessions touch neither
    and are left out; [dt] is the time step of the experiment. *)
Definition NewHydro (P : Parameters) (dt : Scal) : Result hydro :=
  (* Create mesh *)
  let m :=
    InitUniformMesh (GetVect (P_vect P "A")) (GetVect (P_vect P "B"))
      (Z.to_nat (P_int P "Nx")) in
  let slv :=
    NewHeatStorage m dt
      (P_double P "uf")
      (P_double P "alpha_fluid") (P_double P "alpha_solid")
      (P_double P "T_hot") (P_double P "T_cold")
      (P_double P "exchange") (P_double P "exchange")
      None None in
  if flag P "MMS" then
    let uf := P_double P "MMS_fluid_velocity" in
    let alpha := P_double P "MMS_alpha" in
    let wavenumber := P_double P "MMS_wavenumber" in
    match SelectMms (P_string P "MMS_exact_solution") uf alpha wavenumber with
    | Throw what => Throw what
    | Ok (func_exact, func_rhs) =>
      Ok {| solver_ := slv;
            hydro_mesh := m;
            tester := Some
              (NewTesterMms CalcDiff
                 (size_t_of_int (P_int P "MMS_mesh_initial"))
                 (N.to_nat (size_t_of_int (P_int P "MMS_num_stages")))
                 (size_t_of_int (P_int P "MMS_factor"))
                 (P_double P "MMS_domain_length")
                 (N.to_nat (size_t_of_int (P_int P "MMS_num_steps")))
                 (P_double P "MMS_time_step")
                 (P_double P "MMS_step_threshold")
                 (P_double P "MMS_fluid_velocity")
                 (P_double P "MMS_alpha")
                 (P_double P "MMS_T_left")
                 func_rhs func_exact) |}
    end
  else Ok {| solver_ := slv; hydro_mesh := m; tester := None |}.

(** [hydro::step], on the solver. *)
Definition step (hy : hydro) : hydro :=
  {| solver_ := FinishStep (CalcStep (StartStep (solver_ hy)));
     hydro_mesh := hydro_mesh hy;
     tester := tester hy |}.

End Hydro.

Arguments Parameters Scal : clear implicits.
Arguments hydro Scal : clear implicits.

(** ** The scheduler *)

Module Scheduler.

Inductive State := Charging | Idle | Discharging.

Section SchedulerClass.
Context {Scal : Type} `{ScalOps Scal} `{ScalTrunc Scal}.
Local Open Scope scal_scope.

Record Scheduler := {
  d1_ : Scal;
  d2_ : Scal;
  d3_ : Scal;
  d4_ : Scal;
}.

(** [static_cast<size_t>(x)]: the fraction is discarded, and the behaviour
    is undefined when the integer part does not fit [size_t] (or there is
    none): [None]. *)
Definition static_cast_size_t (x : Scal) : option Z :=
  match s_trunc x with
  | Some z => if ((0 <=? z) && (z <? 2 ^ 64))%Z then Some z else None
  | None => None
  end.

(** [GetState]; [None] where the conversion to [size_t] is undefined.
    [cycle * cycle_duration] converts [cycle] to [double]. *)
Definition GetState (s : Scheduler) (t : Scal) : option State :=
  let cycle_duration := d1_ s + d2_ s + d3_ s + d4_ s in
  match static_cast_size_t (t / cycle_duration) with
  | None => None
  | Some cycle =>
    let offset := t - s_of_Z cycle * cycle_duration in
    Some (if offset <? d1_ s then Charging
          else if offset <? d1_ s + d2_ s then Idle
          else if offset <? d1_ s + d2_ s + d3_ s then Discharging
          else Idle)
  end.




(** The offset that [GetState] computes and classifies. *)
Definition ComputedOffset (s : Scheduler) (t : Scal) : option Scal :=
  let cycle_duration := d1_ s + d2_ s + d3_ s + d4_ s in
  match static_cast_size_t (t / cycle_duration) with
  | None => None
  | Some cycle => Some (t - s_of_Z cycle * cycle_duration)
  end.

End SchedulerClass.

Arguments Scheduler Scal : clear implicits.

(** [t mod L] for the spec's classification: the remainder of [t] after the
    whole cycles. *)
Definition Qmod (t L : Q) : Q := (t - inject_Z (Qfloor (t / L)) * L)%Q.



End Scheduler.

(** ** Definitions used by the statements *)

Section Reference.
Context {Scal : Type} `{ScalOps Scal}.
Local Open Scope scal_scope.

(** A source pointer is null or points to a field sized for the mesh. *)
Definition SourceSized (m : Mesh Scal) (p : option (FieldCell Scal)) : Prop :=
  match p with
  | None => True
  | Some fc => length fc = NumCells m
  end.

(** The size invariant of the data model: every layer of both fields, and
    every source field, has one value per cell of the mesh.  The constructor
    establishes it for the layers and [CalcStep] keeps it; no loop of
    [CalcStep] then reads or writes outside a field. *)
Definition WellFormed (s : HeatStorage Scal) : Prop :=
  length (time_curr (fc_temperature_fluid_ s)) = NumCells (mesh s)
  /\ length (time_prev (fc_temperature_fluid_ s)) = NumCells (mesh s)
  /\ length (time_curr (fc_temperature_solid_ s)) = NumCells (mesh s)
  /\ length (time_prev (fc_temperature_solid_ s)) = NumCells (mesh s)
  /\ SourceSized (mesh s) (p_fc_rhs_fluid_ s)
  /\ SourceSized (mesh s) (p_fc_rhs_solid_ s).

(** A loop that rewrites, for every index of [idxs] in turn, the element at
    that index from its own old value: the shape of every loop of
    [CalcStep]. *)
Definition UpdateAll (g : nat -> Scal -> Scal) (idxs : list nat)
  (f : list Scal) : list Scal :=
  fold_left (fun f i => <[i := g i (f !!! i)]> f) idxs f.

(** What the face loop of [CalcStep] adds to the zero-initialised fluxes. *)
Definition FluidFluxUpdate (m : Mesh Scal) (uf alpha_f T_in h : Scal)
  (Tf : FieldCell Scal) (idxface : IdxFace) (flux : Scal) : Scal :=
  match GetNeighbourCellOfFace m idxface 0,
        GetNeighbourCellOfFace m idxface 1 with
  | None, _ => flux + uf * T_in
  | Some cm, None => flux + uf * Tf !!! cm
  | Some cm, Some cp =>
    flux + uf * Tf !!! cm + (- alpha_f) * (Tf !!! cp - Tf !!! cm) / h
  end.

Definition SolidFluxUpdate (m : Mesh Scal) (alpha_s h : Scal)
  (Ts : FieldCell Scal) (idxface : IdxFace) (flux : Scal) : Scal :=
  match GetNeighbourCellOfFace m idxface 0,
        GetNeighbourCellOfFace m idxface 1 with
  | None, _ => flux + s_of_Z 0
  | Some cm, None => flux + s_of_Z 0
  | Some cm, Some cp =>
    flux + (- alpha_s) * (Ts !!! cp - Ts !!! cm) / h
  end.

(** The two flux fields after the face loop of [CalcStep]. *)
Definition FluidFluxes (s : HeatStorage Scal) : FieldFace Scal :=
  UpdateAll
    (FluidFluxUpdate (mesh s) (fluid_velocity_ s) (conductivity_fluid_ s)
       (temperature_hot_ s) (GetVolume (mesh s) 0%nat)
       (time_curr (fc_temperature_fluid_ s)))
    (Faces (mesh s)) (NewFieldFace (mesh s) (s_of_Z 0)).

Definition SolidFluxes (s : HeatStorage Scal) : FieldFace Scal :=
  UpdateAll
    (SolidFluxUpdate (mesh s) (conductivity_solid_ s)
       (GetVolume (mesh s) 0%nat) (time_curr (fc_temperature_solid_ s)))
    (Faces (mesh s)) (NewFieldFace (mesh s) (s_of_Z 0)).

(** The reference update, written after section 4.2 of the spec. *)

(** Step 2: the fluid flux through a face. *)
Definition RefFluidFlux (m : Mesh Scal) (u alpha_f T_in h : Scal)
  (T_fluid : FieldCell Scal) (face : IdxFace) : Scal :=
  match GetNeighbourCellOfFace m face 0, GetNeighbourCellOfFace m face 1 with
  | None, _ => u * T_in
  | Some minus, None => u * T_fluid !!! minus
  | Some minus, Some plus =>
    u * T_fluid !!! minus
    - alpha_f * (T_fluid !!! plus - T_fluid !!! minus) / h
  end.

(** Step 2: the solid flux through a face. *)
Definition RefSolidFlux (m : Mesh Scal) (alpha_s h : Scal)
  (T_solid : FieldCell Scal) (face : IdxFace) : Scal :=
  match GetNeighbourCellOfFace m face 0, GetNeighbourCellOfFace m face 1 with
  | None, _ => s_of_Z 0
  | Some minus, None => s_of_Z 0
  | Some minus, Some plus =>
    - (alpha_s * (T_solid !!! plus - T_solid !!! minus) / h)
  end.

(** Steps 3 and 4: the new value of a cell from its previous value, the
    fluxes through its two faces and the source of its phase, if any. *)
Definition RefNewValue (m : Mesh Scal) (dt h : Scal)
  (previous : FieldCell Scal) (flux : IdxFace -> Scal)
  (source : option (FieldCell Scal)) (cell : IdxCell) : Scal :=
  let value :=
    previous !!! cell
    - (dt / h) * (flux (GetNeighbourFace m cell 1)
                  - flux (GetNeighbourFace m cell 0)) in
  match source with
  | Some src => value + dt * src !!! cell
  | None => value
  end.

(** Steps 1 to 4 together: the layers are swapped, so the previous layers
    are the old current ones, and the current layers get the new values. *)
Definition RefCalcStep (s : HeatStorage Scal) : HeatStorage Scal :=
  let m := mesh s in
  let h := GetVolume m 0%nat in
  let dt := time_step_ s in
  let T_fluid := time_curr (fc_temperature_fluid_ s) in
  let T_solid := time_curr (fc_temperature_solid_ s) in
  let flux_fluid :=
    RefFluidFlux m (fluid_velocity_ s) (conductivity_fluid_ s)
      (temperature_hot_ s) h T_fluid in
  let flux_solid := RefSolidFlux m (conductivity_solid_ s) h T_solid in
  {| time_ := time_ s;
     time_step_ := time_step_ s;
     mesh := m;
     fc_temperature_fluid_ :=
       {| time_curr :=
            RefNewValue m dt h T_fluid flux_fluid (p_fc_rhs_fluid_ s)
              <$> Cells m;
          time_prev := T_fluid |};
     fc_temperature_solid_ :=
       {| time_curr :=
            RefNewValue m dt h T_solid flux_solid (p_fc_rhs_solid_ s)
              <$> Cells m;
          time_prev := T_solid |};
     fluid_velocity_ := fluid_velocity_ s;
     conductivity_fluid_ := conductivity_fluid_ s;
     conductivity_solid_ := conductivity_solid_ s;
     temperature_hot_ := temperature_hot_ s;
     temperature_cold_ := temperature_cold_ s;
     exchange_fluid_ := exchange_fluid_ s;
     exchange_solid_ := exchange_solid_ s;
     p_fc_rhs_fluid_ := p_fc_rhs_fluid_ s;
     p_fc_rhs_solid_ := p_fc_rhs_solid_ s |}.

(** A source field that is zero at every cell of the mesh, as
    [FieldCell<Scal>(mesh, 0.)] is. *)
Definition ZeroField (m : Mesh Scal) (fc : FieldCell Scal) : Prop :=
  length fc = NumCells m
  /\ forall c, (c < NumCells m)%nat -> fc !!! c = s_of_Z 0.

(** A source pointer that is null or points to a zero field. *)
Definition ZeroOrAbsent (m : Mesh Scal) (p : option (FieldCell Scal)) : Prop :=
  match p with
  | None => True
  | Some fc => ZeroField m fc
  end.

(** Two source pointers that are the same, or one null and the other
    pointing to a zero field. *)
Definition SourceEquiv (m : Mesh Scal) (p q : option (FieldCell Scal)) : Prop :=
  p = q
  \/ (p = None /\ ZeroOrAbsent m q)
  \/ (q = None /\ ZeroOrAbsent m p).

(** A solver at rest: no velocity, no conductivity, no source. *)
Definition AtRest (s : HeatStorage Scal) : Prop :=
  WellFormed s
  /\ fluid_velocity_ s = s_of_Z 0
  /\ conductivity_fluid_ s = s_of_Z 0
  /\ conductivity_solid_ s = s_of_Z 0
  /\ ZeroOrAbsent (mesh s) (p_fc_rhs_fluid_ s)
  /\ ZeroOrAbsent (mesh s) (p_fc_rhs_solid_ s).

(** Two solvers that differ at most in how a zero source is given. *)
Definition SameButSources (s1 s2 : HeatStorage Scal) : Prop :=
  time_ s1 = time_ s2
  /\ time_step_ s1 = time_step_ s2
  /\ mesh s1 = mesh s2
  /\ fc_temperature_fluid_ s1 = fc_temperature_fluid_ s2
  /\ fc_temperature_solid_ s1 = fc_temperature_solid_ s2
  /\ fluid_velocity_ s1 = fluid_velocity_ s2
  /\ conductivity_fluid_ s1 = conductivity_fluid_ s2
  /\ conductivity_solid_ s1 = conductivity_solid_ s2
  /\ temperature_hot_ s1 = temperature_hot_ s2
  /\ SourceEquiv (mesh s1) (p_fc_rhs_fluid_ s1) (p_fc_rhs_fluid_ s2)
  /\ SourceEquiv (mesh s1) (p_fc_rhs_solid_ s1) (p_fc_rhs_solid_ s2).

(** The bracket of [GetInterpolatedField] after the first [k] destination
    cells. *)
Definition BracketAfter (fc_src : FieldCell Scal)
  (mesh_src mesh_dest : Mesh Scal) (k : nat) : IdxCell * IdxCell :=
  (fold_left (InterpolateCell fc_src mesh_src mesh_dest) (seq 0 k)
     (0%nat, 0%nat, NewFieldCell mesh_dest (s_of_Z 0))).1.

(** The shape of the bracket: the initial one, or two neighbouring cells. *)
Definition BracketShape (m : Mesh Scal) (b : nat * nat) : Prop :=
  (b.1 = 0%nat /\ b.2 = 0%nat) \/ (b.2 = S b.1 /\ (b.2 < NumCells m)%nat).

End Reference.

Section TesterReference.
Context {Scal : Type} `{ScalOps Scal}.
Variable CalcDiff : FieldCell Scal -> FieldCell Scal -> Mesh Scal -> Scal.

(** An entry whose [diff_prev] compares its field with the interpolation of
    that same field from its own mesh onto its own mesh. *)
Definition SelfCompared (e : Entry Scal) : Prop :=
  diff_prev e =
  CalcDiff (fc_fluid_temperature e)
    (GetInterpolatedField (fc_fluid_temperature e)
       (entry_mesh e) (entry_mesh e))
    (entry_mesh e).

(** The entry a stage of [num_cells] cells leaves in the series, from the
    parameters of the tester alone. *)
Definition StageEntry (domain_length : Scal) (num_steps : nat)
  (time_step step_threshold fluid_velocity conductivity Tleft : Scal)
  (func_rhs_fluid func_exact_fluid_temperature : FuncTX Scal)
  (num_cells : N) : Entry Scal :=
  let m := InitUniformMesh (s_of_Z 0) domain_length (N.to_nat num_cells) in
  let slv :=
    (StepLoop CalcDiff num_steps 0 num_steps step_threshold m
       (NewHeatStorage m time_step fluid_velocity conductivity conductivity
          Tleft Tleft (s_of_Z 0) (s_of_Z 0)
          (Some (Evaluate func_rhs_fluid (s_of_Z 0) m))
          (Some (NewFieldCell m (s_of_Z 0))))).1 in
  let fc := GetFluidTemperature slv in
  let fc_exact := Evaluate func_exact_fluid_temperature (s_of_Z 0) m in
  {| diff_prev := CalcDiff fc (GetInterpolatedField fc m m) m;
     error := CalcDiff fc_exact fc m;
     h := s_of_Z 0;
     entry_mesh := m;
     fc_fluid_temperature := fc;
     fc_exact_fluid_temperature := fc_exact;
     solver := Some slv |}.

End TesterReference.

(** A small solver over the reals, for the examples: three cells on
    [[0, 3]], so that the cell size is 1. *)
Definition ExampleSolver (uf alpha_f alpha_s : R)
  (p_fc_rhs_fluid p_fc_rhs_solid : option (FieldCell R)) : HeatStorage R :=
  {| time_ := 0%R;
     time_step_ := (1 / 10)%R;
     mesh := InitUniformMesh 0%R 3%R 3;
     fc_temperature_fluid_ :=
       {| time_curr := [1%R; 2%R; 4%R]; time_prev := [1%R; 1%R; 1%R] |};
     fc_temperature_solid_ :=
       {| time_curr := [5%R; 3%R; 1%R]; time_prev := [1%R; 1%R; 1%R] |};
     fluid_velocity_ := uf;
     conductivity_fluid_ := alpha_f;
     conductivity_solid_ := alpha_s;
     temperature_hot_ := 7%R;
     temperature_cold_ := 1%R;
     exchange_fluid_ := 0%R;
     exchange_solid_ := 0%R;
     p_fc_rhs_fluid_ := p_fc_rhs_fluid;
     p_fc_rhs_solid_ := p_fc_rhs_solid |}.

(** Another one, with two cells on [[0, 2]] and other values past the
    leftmost cell. *)
Definition ExampleSolver2 (uf alpha_f alpha_s : R)
  (p_fc_rhs_fluid p_fc_rhs_solid : option (FieldCell R)) : HeatStorage R :=
  {| time_ := 0%R;
     time_step_ := (1 / 10)%R;
     mesh := InitUniformMesh 0%R 2%R 2;
     fc_temperature_fluid_ :=
       {| time_curr := [1%R; 9%R]; time_prev := [0%R; 0%R] |};
     fc_temperature_solid_ :=
       {| time_curr := [6%R; 8%R]; time_prev := [0%R; 0%R] |};
     fluid_velocity_ := uf;
     conductivity_fluid_ := alpha_f;
     conductivity_solid_ := alpha_s;
     temperature_hot_ := 7%R;
     temperature_cold_ := 1%R;
     exchange_fluid_ := 0%R;
     exchange_solid_ := 0%R;
     p_fc_rhs_fluid_ := p_fc_rhs_fluid;
     p_fc_rhs_solid_ := p_fc_rhs_solid |}.

(** Source cells in ascending order of their centres. *)
Definition Ascending (m : Mesh R) : Prop :=
  forall c c', (c < c')%nat -> (c' < NumCells m)%nat ->
    (GetCenter m c < GetCenter m c')%R.


(** What the bracket records of the destination cells scanned so far: it is
    the initial one, or two neighbouring source cells of which the left one
    lies below one of the first [k] destination centres. *)
Definition BracketReached (src dest : Mesh R) (k : nat) (b : nat * nat)
  : Prop :=
  (b.1 = 0%nat /\ b.2 = 0%nat)
  \/ (b.2 = S b.1 /\ (b.2 < NumCells src)%nat
      /\ exists k', (k' < k)%nat
                    /\ (GetCenter src b.1 < GetCenter dest k')%R).

(** The exact solution [T] and the right-hand side [rhs] of a manufactured
    steady solution of the equation the solver integrates,
    dT/dt + d/dx (u T - alpha dT/dx) = rhs: at every point [T] has a first
    derivative [T1] and a second one [T2], and rhs = u T1 - alpha T2. *)
Definition ManufacturedPair (u alpha : R) (func_exact func_rhs : FuncTX R)
  : Prop :=
  exists T1 T2 : R -> R -> R,
    (forall t x, derivable_pt_lim (func_exact t) x (T1 t x))
    /\ (forall t x, derivable_pt_lim (T1 t) x (T2 t x))
    /\ (forall t x, func_rhs t x = (u * T1 t x - alpha * T2 t x)%R).

(** What the two names select, at every point. *)
Definition SelectedAs (mmsfunc : string) (uf alpha wavenumber : R)
  (func_exact func_rhs : FuncTX R) : Prop :=
  (mmsfunc = "cos(kx)"%string ->
   forall t x : R,
     func_exact t x = cos (wavenumber * x)%R
     /\ func_rhs t x =
        (- uf * wavenumber * sin (wavenumber * x)
         + alpha * wavenumber ^ 2 * cos (wavenumber * x))%R)
  /\ (mmsfunc = "cos(kx^2)"%string ->
      forall t x : R,
        func_exact t x = cos (wavenumber * x ^ 2)%R
        /\ func_rhs t x =
           (- uf * (2 * wavenumber * x) * sin (wavenumber * x ^ 2)
            + alpha * (4 * wavenumber ^ 2 * x ^ 2 * cos (wavenumber * x ^ 2)
                       + 2 * wavenumber * sin (wavenumber * x ^ 2)))%R).

(** The selector names the constructor knows. *)
Definition Recognized (mmsfunc : string) : Prop :=
  mmsfunc = "cos(kx)"%string \/ mmsfunc = "cos(kx^2)"%string.

(** A parameter store for the examples: the flag [MMS] is set and
    [MMS_exact_solution] is [mmsfunc]. *)
Definition ExampleParameters (mmsfunc : string) : Parameters R :=
  {| P_int := fun _ => 2%Z;
     P_double := fun _ => 1%R;
     P_string := fun _ => mmsfunc;
     P_vect := fun key => if String.eqb key "A" then [0%R] else [1%R];
     flag := fun _ => true |}.

(** Meshes and fields for the examples of the interpolation: over the
    reals, and over binary64 as the program computes. *)
Definition ExampleSrc : Mesh R := InitUniformMesh 0%R 2%R 2.
Definition ExampleDest : Mesh R := InitUniformMesh 0%R 3%R 3.
Definition FloatSrc : Mesh float := InitUniformMesh 0%float 2%float 2.
Definition FloatDest : Mesh float := InitUniformMesh 0%float 3%float 3.
Definition FloatMesh : Mesh float := InitUniformMesh 0%float 1%float 2.
Definition FloatFine : Mesh float := InitUniformMesh 0%float 1%float 4.

(** ** Definitions used by the further properties *)

Section FurtherReference.
Context {Scal : Type} `{ScalOps Scal}.
Local Open Scope scal_scope.

(** Two solvers with the same fluid problem: everything the fluid update of
    [CalcStep] reads. *)
Definition SameFluidProblem (s1 s2 : HeatStorage Scal) : Prop :=
  mesh s1 = mesh s2
  /\ time_step_ s1 = time_step_ s2
  /\ fluid_velocity_ s1 = fluid_velocity_ s2
  /\ conductivity_fluid_ s1 = conductivity_fluid_ s2
  /\ temperature_hot_ s1 = temperature_hot_ s2
  /\ p_fc_rhs_fluid_ s1 = p_fc_rhs_fluid_ s2
  /\ fc_temperature_fluid_ s1 = fc_temperature_fluid_ s2.

(** Two solvers with the same solid problem. *)
Definition SameSolidProblem (s1 s2 : HeatStorage Scal) : Prop :=
  mesh s1 = mesh s2
  /\ time_step_ s1 = time_step_ s2
  /\ conductivity_solid_ s1 = conductivity_solid_ s2
  /\ p_fc_rhs_solid_ s1 = p_fc_rhs_solid_ s2
  /\ fc_temperature_solid_ s1 = fc_temperature_solid_ s2.

End FurtherReference.

(** The sum of a field over its cells. *)
Definition Total (fc : FieldCell R) : R := foldr Rplus 0%R fc.

(** [ExampleSolver] with other values away from the leftmost cells and
    another solid phase. *)
Definition ExampleSolverFar (uf alpha_f alpha_s : R)
  (p_fc_rhs_fluid p_fc_rhs_solid : option (FieldCell R)) : HeatStorage R :=
  {| time_ := 5%R;
     time_step_ := (1 / 10)%R;
     mesh := InitUniformMesh 0%R 3%R 3;
     fc_temperature_fluid_ :=
       {| time_curr := [1%R; 2%R; 9%R]; time_prev := [0%R; 0%R; 0%R] |};
     fc_temperature_solid_ :=
       {| time_curr := [8%R; 8%R; 8%R]; time_prev := [2%R; 2%R; 2%R] |};
     fluid_velocity_ := uf;
     conductivity_fluid_ := alpha_f;
     conductivity_solid_ := alpha_s;
     temperature_hot_ := 7%R;
     temperature_cold_ := 3%R;
     exchange_fluid_ := 4%R;
     exchange_solid_ := 6%R;
     p_fc_rhs_fluid_ := p_fc_rhs_fluid;
     p_fc_rhs_solid_ := p_fc_rhs_solid |}.

(** The two numbers that govern the stability of the explicit fluid update:
    the advective one, u dt / h, and the diffusive one, alpha dt / h^2. *)
Definition AdvectionNumber (s : HeatStorage R) : R :=
  (fluid_velocity_ s * (time_step_ s / GetVolume (mesh s) 0%nat))%R.
Definition DiffusionNumber (s : HeatStorage R) : R :=
  (conductivity_fluid_ s * (time_step_ s / GetVolume (mesh s) 0%nat)
   / GetVolume (mesh s) 0%nat)%R.

(** A binary64 mesh of a single cell on [[0, 1]]. *)
Definition FloatOne : Mesh float := InitUniformMesh 0%float 1%float 1.

(** Four cells on [[0, 2]]: a refinement of [ExampleSrc]. *)
Definition ExampleFine : Mesh R := InitUniformMesh 0%R 2%R 4.

Section TesterOutputReference.
Context {Scal : Type} `{ScalOps Scal}.
Variable CalcDiff : FieldCell Scal -> FieldCell Scal -> Mesh Scal -> Scal.



End TesterOutputReference.

(** ** The output cadence of the module *)

(** [x <= y] on scalars, for [write_results]. *)
Class ScalOrd (Scal : Type) := {
  s_leb : Scal -> Scal -> bool;
}.

#[export] Instance float_ord : ScalOrd float := {| s_leb := PrimFloat.leb |}.

#[export] Instance R_ord : ScalOrd R := {|
  s_leb := fun x y => if Rle_dec x y then true else false;
|}.

Section Output.
Context {Scal : Type} `{ScalOps Scal} `{ScalOrd Scal}.
Local Open Scope scal_scope.

(** The members of [hydro] and the counters of the parameter store that
    [write_results] changes, and the times of the frames its two sessions
    have written. *)
Record FrameState := {
  last_frame_time_ : Scal;
  last_frame_scalar_time_ : Scal;
  current_frame : Z;                 (* P_int["current_frame"] *)
  current_frame_scalar : Z;          (* P_int["current_frame_scalar"] *)
  session_frames : list Scal;        (* session->Write(time, "step") *)
  session_scalar_frames : list Scal; (* session_scalar->Write() *)
}.

(** [hydro::write_results].  The values it reads from the parameter store
    are arguments: [no_output] and [no_mesh_output] are the two flags,
    [time] is [P_double["t"]], [total_time] is [P_double["T"]], and the two
    frame counts are [P_int["max_frame_index"]] and
    [P_int["max_frame_scalar_index"]] as [size_t].  [time >= x] is
    [x <= time]. *)
Definition write_results (no_output no_mesh_output : bool)
  (time total_time : Scal) (max_frame_index max_frame_scalar_index : N)
  (force : bool) (st : FrameState) : FrameState :=
  if no_output then st
  else
    let frame_duration := total_time / s_of_Z (Z.of_N max_frame_index) in
    let st :=
      if force
         || (negb no_mesh_output
             && s_leb (last_frame_time_ st + frame_duration) time)
      then
        {| last_frame_time_ := time;
           last_frame_scalar_time_ := last_frame_scalar_time_ st;
           current_frame := current_frame st + 1;
           current_frame_scalar := current_frame_scalar st;
           session_frames := session_frames st ++ [time];
           session_scalar_frames := session_scalar_frames st |}
      else st in
    let frame_scalar_duration :=
      total_time / s_of_Z (Z.of_N max_frame_scalar_index) in
    if force
       || s_leb (last_frame_scalar_time_ st + frame_scalar_duration) time
    then
      {| last_frame_time_ := last_frame_time_ st;
         last_frame_scalar_time_ := time;
         current_frame := current_frame st;
         current_frame_scalar := current_frame_scalar st + 1;
         session_frames := session_frames st;
         session_scalar_frames := session_scalar_frames st ++ [time] |}
    else st.

(** A run of unforced calls, one per time of [times]. *)
Definition write_results_run (no_output no_mesh_output : bool)
  (total_time : Scal) (max_frame_index max_frame_scalar_index : N)
  (times : list Scal) (st : FrameState) : FrameState :=
  fold_left
    (fun st time =>
       write_results no_output no_mesh_output time total_time
         max_frame_index max_frame_scalar_index false st)
    times st.

End Output.

Arguments FrameState Scal : clear implicits.

(** The bookkeeping that unforced calls of [write_results] keep between a
    state [st0] and a later state [st], over the reals: each counter has
    advanced by the number of frames its session has written since, and
    that many frame durations fit between the two times of the last
    frame. *)
Definition Cadence (T : R) (m ms : N) (st0 st : FrameState R) : Prop :=
  (0 <= current_frame st - current_frame st0)%Z
  /\ (0 <= current_frame_scalar st - current_frame_scalar st0)%Z
  /\ (IZR (current_frame st - current_frame st0) * (T / IZR (Z.of_N m))
      <= last_frame_time_ st - last_frame_time_ st0)%R
  /\ (last_frame_time_ st <= T)%R
  /\ (IZR (current_frame_scalar st - current_frame_scalar st0)
      * (T / IZR (Z.of_N ms))
      <= last_frame_scalar_time_ st - last_frame_scalar_time_ st0)%R
  /\ (last_frame_scalar_time_ st <= T)%R
  /\ length (session_frames st)
     = (length (session_frames st0)
        + Z.to_nat (current_frame st - current_frame st0))%nat
  /\ length (session_scalar_frames st)
     = (length (session_scalar_frames st0)
        + Z.to_nat (current_frame_scalar st - current_frame_scalar st0))%nat.

(** A state as the constructor of [hydro] leaves it: both times and both
    counters are zero, and each session has written its initial frame. *)
Definition ExampleFrameState : FrameState R :=
  {| last_frame_time_ := 0%R;
     last_frame_scalar_time_ := 0%R;
     current_frame := 0;
     current_frame_scalar := 0;
     session_frames := [0%R];
     session_scalar_frames := [0%R] |}.


(** ** The solver with every field access checked *)

Section Checked.
Context {Scal : Type} `{ScalOps Scal}.
Local Open Scope scal_scope.

(** [f[i]] read, [f[i] = v] and [f[i] += v] with the bound that
    [operator[]] does not check: [None] where the program would index
    outside the field. *)
Definition ReadAt (f : list Scal) (i : nat) : option Scal := f !! i.

Definition WriteAt (f : list Scal) (i : nat) (v : Scal)
  : option (list Scal) :=
  if decide (i < length f)%nat then Some (<[i := v]> f) else None.

Definition AddAtChecked (f : list Scal) (i : nat) (v : Scal)
  : option (list Scal) :=
  x ← ReadAt f i; WriteAt f i (x + v).

(** A [for] loop whose body may fail. *)
Definition CheckedLoop {A B : Type} (body : A -> B -> option A)
  (l : list B) (a : A) : option A :=
  fold_left (fun acc x => acc ≫= fun a => body a x) l (Some a).

(** The body of the loop over the faces in [CalcStep], access by access. *)
Definition FaceFluxesChecked (m : Mesh Scal)
  (uf alpha_f alpha_s T_in h : Scal)
  (Tf Ts : FieldCell Scal) (st : FieldFace Scal * FieldFace Scal)
  (idxface : IdxFace)
  : option (FieldFace Scal * FieldFace Scal) :=
  let '(ff_flux_fluid, ff_flux_solid) := st in
  let cm := GetNeighbourCellOfFace m idxface 0 in
  let cp := GetNeighbourCellOfFace m idxface 1 in
  match cm, cp with
  | None, _ =>                                          (* left boundary *)
    ff_flux_fluid ← AddAtChecked ff_flux_fluid idxface (uf * T_in);
    ff_flux_solid ← AddAtChecked ff_flux_solid idxface (s_of_Z 0);
    Some (ff_flux_fluid, ff_flux_solid)
  | Some cm, None =>                                    (* right boundary *)
    Tf_cm ← ReadAt Tf cm;
    ff_flux_fluid ← AddAtChecked ff_flux_fluid idxface (uf * Tf_cm);
    ff_flux_solid ← AddAtChecked ff_flux_solid idxface (s_of_Z 0);
    Some (ff_flux_fluid, ff_flux_solid)
  | Some cm, Some cp =>
    (* convection: first order upwind *)
    Tf_cm ← ReadAt Tf cm;
    ff_flux_fluid ← AddAtChecked ff_flux_fluid idxface (uf * Tf_cm);
    (* diffusion: central second order *)
    Tf_cp ← ReadAt Tf cp;
    Tf_cm ← ReadAt Tf cm;
    ff_flux_fluid ←
      AddAtChecked ff_flux_fluid idxface
        ((- alpha_f) * (Tf_cp - Tf_cm) / h);
    Ts_cp ← ReadAt Ts cp;
    Ts_cm ← ReadAt Ts cm;
    ff_flux_solid ←
      AddAtChecked ff_flux_solid idxface
        ((- alpha_s) * (Ts_cp - Ts_cm) / h);
    Some (ff_flux_fluid, ff_flux_solid)
  end.

(** The body of the loop "time integration of flux terms". *)
Definition IntegrateFluxesChecked (m : Mesh Scal) (dt h : Scal)
  (ff_flux_fluid ff_flux_solid : FieldFace Scal) (Tf Ts : FieldCell Scal)
  (st : FieldCell Scal * FieldCell Scal) (idxcell : IdxCell)
  : option (FieldCell Scal * FieldCell Scal) :=
  let '(Tf_new, Ts_new) := st in
  let fm := GetNeighbourFace m idxcell 0 in
  let fp := GetNeighbourFace m idxcell 1 in
  flux_fp ← ReadAt ff_flux_fluid fp;
  flux_fm ← ReadAt ff_flux_fluid fm;
  let fluxsum_fluid := flux_fp - flux_fm in
  Tf_c ← ReadAt Tf idxcell;
  Tf_new ← WriteAt Tf_new idxcell (Tf_c - dt / h * fluxsum_fluid);
  flux_fp ← ReadAt ff_flux_solid fp;
  flux_fm ← ReadAt ff_flux_solid fm;
  let fluxsum_solid := flux_fp - flux_fm in
  Ts_c ← ReadAt Ts idxcell;
  Ts_new ← WriteAt Ts_new idxcell (Ts_c - dt / h * fluxsum_solid);
  Some (Tf_new, Ts_new).

(** "Time integration of source terms", for one phase. *)
Definition IntegrateSourceChecked (m : Mesh Scal) (dt : Scal)
  (p_fc_rhs : option (FieldCell Scal)) (T_new : FieldCell Scal)
  : option (FieldCell Scal) :=
  match p_fc_rhs with
  | Some fc_rhs =>
    CheckedLoop
      (fun (T_new : FieldCell Scal) idxcell =>
         rhs_c ← ReadAt fc_rhs idxcell;
         AddAtChecked T_new idxcell (dt * rhs_c))
      (Cells m) T_new
  | None => Some T_new
  end.

(** [CalcStep] with every access to a temperature layer, a flux field or a
    source field checked; the accesses are those of [CalcStep], in its
    order.  The mesh is asked for [GetVolume(IdxCell(0))] as in
    [CalcStep]. *)
Definition CalcStepChecked (s : HeatStorage Scal)
  : option (HeatStorage Scal) :=
  let Tf := time_curr (fc_temperature_fluid_ s) in
  let Tf_new := time_prev (fc_temperature_fluid_ s) in
  let Ts := time_curr (fc_temperature_solid_ s) in
  let Ts_new := time_prev (fc_temperature_solid_ s) in
  let h := GetVolume (mesh s) 0%nat in
  let dt := GetTimeStep s in
  let uf := fluid_velocity_ s in
  let alpha_f := conductivity_fluid_ s in
  let alpha_s := conductivity_solid_ s in
  let T_in := temperature_hot_ s in
  fluxes ←
    CheckedLoop (FaceFluxesChecked (mesh s) uf alpha_f alpha_s T_in h Tf Ts)
      (Faces (mesh s))
      (NewFieldFace (mesh s) (s_of_Z 0), NewFieldFace (mesh s) (s_of_Z 0));
  new ←
    CheckedLoop
      (IntegrateFluxesChecked (mesh s) dt h fluxes.1 fluxes.2 Tf Ts)
      (Cells (mesh s)) (Tf_new, Ts_new);
  Tf_new ← IntegrateSourceChecked (mesh s) dt (p_fc_rhs_fluid_ s) new.1;
  Ts_new ← IntegrateSourceChecked (mesh s) dt (p_fc_rhs_solid_ s) new.2;
  Some
    {| time_ := time_ s;
       time_step_ := time_step_ s;
       mesh := mesh s;
       fc_temperature_fluid_ := {| time_curr := Tf_new; time_prev := Tf |};
       fc_temperature_solid_ := {| time_curr := Ts_new; time_prev := Ts |};
       fluid_velocity_ := fluid_velocity_ s;
       conductivity_fluid_ := conductivity_fluid_ s;
       conductivity_solid_ := conductivity_solid_ s;
       temperature_hot_ := temperature_hot_ s;
       temperature_cold_ := temperature_cold_ s;
       exchange_fluid_ := exchange_fluid_ s;
       exchange_solid_ := exchange_solid_ s;
       p_fc_rhs_fluid_ := p_fc_rhs_fluid_ s;
       p_fc_rhs_solid_ := p_fc_rhs_solid_ s |}.

End Checked.

(** ** The scheduler on small integers, in binary64 *)

(** The scheduler of the program with integer durations. *)
Definition IntScheduler (d1 d2 d3 d4 : Z) : Scheduler.Scheduler float :=
  {| Scheduler.d1_ := float_of_Z d1;
     Scheduler.d2_ := float_of_Z d2;
     Scheduler.d3_ := float_of_Z d3;
     Scheduler.d4_ := float_of_Z d4 |}.

#[export] Instance State_eq_dec : EqDecision Scheduler.State.
Proof. solve_decision. Defined.

(** The program run at the time [t] and at [t + k * L], both computed in
    binary64: do the two answers exist and agree? *)
Definition PeriodicAt (d1 d2 d3 d4 t k : Z) : bool :=
  let s := IntScheduler d1 d2 d3 d4 in
  let L :=
    (Scheduler.d1_ s + Scheduler.d2_ s + Scheduler.d3_ s
     + Scheduler.d4_ s)%float in
  match Scheduler.GetState s (float_of_Z t + float_of_Z k * L)%float,
        Scheduler.GetState s (float_of_Z t) with
  | Some a, Some b => bool_decide (a = b)
  | _, _ => false
  end.

(** * Properties *)

(** Unfold the operations of [ScalOps] at the reals. *)
Ltac scal_R :=
  cbn [s_add s_sub s_mul s_div s_opp s_of_Z s_ltb R_ops s_cos s_sin R_trig]
    in *.

(** Turn the cell counts of the example meshes into numerals. *)
Ltac norm_Z := cbv [Z.of_nat Pos.of_succ_nat Pos.succ] in *.

(** ** The scheduler *)


Section SchedulerFacts.
Import Scheduler.
Local Open Scope Q_scope.









Lemma Qmod_decompose (t L : Q) :
  t == Qmod t L + inject_Z (Qfloor (t / L)) * L.
Proof. unfold Qmod. ring. Qed.







(** In every scalar type the state is decided by the computed offset. *)
Lemma GetState_by_offset {Scal : Type} `{ScalOps Scal} `{ScalTrunc Scal}
  (s : Scheduler Scal) (t : Scal) :
  GetState s t =
  match ComputedOffset s t with
  | None => None
  | Some offset =>
    Some (if (offset <? d1_ s)%scal then Charging
          else if (offset <? d1_ s + d2_ s)%scal then Idle
          else if (offset <? d1_ s + d2_ s + d3_ s)%scal then Discharging
          else Idle)
  end.
Proof.
  unfold GetState, ComputedOffset.
  destruct (static_cast_size_t _); reflexivity.
Qed.








End SchedulerFacts.

(** ** The scheduler on small integers, in binary64 *)

Section SchedulerSmallIntegers.
Import Scheduler.

Lemma forallb_seqZ (P : Z -> bool) (lo n z : Z) :
  forallb P (seqZ lo n) = true -> (lo <= z < lo + n)%Z -> P z = true.
Proof.
  intros Hall Hz. rewrite forallb_forall in Hall. apply Hall.
  apply list_elem_of_In, elem_of_seqZ. exact Hz.
Qed.

(** The program run on every input of a small box of integers: durations
    in [[0, 3)] of positive sum, times in [[0, 20)], [k] in [[0, 5)]. *)
Lemma PeriodicAt_box :
  forallb (fun d1 => forallb (fun d2 => forallb (fun d3 => forallb (fun d4 =>
    if (0 <? d1 + d2 + d3 + d4)%Z then
      forallb (fun t => forallb (fun k => PeriodicAt d1 d2 d3 d4 t k)
                          (seqZ 0 5))
        (seqZ 0 20)
    else true)
    (seqZ 0 3)) (seqZ 0 3)) (seqZ 0 3)) (seqZ 0 3) = true.
Proof. vm_compute. reflexivity. Qed.

Lemma PeriodicAt_small (d1 d2 d3 d4 t k : Z) :
  (0 <= d1 < 3)%Z -> (0 <= d2 < 3)%Z -> (0 <= d3 < 3)%Z -> (0 <= d4 < 3)%Z ->
  (0 < d1 + d2 + d3 + d4)%Z -> (0 <= t < 20)%Z -> (0 <= k < 5)%Z ->
  PeriodicAt d1 d2 d3 d4 t k = true.
Proof.
  intros H1 H2 H3 H4 HL Ht Hk.
  pose proof PeriodicAt_box as Hall.
  apply (forallb_seqZ _ 0 3 d1) in Hall; [|lia]. cbv beta in Hall.
  apply (forallb_seqZ _ 0 3 d2) in Hall; [|lia]. cbv beta in Hall.
  apply (forallb_seqZ _ 0 3 d3) in Hall; [|lia]. cbv beta in Hall.
  apply (forallb_seqZ _ 0 3 d4) in Hall; [|lia]. cbv beta in Hall.
  apply Z.ltb_lt in HL. rewrite HL in Hall.
  apply (forallb_seqZ _ 0 20 t) in Hall; [|lia]. cbv beta in Hall.
  apply (forallb_seqZ _ 0 5 k) in Hall; [|lia]. exact Hall.
Qed.

(** On small integers the program itself, computing in binary64, is
    periodic: for integer durations in [[0, 3)] of positive sum, integer
    times in [[0, 20)] and [k] in [[0, 5)], it answers at [t + k * L] what it
    answers at [t].  Checked by running the program on each of these
    inputs. *)
Lemma GetState_periodic_on_small_integers (d1 d2 d3 d4 t k : Z) :
  (0 <= d1 < 3)%Z -> (0 <= d2 < 3)%Z -> (0 <= d3 < 3)%Z -> (0 <= d4 < 3)%Z ->
  (0 < d1 + d2 + d3 + d4)%Z -> (0 <= t < 20)%Z -> (0 <= k < 5)%Z ->
  let s := IntScheduler d1 d2 d3 d4 in
  let L := (d1_ s + d2_ s + d3_ s + d4_ s)%float in
  GetState s (float_of_Z t + float_of_Z k * L)%float
  = GetState s (float_of_Z t)
  /\ GetState s (float_of_Z t) <> None.
Proof.
  intros H1 H2 H3 H4 HL Ht Hk.
  pose proof (PeriodicAt_small d1 d2 d3 d4 t k H1 H2 H3 H4 HL Ht Hk) as E.
  revert E. unfold PeriodicAt. cbv zeta.
  destruct (GetState _ (_ + _)%float) as [a|]; [|discriminate].
  destruct (GetState _ (float_of_Z t)) as [b|]; [|discriminate].
  intros E. apply bool_decide_eq_true in E. subst b.
  split; [reflexivity|discriminate].
Qed.

End SchedulerSmallIntegers.

(** ** Loops over the cells and the faces *)

Section LoopFacts.
Context {Scal : Type} `{ScalOps Scal}.
Local Open Scope scal_scope.

Lemma UpdateAll_length g idxs (f : list Scal) :
  length (UpdateAll g idxs f) = length f.
Proof.
  unfold UpdateAll. revert f.
  induction idxs as [|i idxs IH]; intros f; simpl; [reflexivity|].
  rewrite IH. apply length_insert.
Qed.

Lemma UpdateAll_app g idxs1 idxs2 (f : list Scal) :
  UpdateAll g (idxs1 ++ idxs2) f = UpdateAll g idxs2 (UpdateAll g idxs1 f).
Proof. unfold UpdateAll. apply fold_left_app. Qed.

Lemma UpdateAll_lookup_other g idxs (f : list Scal) (j : nat) :
  j ∉ idxs -> UpdateAll g idxs f !!! j = f !!! j.
Proof.
  unfold UpdateAll. revert f.
  induction idxs as [|i idxs IH]; intros f Hj; simpl; [reflexivity|].
  apply not_elem_of_cons in Hj as [Hne Hj].
  rewrite IH by assumption. apply list_lookup_total_insert_ne. congruence.
Qed.

Lemma UpdateAll_lookup_seq g (a n : nat) (f : list Scal) (j : nat) :
  (a <= j < a + n)%nat -> (j < length f)%nat ->
  UpdateAll g (seq a n) f !!! j = g j (f !!! j).
Proof.
  revert a f. induction n as [|n IH]; intros a f Hj Hlen; [lia|].
  simpl. change (fold_left _ ?l ?x) with (UpdateAll g l x).
  destruct (decide (j = a)) as [->|Hne].
  - rewrite UpdateAll_lookup_other.
    + apply list_lookup_total_insert_eq. assumption.
    + rewrite elem_of_seq. lia.
  - rewrite IH.
    + rewrite list_lookup_total_insert_ne by congruence. reflexivity.
    + lia.
    + rewrite length_insert. assumption.
Qed.

(** A loop that updates two fields side by side is two loops. *)
Lemma fold_left_pair (ga gb : nat -> Scal -> Scal) idxs (a b : list Scal) :
  fold_left
    (fun (st : list Scal * list Scal) i =>
       (<[i := ga i (st.1 !!! i)]> st.1, <[i := gb i (st.2 !!! i)]> st.2))
    idxs (a, b)
  = (UpdateAll ga idxs a, UpdateAll gb idxs b).
Proof.
  unfold UpdateAll. revert a b.
  induction idxs as [|i idxs IH]; intros a b; simpl; [reflexivity|].
  apply IH.
Qed.

Lemma AddAt_AddAt (f : list Scal) i a b :
  AddAt (AddAt f i a) i b = <[i := f !!! i + a + b]> f.
Proof.
  unfold AddAt. rewrite list_insert_insert_eq.
  destruct (decide (i < length f)%nat) as [Hlt|Hge].
  - rewrite list_lookup_total_insert_eq by assumption. reflexivity.
  - rewrite !list_insert_ge by lia. reflexivity.
Qed.

Lemma FaceFluxes_updates m uf alpha_f alpha_s T_in h0 Tf Ts st idxface :
  FaceFluxes m uf alpha_f alpha_s T_in h0 Tf Ts st idxface
  = (<[idxface := FluidFluxUpdate m uf alpha_f T_in h0 Tf idxface
                    (st.1 !!! idxface)]> st.1,
     <[idxface := SolidFluxUpdate m alpha_s h0 Ts idxface
                    (st.2 !!! idxface)]> st.2).
Proof.
  destruct st as [ff fs]. unfold FaceFluxes, FluidFluxUpdate, SolidFluxUpdate.
  cbn [fst snd].
  destruct (GetNeighbourCellOfFace m idxface 0) as [cm|];
    destruct (GetNeighbourCellOfFace m idxface 1) as [cp|];
    try reflexivity.
  rewrite AddAt_AddAt. reflexivity.
Qed.

Lemma IntegrateFluxes_updates m dt h0 ff fs Tf Ts st idxcell :
  IntegrateFluxes m dt h0 ff fs Tf Ts st idxcell
  = (<[idxcell :=
         (fun c (_ : Scal) =>
            Tf !!! c - dt / h0 * (ff !!! S c - ff !!! c)) idxcell
           (st.1 !!! idxcell)]> st.1,
     <[idxcell :=
         (fun c (_ : Scal) =>
            Ts !!! c - dt / h0 * (fs !!! S c - fs !!! c)) idxcell
           (st.2 !!! idxcell)]> st.2).
Proof. destruct st as [a b]. reflexivity. Qed.

Lemma IntegrateSource_updates m dt p (T_new : FieldCell Scal) :
  IntegrateSource m dt p T_new =
  match p with
  | Some fc_rhs =>
    UpdateAll (fun c v => v + dt * fc_rhs !!! c) (Cells m) T_new
  | None => T_new
  end.
Proof. destruct p; reflexivity. Qed.

Lemma IntegrateSource_length m dt p (T_new : FieldCell Scal) :
  length (IntegrateSource m dt p T_new) = length T_new.
Proof.
  rewrite IntegrateSource_updates. destruct p; [|reflexivity].
  apply UpdateAll_length.
Qed.

End LoopFacts.

(** ** [CalcStep], loop by loop *)

Section CalcStepFacts.
Context {Scal : Type} `{ScalOps Scal}.
Local Open Scope scal_scope.

Lemma fold_left_ext_eq {A B} (f g : A -> B -> A) (l : list B) (a : A) :
  (forall x y, f x y = g x y) -> fold_left f l a = fold_left g l a.
Proof.
  intros E. revert a. induction l as [|y l IH]; intros a; simpl; [reflexivity|].
  rewrite E. apply IH.
Qed.

Lemma FaceLoop m uf alpha_f alpha_s T_in h0 Tf Ts (ff fs : FieldFace Scal) :
  fold_left (FaceFluxes m uf alpha_f alpha_s T_in h0 Tf Ts) (Faces m) (ff, fs)
  = (UpdateAll (FluidFluxUpdate m uf alpha_f T_in h0 Tf) (Faces m) ff,
     UpdateAll (SolidFluxUpdate m alpha_s h0 Ts) (Faces m) fs).
Proof.
  rewrite <- fold_left_pair. apply fold_left_ext_eq.
  intros st i. apply FaceFluxes_updates.
Qed.

Lemma CellLoop m dt h0 ff fs Tf Ts (Tf_new Ts_new : FieldCell Scal) :
  fold_left (IntegrateFluxes m dt h0 ff fs Tf Ts) (Cells m) (Tf_new, Ts_new)
  = (UpdateAll (fun c _ => Tf !!! c - dt / h0 * (ff !!! S c - ff !!! c))
       (Cells m) Tf_new,
     UpdateAll (fun c _ => Ts !!! c - dt / h0 * (fs !!! S c - fs !!! c))
       (Cells m) Ts_new).
Proof.
  rewrite <- fold_left_pair. apply fold_left_ext_eq.
  intros st i. apply IntegrateFluxes_updates.
Qed.

Lemma CalcStep_fluid (s : HeatStorage Scal) :
  fc_temperature_fluid_ (CalcStep s) =
  {| time_curr :=
       IntegrateSource (mesh s) (time_step_ s) (p_fc_rhs_fluid_ s)
         (UpdateAll
            (fun c _ =>
               time_curr (fc_temperature_fluid_ s) !!! c
               - time_step_ s / GetVolume (mesh s) 0%nat
                 * (FluidFluxes s !!! S c - FluidFluxes s !!! c))
            (Cells (mesh s)) (time_prev (fc_temperature_fluid_ s)));
     time_prev := time_curr (fc_temperature_fluid_ s) |}.
Proof.
  unfold CalcStep. rewrite FaceLoop, CellLoop. reflexivity.
Qed.

Lemma CalcStep_solid (s : HeatStorage Scal) :
  fc_temperature_solid_ (CalcStep s) =
  {| time_curr :=
       IntegrateSource (mesh s) (time_step_ s) (p_fc_rhs_solid_ s)
         (UpdateAll
            (fun c _ =>
               time_curr (fc_temperature_solid_ s) !!! c
               - time_step_ s / GetVolume (mesh s) 0%nat
                 * (SolidFluxes s !!! S c - SolidFluxes s !!! c))
            (Cells (mesh s)) (time_prev (fc_temperature_solid_ s)));
     time_prev := time_curr (fc_temperature_solid_ s) |}.
Proof.
  unfold CalcStep. rewrite FaceLoop, CellLoop. reflexivity.
Qed.

Lemma CalcStep_parameters (s : HeatStorage Scal) :
  time_ (CalcStep s) = time_ s
  /\ time_step_ (CalcStep s) = time_step_ s
  /\ mesh (CalcStep s) = mesh s
  /\ fluid_velocity_ (CalcStep s) = fluid_velocity_ s
  /\ conductivity_fluid_ (CalcStep s) = conductivity_fluid_ s
  /\ conductivity_solid_ (CalcStep s) = conductivity_solid_ s
  /\ temperature_hot_ (CalcStep s) = temperature_hot_ s
  /\ temperature_cold_ (CalcStep s) = temperature_cold_ s
  /\ exchange_fluid_ (CalcStep s) = exchange_fluid_ s
  /\ exchange_solid_ (CalcStep s) = exchange_solid_ s
  /\ p_fc_rhs_fluid_ (CalcStep s) = p_fc_rhs_fluid_ s
  /\ p_fc_rhs_solid_ (CalcStep s) = p_fc_rhs_solid_ s.
Proof.
  unfold CalcStep. rewrite FaceLoop, CellLoop. repeat split; reflexivity.
Qed.

Lemma HeatStorage_eq (s1 s2 : HeatStorage Scal) :
  time_ s1 = time_ s2 -> time_step_ s1 = time_step_ s2 ->
  mesh s1 = mesh s2 ->
  fc_temperature_fluid_ s1 = fc_temperature_fluid_ s2 ->
  fc_temperature_solid_ s1 = fc_temperature_solid_ s2 ->
  fluid_velocity_ s1 = fluid_velocity_ s2 ->
  conductivity_fluid_ s1 = conductivity_fluid_ s2 ->
  conductivity_solid_ s1 = conductivity_solid_ s2 ->
  temperature_hot_ s1 = temperature_hot_ s2 ->
  temperature_cold_ s1 = temperature_cold_ s2 ->
  exchange_fluid_ s1 = exchange_fluid_ s2 ->
  exchange_solid_ s1 = exchange_solid_ s2 ->
  p_fc_rhs_fluid_ s1 = p_fc_rhs_fluid_ s2 ->
  p_fc_rhs_solid_ s1 = p_fc_rhs_solid_ s2 ->
  s1 = s2.
Proof. destruct s1, s2; simpl; intros; subst; reflexivity. Qed.

(** The constructor sizes every layer for the mesh, and a step keeps the
    sizes. *)
Lemma NewHeatStorage_WellFormed m dt uf af als Th Tc ef es pf ps :
  SourceSized m pf -> SourceSized m ps ->
  WellFormed (NewHeatStorage m dt uf af als Th Tc ef es pf ps).
Proof.
  intros Hpf Hps. unfold WellFormed, NewHeatStorage, NewFieldCell; simpl.
  rewrite length_replicate. tauto.
Qed.

Lemma CalcStep_WellFormed (s : HeatStorage Scal) :
  WellFormed s -> WellFormed (CalcStep s).
Proof.
  intros (H1 & H2 & H3 & H4 & H5 & H6). unfold WellFormed.
  destruct (CalcStep_parameters s)
    as (_ & _ & -> & _ & _ & _ & _ & _ & _ & _ & -> & ->).
  rewrite CalcStep_fluid, CalcStep_solid. simpl.
  rewrite !IntegrateSource_length, !UpdateAll_length. tauto.
Qed.

Lemma FinishStep_WellFormed (s : HeatStorage Scal) :
  WellFormed s -> WellFormed (FinishStep s).
Proof. intros Hwf. exact Hwf. Qed.

Lemma Step_WellFormed (s : HeatStorage Scal) :
  WellFormed s -> WellFormed (Step s).
Proof.
  intros Hwf. unfold Step, StartStep.
  apply FinishStep_WellFormed, CalcStep_WellFormed, Hwf.
Qed.

(** The flux stored for a face is what the loop body adds to zero. *)
Lemma FluidFluxes_lookup (s : HeatStorage Scal) (f : IdxFace) :
  (f <= NumCells (mesh s))%nat ->
  FluidFluxes s !!! f =
  FluidFluxUpdate (mesh s) (fluid_velocity_ s) (conductivity_fluid_ s)
    (temperature_hot_ s) (GetVolume (mesh s) 0%nat)
    (time_curr (fc_temperature_fluid_ s)) f (s_of_Z 0).
Proof.
  intros Hf. unfold FluidFluxes, Faces, NewFieldFace.
  rewrite UpdateAll_lookup_seq.
  - rewrite lookup_total_replicate_2 by lia. reflexivity.
  - lia.
  - rewrite length_replicate. lia.
Qed.

Lemma SolidFluxes_lookup (s : HeatStorage Scal) (f : IdxFace) :
  (f <= NumCells (mesh s))%nat ->
  SolidFluxes s !!! f =
  SolidFluxUpdate (mesh s) (conductivity_solid_ s)
    (GetVolume (mesh s) 0%nat)
    (time_curr (fc_temperature_solid_ s)) f (s_of_Z 0).
Proof.
  intros Hf. unfold SolidFluxes, Faces, NewFieldFace.
  rewrite UpdateAll_lookup_seq.
  - rewrite lookup_total_replicate_2 by lia. reflexivity.
  - lia.
  - rewrite length_replicate. lia.
Qed.

End CalcStepFacts.

(** ** The update of [CalcStep] in exact arithmetic *)

Section ExactStep.
Local Open Scope R_scope.

Lemma FluidFluxUpdate_Ref (m : Mesh R) uf alpha_f T_in h0 Tf f :
  FluidFluxUpdate m uf alpha_f T_in h0 Tf f 0 =
  RefFluidFlux m uf alpha_f T_in h0 Tf f.
Proof.
  unfold FluidFluxUpdate, RefFluidFlux.
  destruct (GetNeighbourCellOfFace m f 0) as [cm|];
    destruct (GetNeighbourCellOfFace m f 1) as [cp|];
    scal_R; unfold Rdiv; ring.
Qed.

Lemma SolidFluxUpdate_Ref (m : Mesh R) alpha_s h0 Ts f :
  SolidFluxUpdate m alpha_s h0 Ts f 0 = RefSolidFlux m alpha_s h0 Ts f.
Proof.
  unfold SolidFluxUpdate, RefSolidFlux.
  destruct (GetNeighbourCellOfFace m f 0) as [cm|];
    destruct (GetNeighbourCellOfFace m f 1) as [cp|];
    scal_R; unfold Rdiv; ring.
Qed.

(** The value [CalcStep] leaves in a cell of the current layer. *)
Lemma CalcStep_cell (m : Mesh R) dt h0 (prev buf : FieldCell R)
  (fluxes : FieldFace R) (flux : IdxFace -> R) p (c : IdxCell) :
  (c < NumCells m)%nat -> length buf = NumCells m ->
  fluxes !!! c = flux c -> fluxes !!! S c = flux (S c) ->
  IntegrateSource m dt p
    (UpdateAll
       (fun c _ =>
          (prev !!! c - dt / h0 * (fluxes !!! S c - fluxes !!! c))%scal)
       (Cells m) buf) !!! c
  = RefNewValue m dt h0 prev flux p c.
Proof.
  intros Hc Hlen E0 E1. rewrite IntegrateSource_updates.
  unfold RefNewValue, Cells, GetNeighbourFace.
  destruct p as [src|].
  - rewrite UpdateAll_lookup_seq; [|lia|rewrite UpdateAll_length; lia].
    rewrite UpdateAll_lookup_seq; [|lia|lia].
    cbv beta. rewrite E0, E1. reflexivity.
  - rewrite UpdateAll_lookup_seq; [|lia|lia].
    cbv beta. rewrite E0, E1. reflexivity.
Qed.

Lemma CalcStep_layer (m : Mesh R) dt h0 (prev buf : FieldCell R)
  (fluxes : FieldFace R) (flux : IdxFace -> R) p :
  length buf = NumCells m ->
  (forall f, (f <= NumCells m)%nat -> fluxes !!! f = flux f) ->
  IntegrateSource m dt p
    (UpdateAll
       (fun c _ =>
          (prev !!! c - dt / h0 * (fluxes !!! S c - fluxes !!! c))%scal)
       (Cells m) buf)
  = RefNewValue m dt h0 prev flux p <$> Cells m.
Proof.
  intros Hlen Hflux.
  apply (list_eq_same_length _ _ (NumCells m)).
  - rewrite length_fmap. unfold Cells. apply length_seq.
  - rewrite IntegrateSource_length, UpdateAll_length. exact Hlen.
  - intros i x y Hi Hx Hy.
    apply list_lookup_total_correct in Hx. subst x.
    rewrite list_lookup_fmap in Hy. unfold Cells in Hy at 1.
    rewrite lookup_seq_lt in Hy by exact Hi. simpl in Hy.
    injection Hy as <-.
    apply CalcStep_cell; try assumption; apply Hflux; lia.
Qed.

(** The layers [CalcStep] leaves are those of the reference update, on
    every solver whose layers are sized for its mesh. *)
Lemma CalcStep_layers_Ref (s : HeatStorage R) :
  WellFormed s ->
  fc_temperature_fluid_ (CalcStep s) = fc_temperature_fluid_ (RefCalcStep s)
  /\ fc_temperature_solid_ (CalcStep s)
     = fc_temperature_solid_ (RefCalcStep s).
Proof.
  intros (H1 & H2 & H3 & H4 & _ & _). split.
  - rewrite CalcStep_fluid. unfold RefCalcStep. cbn [fc_temperature_fluid_].
    f_equal. apply CalcStep_layer; [exact H2|].
    intros f Hf. rewrite FluidFluxes_lookup by exact Hf.
    apply FluidFluxUpdate_Ref.
  - rewrite CalcStep_solid. unfold RefCalcStep. cbn [fc_temperature_solid_].
    f_equal. apply CalcStep_layer; [exact H4|].
    intros f Hf. rewrite SolidFluxes_lookup by exact Hf.
    apply SolidFluxUpdate_Ref.
Qed.

(** C3.  [CalcStep] performs the reference update of the spec: the layers
    are swapped; every face gets its fluid and solid flux from the previous
    layer (left boundary, right boundary, interior); every cell of each phase
    gets previous value - (dt/h) * (flux at plus face - flux at minus face),
    plus dt * source when the phase has a source field; nothing else of the
    solver changes. *)
Theorem CalcStep_reference_update (s : HeatStorage R) :
  WellFormed s -> CalcStep s = RefCalcStep s.
Proof.
  intros Hwf.
  destruct (CalcStep_parameters s)
    as (E1 & E2 & E3 & E4 & E5 & E6 & E7 & E8 & E9 & E10 & E11 & E12).
  destruct (CalcStep_layers_Ref s Hwf) as [Ef Es].
  apply HeatStorage_eq; assumption.
Qed.

Lemma CalcStep_reference_update_witness :
  WellFormed (ExampleSolver 2 (1 / 2) (1 / 3) (Some [1; 0; 1]) None)
  /\ CalcStep (ExampleSolver 2 (1 / 2) (1 / 3) (Some [1; 0; 1]) None)
     = RefCalcStep (ExampleSolver 2 (1 / 2) (1 / 3) (Some [1; 0; 1]) None).
Proof.
  assert (WellFormed (ExampleSolver 2 (1 / 2) (1 / 3) (Some [1; 0; 1]) None))
    as Hwf by (repeat split; reflexivity).
  split; [exact Hwf | apply CalcStep_reference_update, Hwf].
Defined.

(** The new fluid value of the leftmost cell, without fluid conductivity and
    fluid source. *)
Lemma CalcStep_leftmost (s : HeatStorage R) :
  WellFormed s ->
  (0 < NumCells (mesh s))%nat ->
  conductivity_fluid_ s = 0 ->
  p_fc_rhs_fluid_ s = None ->
  GetFluidTemperature (CalcStep s) !!! 0%nat =
  GetFluidTemperature s !!! 0%nat
  - time_step_ s / GetVolume (mesh s) 0%nat
    * (fluid_velocity_ s * GetFluidTemperature s !!! 0%nat
       - fluid_velocity_ s * temperature_hot_ s).
Proof.
  intros Hwf HN Haf Hpf. unfold GetFluidTemperature.
  rewrite (proj1 (CalcStep_layers_Ref s Hwf)). unfold RefCalcStep.
  cbn [fc_temperature_fluid_ time_curr].
  rewrite Hpf, Haf. unfold Cells.
  destruct (NumCells (mesh s)) as [|N] eqn:EN; [lia|].
  cbn [seq fmap list_fmap]. 
  change ((?x :: ?l) !!! 0%nat) with x.
  unfold RefNewValue, GetNeighbourFace, RefFluidFlux, GetNeighbourCellOfFace.
  rewrite EN. destruct (decide (1 < S N)%nat); scal_R; unfold Rdiv; ring.
Qed.

(** C6.  One [CalcStep] without fluid conductivity and without fluid source:
    two solvers that agree on the previous fluid value of the leftmost cell,
    the inflow temperature, the velocity (zero or not), the time step and the
    cell size get the same new fluid value in the leftmost cell, whatever the
    other cells hold and however many there are; the value is
    T0 - dt/h * (u * T0 - u * T_in). *)
Theorem leftmost_cell_independent_of_interior (s1 s2 : HeatStorage R) :
  WellFormed s1 -> WellFormed s2 ->
  (0 < NumCells (mesh s1))%nat -> (0 < NumCells (mesh s2))%nat ->
  conductivity_fluid_ s1 = 0 -> conductivity_fluid_ s2 = 0 ->
  p_fc_rhs_fluid_ s1 = None -> p_fc_rhs_fluid_ s2 = None ->
  GetVolume (mesh s1) 0%nat <> 0 ->
  GetFluidTemperature s1 !!! 0%nat = GetFluidTemperature s2 !!! 0%nat ->
  temperature_hot_ s1 = temperature_hot_ s2 ->
  fluid_velocity_ s1 = fluid_velocity_ s2 ->
  time_step_ s1 = time_step_ s2 ->
  GetVolume (mesh s1) 0%nat = GetVolume (mesh s2) 0%nat ->
  GetFluidTemperature (CalcStep s1) !!! 0%nat
    = GetFluidTemperature (CalcStep s2) !!! 0%nat
  /\ GetFluidTemperature (CalcStep s1) !!! 0%nat
     = GetFluidTemperature s1 !!! 0%nat
       - time_step_ s1 / GetVolume (mesh s1) 0%nat
         * (fluid_velocity_ s1 * GetFluidTemperature s1 !!! 0%nat
            - fluid_velocity_ s1 * temperature_hot_ s1).
Proof.
  intros Hwf1 Hwf2 HN1 HN2 Ha1 Ha2 Hp1 Hp2 _ ET ETin Eu Edt Eh.
  rewrite (CalcStep_leftmost s1), (CalcStep_leftmost s2) by assumption.
  rewrite ET, ETin, Eu, Edt, Eh. split; reflexivity.
Qed.

Lemma leftmost_cell_independent_of_interior_witness :
  GetFluidTemperature (CalcStep (ExampleSolver 2 0 (1 / 3) None None)) !!! 0%nat
  = GetFluidTemperature (CalcStep (ExampleSolver2 2 0 5 None None)) !!! 0%nat.
Proof.
  apply (leftmost_cell_independent_of_interior
           (ExampleSolver 2 0 (1 / 3) None None)
           (ExampleSolver2 2 0 5 None None));
    try reflexivity;
    try (repeat split; reflexivity);
    try (simpl; lia);
    simpl; norm_Z; lra.
Defined.

End ExactStep.

(** ** Zero sources, and a solver at rest *)

Section ExactSources.
Local Open Scope R_scope.

Lemma insert_own_value (l : list R) (i : nat) (x : R) :
  x = l !!! i -> <[i := x]> l = l.
Proof.
  intros ->. apply list_insert_id'. intros Hi.
  apply list_lookup_lookup_total_lt, Hi.
Qed.

Lemma UpdateAll_zero_source dt (z : FieldCell R) idxs (T : FieldCell R) :
  (forall c, c ∈ idxs -> z !!! c = 0) ->
  UpdateAll (fun c v => (v + dt * z !!! c)%scal) idxs T = T.
Proof.
  unfold UpdateAll. revert T.
  induction idxs as [|i idxs IH]; intros T Hz; simpl; [reflexivity|].
  rewrite insert_own_value.
  - apply IH. intros c Hc. apply Hz. right. exact Hc.
  - scal_R. rewrite Hz by left. ring.
Qed.

Lemma IntegrateSource_ZeroOrAbsent (m : Mesh R) dt p (T : FieldCell R) :
  ZeroOrAbsent m p -> IntegrateSource m dt p T = T.
Proof.
  intros Hp. rewrite IntegrateSource_updates.
  destruct p as [z|]; [|reflexivity].
  destruct Hp as [_ Hz]. apply UpdateAll_zero_source.
  intros c Hc. apply Hz. unfold Cells in Hc. apply elem_of_seq in Hc. lia.
Qed.

Lemma IntegrateSource_SourceEquiv (m : Mesh R) dt p q (T : FieldCell R) :
  SourceEquiv m p q -> IntegrateSource m dt p T = IntegrateSource m dt q T.
Proof.
  intros [->|[[-> Hq]|[-> Hp]]]; [reflexivity| |].
  - rewrite (IntegrateSource_ZeroOrAbsent m dt q) by exact Hq. reflexivity.
  - rewrite (IntegrateSource_ZeroOrAbsent m dt p) by exact Hp. reflexivity.
Qed.

Lemma fmap_lookup_total_seq (l : list R) :
  (fun c => l !!! c) <$> seq 0 (length l) = l.
Proof.
  apply (list_eq_same_length _ _ (length l)).
  - reflexivity.
  - rewrite length_fmap. apply length_seq.
  - intros i x y Hi Hx Hy. rewrite list_lookup_fmap in Hx.
    rewrite lookup_seq_lt in Hx by exact Hi. simpl in Hx.
    injection Hx as <-. apply list_lookup_total_correct, Hy.
Qed.

(** Without velocity and conductivity every flux is zero. *)
Lemma RefFluidFlux_rest (m : Mesh R) T_in h0 Tf f :
  RefFluidFlux m 0 0 T_in h0 Tf f = 0.
Proof.
  unfold RefFluidFlux.
  destruct (GetNeighbourCellOfFace m f 0), (GetNeighbourCellOfFace m f 1);
    scal_R; unfold Rdiv; ring.
Qed.

Lemma RefSolidFlux_rest (m : Mesh R) h0 Ts f :
  RefSolidFlux m 0 h0 Ts f = 0.
Proof.
  unfold RefSolidFlux.
  destruct (GetNeighbourCellOfFace m f 0), (GetNeighbourCellOfFace m f 1);
    scal_R; unfold Rdiv; ring.
Qed.

Lemma RefNewValue_rest (m : Mesh R) dt h0 prev flux p :
  (forall f, flux f = 0) -> ZeroOrAbsent m p -> length prev = NumCells m ->
  RefNewValue m dt h0 prev flux p <$> Cells m = prev.
Proof.
  intros Hflux Hp Hlen. rewrite <- (fmap_lookup_total_seq prev) at 2.
  unfold Cells. rewrite Hlen. apply list_fmap_ext.
  intros i c Hc. apply lookup_seq in Hc as [-> Hc]. simpl.
  unfold RefNewValue. rewrite !Hflux.
  destruct p as [z|]; scal_R.
  - destruct Hp as [_ Hz]. rewrite Hz by exact Hc. scal_R. ring.
  - ring.
Qed.

(** One step of a solver at rest. *)
Lemma CalcStep_rest (s : HeatStorage R) :
  WellFormed s ->
  fluid_velocity_ s = 0 ->
  conductivity_fluid_ s = 0 -> conductivity_solid_ s = 0 ->
  ZeroOrAbsent (mesh s) (p_fc_rhs_fluid_ s) ->
  ZeroOrAbsent (mesh s) (p_fc_rhs_solid_ s) ->
  GetFluidTemperature (CalcStep s) = GetFluidTemperature s
  /\ GetSolidTemperature (CalcStep s) = GetSolidTemperature s.
Proof.
  intros Hwf Hu Haf Has Hpf Hps.
  unfold GetFluidTemperature, GetSolidTemperature.
  destruct (CalcStep_layers_Ref s Hwf) as [-> ->].
  destruct Hwf as (H1 & H2 & H3 & H4 & _ & _).
  unfold RefCalcStep. simpl.
  rewrite Hu, Haf, Has. split.
  - apply RefNewValue_rest; try assumption. intros f. apply RefFluidFlux_rest.
  - apply RefNewValue_rest; try assumption. intros f. apply RefSolidFlux_rest.
Qed.


Lemma AtRest_CalcStep (s : HeatStorage R) : AtRest s -> AtRest (CalcStep s).
Proof.
  intros (Hwf & Hu & Haf & Has & Hpf & Hps).
  destruct (CalcStep_parameters s)
    as (_ & _ & Em & Eu & Eaf & Eas & _ & _ & _ & _ & Epf & Eps).
  unfold AtRest. rewrite Em, Eu, Eaf, Eas, Epf, Eps.
  split; [apply CalcStep_WellFormed, Hwf | tauto].
Qed.

Lemma AtRest_Step (s : HeatStorage R) : AtRest s -> AtRest (Step s).
Proof. intros Hs. exact (AtRest_CalcStep s Hs). Qed.

Lemma iter_rest (step : HeatStorage R -> HeatStorage R) :
  (forall s, AtRest s -> AtRest (step s)) ->
  (forall s, AtRest s ->
     GetFluidTemperature (step s) = GetFluidTemperature s
     /\ GetSolidTemperature (step s) = GetSolidTemperature s) ->
  forall n s, AtRest s ->
    AtRest (Nat.iter n step s)
    /\ GetFluidTemperature (Nat.iter n step s) = GetFluidTemperature s
    /\ GetSolidTemperature (Nat.iter n step s) = GetSolidTemperature s.
Proof.
  intros Hkeep Hsame n s Hs. induction n as [|n (IH & IHf & IHs)]; simpl.
  - tauto.
  - destruct (Hsame _ IH) as [Ef Es]. rewrite Ef, Es. auto.
Qed.

(** C5.  A solver with zero velocity, zero fluid and solid conductivity and
    zero or absent source fields keeps its fluid and its solid temperature
    field, at every cell, through any number of consecutive steps
    ([CalcStep] alone, or bracketed by [StartStep] and [FinishStep]).  The
    layers are sized for the mesh and the cell size is not zero, as the spec
    requires of every solver. *)
Theorem CalcStep_invariant_at_rest (s : HeatStorage R) (n : nat) :
  WellFormed s ->
  GetVolume (mesh s) 0%nat <> 0 ->
  fluid_velocity_ s = 0 ->
  conductivity_fluid_ s = 0 ->
  conductivity_solid_ s = 0 ->
  ZeroOrAbsent (mesh s) (p_fc_rhs_fluid_ s) ->
  ZeroOrAbsent (mesh s) (p_fc_rhs_solid_ s) ->
  GetFluidTemperature (Nat.iter n CalcStep s) = GetFluidTemperature s
  /\ GetSolidTemperature (Nat.iter n CalcStep s) = GetSolidTemperature s
  /\ GetFluidTemperature (Nat.iter n Step s) = GetFluidTemperature s
  /\ GetSolidTemperature (Nat.iter n Step s) = GetSolidTemperature s.
Proof.
  intros Hwf _ Hu Haf Has Hpf Hps.
  assert (AtRest s) as Hs by (unfold AtRest; tauto).
  assert (forall s, AtRest s ->
            GetFluidTemperature (CalcStep s) = GetFluidTemperature s
            /\ GetSolidTemperature (CalcStep s) = GetSolidTemperature s)
    as Hsame.
  { intros s' (Hwf' & Hu' & Haf' & Has' & Hpf' & Hps').
    apply CalcStep_rest; assumption. }
  destruct (iter_rest CalcStep AtRest_CalcStep Hsame n s Hs) as (_ & E1 & E2).
  destruct (iter_rest Step AtRest_Step Hsame n s Hs) as (_ & E3 & E4).
  tauto.
Qed.

Lemma CalcStep_invariant_at_rest_witness :
  GetFluidTemperature
    (Nat.iter 5 CalcStep (ExampleSolver 0 0 0 None (Some [0; 0; 0])))
  = [1; 2; 4]
  /\ GetSolidTemperature
       (Nat.iter 5 CalcStep (ExampleSolver 0 0 0 None (Some [0; 0; 0])))
     = [5; 3; 1].
Proof.
  assert (WellFormed (ExampleSolver 0 0 0 None (Some [0; 0; 0]))) as Hwf
    by (repeat split; reflexivity).
  assert (GetVolume (mesh (ExampleSolver 0 0 0 None (Some [0; 0; 0]))) 0%nat
          <> 0) as Hh
    by (simpl; norm_Z; lra).
  assert (ZeroOrAbsent (mesh (ExampleSolver 0 0 0 None (Some [0; 0; 0])))
            (Some [0; 0; 0])) as Hz.
  { split; [reflexivity|]. intros [|[|[|c]]] Hc; simpl in *;
      try reflexivity; lia. }
  destruct (CalcStep_invariant_at_rest _ 5 Hwf Hh eq_refl eq_refl eq_refl I Hz)
    as (Ef & Es & _).
  split; [exact Ef | exact Es].
Defined.


(** A step treats a null source and a zero source alike. *)
Lemma SameButSources_CalcStep (s1 s2 : HeatStorage R) :
  SameButSources s1 s2 -> SameButSources (CalcStep s1) (CalcStep s2).
Proof.
  intros (Et & Edt & Em & Ef & Es & Eu & Eaf & Eas & Eth & Hpf & Hps).
  destruct (CalcStep_parameters s1)
    as (At & Adt & Am & Au & Aaf & Aas & Ath & _ & _ & _ & Apf & Aps).
  destruct (CalcStep_parameters s2)
    as (Bt & Bdt & Bm & Bu & Baf & Bas & Bth & _ & _ & _ & Bpf & Bps).
  unfold SameButSources.
  rewrite At, Adt, Am, Au, Aaf, Aas, Ath, Apf, Aps.
  rewrite Bt, Bdt, Bm, Bu, Baf, Bas, Bth, Bpf, Bps.
  rewrite !CalcStep_fluid, !CalcStep_solid.
  unfold FluidFluxes, SolidFluxes.
  rewrite <- Edt, <- Em, <- Ef, <- Es, <- Eu, <- Eaf, <- Eas, <- Eth.
  rewrite (IntegrateSource_SourceEquiv _ _ _ _ _ Hpf).
  rewrite (IntegrateSource_SourceEquiv _ _ _ _ _ Hps).
  tauto.
Qed.

Lemma SameButSources_iter (n : nat) (s1 s2 : HeatStorage R) :
  SameButSources s1 s2 ->
  SameButSources (Nat.iter n CalcStep s1) (Nat.iter n CalcStep s2).
Proof.
  intros Hs. induction n as [|n IH]; simpl; [exact Hs|].
  apply SameButSources_CalcStep, IH.
Qed.

(** C10.  A solver constructed with a null fluid and/or solid source pointer
    and one constructed with a source field that is zero at every cell in
    its place (everything else the same, the other source arbitrary) hold
    the same fluid and solid layers after any number of [CalcStep] calls. *)
Theorem null_source_is_zero_source (m : Mesh R)
  (dt uf alpha_f alpha_s T_hot T_cold exchange_f exchange_s : R)
  (p_fluid p_solid q_fluid q_solid : option (FieldCell R)) (n : nat) :
  SourceEquiv m p_fluid q_fluid ->
  SourceEquiv m p_solid q_solid ->
  fc_temperature_fluid_
    (Nat.iter n CalcStep
       (NewHeatStorage m dt uf alpha_f alpha_s T_hot T_cold
          exchange_f exchange_s p_fluid p_solid))
  = fc_temperature_fluid_
      (Nat.iter n CalcStep
         (NewHeatStorage m dt uf alpha_f alpha_s T_hot T_cold
            exchange_f exchange_s q_fluid q_solid))
  /\ fc_temperature_solid_
       (Nat.iter n CalcStep
          (NewHeatStorage m dt uf alpha_f alpha_s T_hot T_cold
             exchange_f exchange_s p_fluid p_solid))
     = fc_temperature_solid_
         (Nat.iter n CalcStep
            (NewHeatStorage m dt uf alpha_f alpha_s T_hot T_cold
               exchange_f exchange_s q_fluid q_solid)).
Proof.
  intros Hf Hs.
  assert (SameButSources
            (NewHeatStorage m dt uf alpha_f alpha_s T_hot T_cold
               exchange_f exchange_s p_fluid p_solid)
            (NewHeatStorage m dt uf alpha_f alpha_s T_hot T_cold
               exchange_f exchange_s q_fluid q_solid)) as H0.
  { unfold SameButSources, NewHeatStorage; simpl. tauto. }
  destruct (SameButSources_iter n _ _ H0) as (_ & _ & _ & Ef & Es & _).
  split; assumption.
Qed.

Lemma null_source_is_zero_source_witness :
  fc_temperature_fluid_
    (Nat.iter 4 CalcStep
       (NewHeatStorage (InitUniformMesh 0 2 2) (1 / 10) 2 (1 / 2) (1 / 3)
          7 1 0 0 None (Some [3; 4])))
  = fc_temperature_fluid_
      (Nat.iter 4 CalcStep
         (NewHeatStorage (InitUniformMesh 0 2 2) (1 / 10) 2 (1 / 2) (1 / 3)
            7 1 0 0 (Some [0; 0]) (Some [3; 4]))).
Proof.
  refine (proj1 (null_source_is_zero_source (InitUniformMesh 0 2 2)
                   (1 / 10) 2 (1 / 2) (1 / 3) 7 1 0 0
                   None (Some [3; 4]) (Some [0; 0]) (Some [3; 4]) 4 _ _)).
  - right. left. split; [reflexivity|]. split; [reflexivity|].
    intros [|[|c]] Hc; simpl in *; try reflexivity; lia.
  - left. reflexivity.
Defined.

(** The main driver constructs its solver with both pointers null. *)
Lemma NewHydro_null_sources {T : ScalTrig R} CalcDiff (P : Parameters R) dt hy :
  NewHydro CalcDiff P dt = Ok hy ->
  p_fc_rhs_fluid_ (solver_ hy) = None /\ p_fc_rhs_solid_ (solver_ hy) = None.
Proof.
  unfold NewHydro. destruct (flag P "MMS").
  - destruct (SelectMms _ _ _ _) as [[fe fr]|]; [|discriminate].
    intros [= <-]. split; reflexivity.
  - intros [= <-]. split; reflexivity.
Qed.

End ExactSources.

(** ** The interpolation loop *)

Section InterpolationFacts.
Context {Scal : Type} `{ScalOps Scal}.
Local Open Scope scal_scope.

(** The exit condition of the [while] loop. *)
Lemma AdvanceBracket_exit (m : Mesh Scal) (x : Scal) (fuel l r : nat) :
  (NumCells m <= fuel + S r)%nat ->
  let r' := (AdvanceBracket fuel m x l r).2 in
  (GetCenter m r' <? x) = false \/ GetNeighbourCell m r' 1 = None.
Proof.
  revert l r. induction fuel as [|fuel IH]; intros l r Hfuel; simpl.
  - right. destruct (decide (S r < NumCells m)%nat); [lia|reflexivity].
  - destruct (GetCenter m r <? x) eqn:E; [|left; exact E].
    destruct (decide (S r < NumCells m)%nat); [|right; simpl].
    + apply IH. lia.
    + destruct (decide (S r < NumCells m)%nat); [lia|reflexivity].
Qed.

(** More fuel than [NumCells] changes nothing: the loop has stopped. *)
Lemma AdvanceBracket_fuel (m : Mesh Scal) (x : Scal) (fuel fuel' l r : nat) :
  (NumCells m <= fuel + S r)%nat -> (fuel <= fuel')%nat ->
  AdvanceBracket fuel' m x l r = AdvanceBracket fuel m x l r.
Proof.
  revert fuel' l r. induction fuel as [|fuel IH]; intros fuel' l r Hfuel Hle.
  - destruct fuel' as [|fuel']; [reflexivity|]. simpl.
    destruct (GetCenter m r <? x); [|reflexivity].
    destruct (decide (S r < NumCells m)%nat); [lia|reflexivity].
  - destruct fuel' as [|fuel']; [lia|]. simpl.
    destruct (GetCenter m r <? x); [|reflexivity].
    destruct (decide (S r < NumCells m)%nat); [|reflexivity].
    apply IH; lia.
Qed.

(** The fuel [GetInterpolatedField] gives the loop is enough, from any
    bracket: the loop has met its exit condition, and more fuel would not
    take it further. *)
Lemma AdvanceBracket_enough (m : Mesh Scal) (x : Scal) (l r fuel' : nat) :
  let b := AdvanceBracket (NumCells m) m x l r in
  ((GetCenter m b.2 <? x) = false \/ GetNeighbourCell m b.2 1 = None)
  /\ ((NumCells m <= fuel')%nat -> AdvanceBracket fuel' m x l r = b).
Proof.
  split.
  - apply AdvanceBracket_exit. lia.
  - intros Hfuel. apply AdvanceBracket_fuel; lia.
Qed.

Lemma AdvanceBracket_shape (m : Mesh Scal) (x : Scal) (fuel l r : nat) :
  BracketShape m (l, r) -> BracketShape m (AdvanceBracket fuel m x l r).
Proof.
  revert l r. induction fuel as [|fuel IH]; intros l r Hb; simpl; [exact Hb|].
  destruct (GetCenter m r <? x); [|exact Hb].
  destruct (decide (S r < NumCells m)%nat) as [Hlt|]; [|exact Hb].
  apply IH. right. simpl. split; [reflexivity|exact Hlt].
Qed.

(** At the last source cell the loop does nothing. *)
Lemma AdvanceBracket_at_last (m : Mesh Scal) (x : Scal) (fuel l r : nat) :
  (NumCells m <= S r)%nat -> AdvanceBracket fuel m x l r = (l, r).
Proof.
  intros Hr. destruct fuel as [|fuel]; simpl; [reflexivity|].
  destruct (GetCenter m r <? x); [|reflexivity].
  destruct (decide (S r < NumCells m)%nat); [lia|reflexivity].
Qed.

(** When every source centre is below [x], the loop runs to the last cell. *)
Lemma AdvanceBracket_beyond (m : Mesh Scal) (x : Scal) (fuel l r : nat) :
  (forall c, (c < NumCells m)%nat -> (GetCenter m c <? x) = true) ->
  (r < NumCells m)%nat -> (NumCells m <= fuel + S r)%nat ->
  AdvanceBracket fuel m x l r =
  if decide (S r = NumCells m) then (l, r)
  else (NumCells m - 2, NumCells m - 1)%nat.
Proof.
  intros Hx. revert l r. induction fuel as [|fuel IH]; intros l r Hr Hfuel.
  - simpl. destruct (decide (S r = NumCells m)); [reflexivity|lia].
  - simpl. rewrite (Hx r Hr).
    destruct (decide (S r < NumCells m)%nat) as [Hlt|Hge].
    + rewrite IH by lia.
      destruct (decide (S r = NumCells m)); [lia|].
      destruct (decide (S (S r) = NumCells m)) as [E|]; [|reflexivity].
      f_equal; lia.
    + destruct (decide (S r = NumCells m)); [reflexivity|lia].
Qed.

Lemma InterpolateCell_length fc (src dest : Mesh Scal) st j :
  length (InterpolateCell fc src dest st j).2 = length st.2.
Proof.
  destruct st as [[l r] res]. unfold InterpolateCell.
  destruct (AdvanceBracket _ _ _ _ _) as [l' r']. simpl.
  apply length_insert.
Qed.

Lemma InterpolateLoop_length fc (src dest : Mesh Scal) idxs st :
  length (fold_left (InterpolateCell fc src dest) idxs st).2 = length st.2.
Proof.
  revert st. induction idxs as [|i idxs IH]; intros st; simpl; [reflexivity|].
  rewrite IH. apply InterpolateCell_length.
Qed.

Lemma InterpolateLoop_other fc (src dest : Mesh Scal) idxs st (j : nat) :
  j ∉ idxs ->
  (fold_left (InterpolateCell fc src dest) idxs st).2 !!! j = st.2 !!! j.
Proof.
  revert st. induction idxs as [|i idxs IH]; intros st Hj; simpl;
    [reflexivity|].
  apply not_elem_of_cons in Hj as [Hne Hj]. rewrite IH by exact Hj.
  destruct st as [[l r] res]. unfold InterpolateCell.
  destruct (AdvanceBracket _ _ _ _ _) as [l' r']. simpl.
  apply list_lookup_total_insert_ne. congruence.
Qed.

Lemma BracketAfter_S fc (src dest : Mesh Scal) (k : nat) :
  BracketAfter fc src dest (S k) =
  AdvanceBracket (NumCells src) src (GetCenter dest k)
    (BracketAfter fc src dest k).1 (BracketAfter fc src dest k).2.
Proof.
  unfold BracketAfter. rewrite seq_S, fold_left_app. simpl.
  destruct (fold_left _ (seq 0 k) _) as [[l r] res]. simpl.
  destruct (AdvanceBracket _ _ _ _ _) as [l' r']. reflexivity.
Qed.

Lemma BracketAfter_shape fc (src dest : Mesh Scal) (k : nat) :
  BracketShape src (BracketAfter fc src dest k).
Proof.
  induction k as [|k IH].
  - left. split; reflexivity.
  - rewrite BracketAfter_S. apply AdvanceBracket_shape.
    destruct (BracketAfter fc src dest k). exact IH.
Qed.

(** The value of a destination cell: the interpolation on the bracket
    reached from the one the earlier destination cells left. *)
Lemma GetInterpolatedField_lookup fc (src dest : Mesh Scal) (j : nat) :
  (j < NumCells dest)%nat ->
  GetInterpolatedField fc src dest !!! j =
  let b := BracketAfter fc src dest (S j) in
  GetInterpolated (GetCenter dest j)
    (GetCenter src b.1) (GetCenter src b.2) (fc !!! b.1) (fc !!! b.2).
Proof.
  intros Hj. unfold GetInterpolatedField, Cells.
  replace (NumCells dest) with (S j + (NumCells dest - S j))%nat by lia.
  rewrite seq_app, fold_left_app.
  rewrite InterpolateLoop_other by (rewrite elem_of_seq; lia).
  unfold BracketAfter. rewrite seq_S, fold_left_app. simpl.
  pose proof (InterpolateLoop_length fc src dest (seq 0 j)
                (0%nat, 0%nat, NewFieldCell dest (s_of_Z 0))) as Hlen.
  destruct (fold_left _ (seq 0 j) _) as [[l r] res]. simpl in *.
  destruct (AdvanceBracket _ _ _ _ _) as [l' r']. simpl.
  apply list_lookup_total_insert_eq.
  rewrite Hlen. unfold NewFieldCell. rewrite length_replicate. lia.
Qed.

Lemma GetInterpolatedField_length fc (src dest : Mesh Scal) :
  length (GetInterpolatedField fc src dest) = NumCells dest.
Proof.
  unfold GetInterpolatedField. rewrite InterpolateLoop_length. simpl.
  unfold NewFieldCell. apply length_replicate.
Qed.

(** The first destination cell, when it is not past the first source
    centre: both ends of the bracket are the first source cell. *)
Lemma GetInterpolatedField_first fc (src dest : Mesh Scal) :
  (0 < NumCells dest)%nat ->
  (GetCenter src 0%nat <? GetCenter dest 0%nat) = false ->
  GetInterpolatedField fc src dest !!! 0%nat =
  GetInterpolated (GetCenter dest 0%nat)
    (GetCenter src 0%nat) (GetCenter src 0%nat) (fc !!! 0%nat) (fc !!! 0%nat).
Proof.
  intros Hd Hx. rewrite GetInterpolatedField_lookup by exact Hd.
  rewrite BracketAfter_S. unfold BracketAfter. simpl.
  destruct (NumCells src) as [|N]; simpl; [reflexivity|].
  rewrite Hx. reflexivity.
Qed.

(** A destination cell past every source centre: the bracket is the last
    two source cells. *)
Lemma BracketAfter_beyond fc (src dest : Mesh Scal) (j : nat) :
  (2 <= NumCells src)%nat ->
  (forall c, (c < NumCells src)%nat ->
     (GetCenter src c <? GetCenter dest j) = true) ->
  BracketAfter fc src dest (S j) = (NumCells src - 2, NumCells src - 1)%nat.
Proof.
  intros HN Hx. rewrite BracketAfter_S.
  pose proof (BracketAfter_shape fc src dest j) as Hb.
  destruct (BracketAfter fc src dest j) as [l r].
  unfold BracketShape in Hb. simpl in *.
  destruct Hb as [[-> ->]|[-> Hr]].
  - rewrite AdvanceBracket_beyond by (assumption || lia).
    destruct (decide (1 = NumCells src)%nat); [lia|reflexivity].
  - rewrite AdvanceBracket_beyond by (assumption || lia).
    destruct (decide (S (S l) = NumCells src)); [|reflexivity].
    f_equal; lia.
Qed.

(** Once at the last source cell, the bracket stays. *)
Lemma BracketAfter_last fc (src dest : Mesh Scal) (k k' : nat) :
  (BracketAfter fc src dest k).2 = (NumCells src - 1)%nat ->
  (k <= k')%nat ->
  BracketAfter fc src dest k' = BracketAfter fc src dest k.
Proof.
  intros Hr Hk. induction Hk as [|k' Hk IH]; [reflexivity|].
  rewrite BracketAfter_S, IH.
  destruct (BracketAfter fc src dest k) as [l r]. simpl in *.
  apply AdvanceBracket_at_last. lia.
Qed.

End InterpolationFacts.

(** ** Interpolation in exact arithmetic *)

Section ExactInterpolation.
Local Open Scope R_scope.

Lemma ltb_R_true (x y : R) : (x <? y)%scal = true <-> x < y.
Proof. scal_R. destruct (Rlt_dec x y); split; congruence || tauto. Qed.

Lemma ltb_R_false (x y : R) : (x <? y)%scal = false <-> y <= x.
Proof. scal_R. destruct (Rlt_dec x y); split; intros; try lra; congruence. Qed.

Lemma Ascending_le (m : Mesh R) (c c' : nat) :
  Ascending m -> (c <= c')%nat -> (c' < NumCells m)%nat ->
  GetCenter m c <= GetCenter m c'.
Proof.
  intros Hm Hc Hc'. destruct (decide (c = c')) as [->|Hne]; [lra|].
  apply Rlt_le, Hm; lia.
Qed.

(** Below a point that lies beyond the last source centre lies every source
    centre. *)
Lemma Ascending_all_below (src : Mesh R) (x : R) :
  Ascending src ->
  GetCenter src (NumCells src - 1) < x ->
  forall c, (c < NumCells src)%nat -> (GetCenter src c <? x)%scal = true.
Proof.
  intros Hsrc Hx c Hc. apply ltb_R_true.
  assert (GetCenter src c <= GetCenter src (NumCells src - 1))
    by (apply Ascending_le; (assumption || lia)).
  lra.
Qed.

(** C4, as the code has it.  For a destination cell whose centre lies
    beyond the centre of the last source cell (at least two source cells,
    centres ascending): the bracket stops at the last two source cells and
    stays there for the cells that follow, and the value returned is the
    linear extrapolation through the values of these two cells,
    u_last + (x - x_last) * (u_last - u_prev) / (x_last - x_prev). *)
Theorem extrapolation_beyond_last_source_cell (fc : FieldCell R)
  (src dest : Mesh R) (j : nat) :
  (2 <= NumCells src)%nat ->
  (j < NumCells dest)%nat ->
  Ascending src ->
  GetCenter src (NumCells src - 1) < GetCenter dest j ->
  let last := (NumCells src - 1)%nat in
  let prev := (NumCells src - 2)%nat in
  (forall k, (S j <= k)%nat -> BracketAfter fc src dest k = (prev, last))
  /\ GetInterpolatedField fc src dest !!! j =
     GetInterpolated (GetCenter dest j)
       (GetCenter src prev) (GetCenter src last) (fc !!! prev) (fc !!! last)
  /\ GetInterpolatedField fc src dest !!! j =
     fc !!! last
     + (GetCenter dest j - GetCenter src last)
       * ((fc !!! last - fc !!! prev)
          / (GetCenter src last - GetCenter src prev)).
Proof.
  intros HN Hj Hsrc Hx last prev.
  pose proof (Ascending_all_below src (GetCenter dest j) Hsrc Hx) as Hall.
  pose proof (BracketAfter_beyond fc src dest j HN Hall) as Hb.
  fold last prev in Hb.
  assert (GetInterpolatedField fc src dest !!! j =
          GetInterpolated (GetCenter dest j)
            (GetCenter src prev) (GetCenter src last)
            (fc !!! prev) (fc !!! last)) as Hval.
  { rewrite GetInterpolatedField_lookup by exact Hj. cbv zeta.
    rewrite Hb. reflexivity. }
  split; [|split].
  - intros k Hk. rewrite <- Hb. apply BracketAfter_last; [|exact Hk].
    rewrite Hb. reflexivity.
  - exact Hval.
  - rewrite Hval. unfold GetInterpolated. scal_R.
    assert (GetCenter src prev < GetCenter src last)
      by (apply Hsrc; unfold prev, last; lia).
    field. lra.
Qed.

Lemma ExampleSrc_Ascending : Ascending ExampleSrc.
Proof.
  intros c c' Hc Hc'. simpl in Hc'.
  assert (c = 0%nat /\ c' = 1%nat) as [-> ->] by lia.
  simpl. norm_Z. lra.
Qed.

Lemma ExampleSrc_beyond :
  GetCenter ExampleSrc (NumCells ExampleSrc - 1) < GetCenter ExampleDest 2.
Proof. simpl. norm_Z. lra. Qed.

Lemma extrapolation_beyond_last_source_cell_witness :
  GetInterpolatedField [0; 1] ExampleSrc ExampleDest !!! 2%nat =
  GetInterpolated (GetCenter ExampleDest 2)
    (GetCenter ExampleSrc 0) (GetCenter ExampleSrc 1) 0 1.
Proof.
  assert (2 <= NumCells ExampleSrc)%nat as HN by (simpl; lia).
  assert (2 < NumCells ExampleDest)%nat as Hj by (simpl; lia).
  destruct (extrapolation_beyond_last_source_cell [0; 1] ExampleSrc
              ExampleDest 2 HN Hj ExampleSrc_Ascending ExampleSrc_beyond)
    as (_ & Hval & _).
  exact Hval.
Defined.

(** C4, as the claim has it, fails: the third destination centre, 5/2, lies
    beyond the last source centre, 3/2, and the value returned there is 2,
    not the value 1 of the last source cell. *)
Lemma flat_extrapolation_counterexample :
  GetCenter ExampleSrc (NumCells ExampleSrc - 1) < GetCenter ExampleDest 2
  /\ GetInterpolatedField [0; 1] ExampleSrc ExampleDest !!! 2%nat = 2
  /\ GetInterpolatedField [0; 1] ExampleSrc ExampleDest !!! 2%nat
     <> [0; 1] !!! (NumCells ExampleSrc - 1)%nat.
Proof.
  assert (2 <= NumCells ExampleSrc)%nat as HN by (simpl; lia).
  assert (2 < NumCells ExampleDest)%nat as Hj by (simpl; lia).
  assert (GetInterpolatedField [0; 1] ExampleSrc ExampleDest !!! 2%nat = 2)
    as E.
  { rewrite GetInterpolatedField_lookup by exact Hj. cbv zeta.
    rewrite BracketAfter_beyond
      by (exact HN
          || exact (Ascending_all_below _ _ ExampleSrc_Ascending
                      ExampleSrc_beyond)).
    unfold GetInterpolated. simpl. norm_Z. field. }
  split; [exact ExampleSrc_beyond|]. split; [exact E|].
  rewrite E. simpl. lra.
Qed.


(** *** Destination centres that coincide with source centres *)

Lemma BracketReached_mono (src dest : Mesh R) (k K : nat) b :
  (k <= K)%nat -> BracketReached src dest k b -> BracketReached src dest K b.
Proof.
  intros Hk [H0|(Hs & Hr & k' & Hk' & Hx)]; [left; exact H0|].
  right. split; [exact Hs|]. split; [exact Hr|].
  exists k'. split; [lia|exact Hx].
Qed.

Lemma AdvanceBracket_reached (src dest : Mesh R) (k K fuel l r : nat) :
  (k < K)%nat ->
  BracketReached src dest K (l, r) ->
  BracketReached src dest K
    (AdvanceBracket fuel src (GetCenter dest k) l r).
Proof.
  intros Hk. revert l r.
  induction fuel as [|fuel IH]; intros l r Hb; cbn [AdvanceBracket];
    [exact Hb|].
  destruct (GetCenter src r <? GetCenter dest k)%scal eqn:E; [|exact Hb].
  unfold GetNeighbourCell.
  destruct (decide (S r < NumCells src)%nat) as [Hlt|]; [|exact Hb].
  apply IH. right. simpl. split; [reflexivity|]. split; [exact Hlt|].
  exists k. split; [exact Hk|]. apply ltb_R_true, E.
Qed.

Lemma BracketAfter_reached fc (src dest : Mesh R) (k : nat) :
  BracketReached src dest k (BracketAfter fc src dest k).
Proof.
  induction k as [|k IH].
  - left. split; reflexivity.
  - rewrite BracketAfter_S. apply AdvanceBracket_reached; [lia|].
    apply (BracketReached_mono src dest k); [lia|].
    destruct (BracketAfter fc src dest k). exact IH.
Qed.

(** From a bracket not past source cell [i], the loop stops with [i] as the
    right end when the destination centre is the centre of [i]. *)
Lemma AdvanceBracket_to (src : Mesh R) (i fuel l r : nat) :
  Ascending src ->
  (i < NumCells src)%nat -> (r <= i)%nat ->
  (NumCells src <= fuel + S r)%nat ->
  AdvanceBracket fuel src (GetCenter src i) l r =
  if decide (r = i) then (l, r) else (i - 1, i)%nat.
Proof.
  intros Hsrc Hi. revert l r.
  induction fuel as [|fuel IH]; intros l r Hr Hfuel;
    cbn [AdvanceBracket]; unfold GetNeighbourCell.
  - destruct (decide (r = i)); [reflexivity|lia].
  - destruct (decide (r = i)) as [->|Hne].
    + assert ((GetCenter src i <? GetCenter src i)%scal = false) as ->
        by (apply ltb_R_false; lra).
      reflexivity.
    + assert ((GetCenter src r <? GetCenter src i)%scal = true) as ->
        by (apply ltb_R_true, Hsrc; lia).
      destruct (decide (S r < NumCells src)%nat); [|lia].
      rewrite IH by lia.
      destruct (decide (S r = i)) as [<-|]; [|reflexivity].
      f_equal. lia.
Qed.

(** A destination centre that is the centre of a source cell other than the
    first gets the value of that source cell. *)
Lemma GetInterpolatedField_at_source_center (fc : FieldCell R)
  (src dest : Mesh R) (i j : nat) :
  Ascending src ->
  (forall k, (k < j)%nat -> GetCenter dest k <= GetCenter dest j) ->
  (j < NumCells dest)%nat ->
  (1 <= i)%nat -> (i < NumCells src)%nat ->
  GetCenter dest j = GetCenter src i ->
  GetInterpolatedField fc src dest !!! j = fc !!! i.
Proof.
  intros Hsrc Hdest Hj Hi1 Hi Hx.
  rewrite GetInterpolatedField_lookup by exact Hj. cbv zeta.
  assert (BracketAfter fc src dest (S j) = (i - 1, i)%nat) as ->.
  { rewrite BracketAfter_S, Hx.
    pose proof (BracketAfter_reached fc src dest j) as Hb.
    destruct (BracketAfter fc src dest j) as [l r].
    unfold BracketReached in Hb. simpl in *.
    assert (r <= i)%nat as Hr.
    { destruct Hb as [[_ ->]|(-> & HSl & k' & Hk' & Hlt)]; [lia|].
      destruct (decide (S l <= i)%nat) as [|Hgt]; [assumption|].
      pose proof (Hdest k' Hk') as Hle. rewrite Hx in Hle.
      assert (GetCenter src i <= GetCenter src l)
        by (apply Ascending_le; (assumption || lia)).
      lra. }
    rewrite AdvanceBracket_to by (assumption || lia).
    destruct (decide (r = i)) as [->|]; [|reflexivity].
    destruct Hb as [[_ ->]|(-> & _)]; [lia|]. f_equal. lia. }
  simpl. rewrite Hx. unfold GetInterpolated. scal_R.
  assert (GetCenter src (i - 1) < GetCenter src i) by (apply Hsrc; lia).
  field. lra.
Qed.

(** Onto the same mesh, every cell but the first gets its own value back;
    the first cell gets a quotient by zero. *)
Lemma GetInterpolatedField_same_mesh (fc : FieldCell R) (m : Mesh R) :
  Ascending m ->
  (forall j, (1 <= j)%nat -> (j < NumCells m)%nat ->
     GetInterpolatedField fc m m !!! j = fc !!! j)
  /\ ((0 < NumCells m)%nat ->
      GetInterpolatedField fc m m !!! 0%nat =
      ((GetCenter m 0 - GetCenter m 0) * fc !!! 0%nat
       + (GetCenter m 0 - GetCenter m 0) * fc !!! 0%nat)
      / (GetCenter m 0 - GetCenter m 0)).
Proof.
  intros Hm. split.
  - intros j Hj1 Hj.
    apply GetInterpolatedField_at_source_center; try assumption;
      [|reflexivity].
    intros k Hk. apply Ascending_le; (assumption || lia).
  - intros HN. rewrite GetInterpolatedField_first; [reflexivity|exact HN|].
    apply ltb_R_false. lra.
Qed.

End ExactInterpolation.

(** ** The program on binary64 inputs *)

Section FloatRuns.

(** C2, at the input where the code leaves the claim.  Two cells on
    [[0, 1]], centres 1/4 and 3/4, values 1 and 2, interpolated onto the
    same mesh: the first cell gets 0/0, a NaN, instead of 1. *)
Theorem same_mesh_first_cell_nan :
  GetCenter FloatMesh <$> Cells FloatMesh = [0.25%float; 0.75%float]
  /\ GetInterpolatedField [1%float; 2%float] FloatMesh FloatMesh
     = [nan; 2%float].
Proof. split; vm_compute; reflexivity. Qed.

(** From a coarse mesh onto a finer one, as the tester means to use it. *)
Example coarse_to_fine :
  GetInterpolatedField [1%float; 2%float] FloatMesh FloatFine
  = [nan; 1.25%float; 1.75%float; 2.25%float].
Proof. vm_compute. reflexivity. Qed.

(** Past the last source centre the values keep the slope of the last two
    source cells. *)
Example beyond_last_source_cell :
  GetCenter FloatDest <$> Cells FloatDest
    = [0.5%float; 1.5%float; 2.5%float]
  /\ GetInterpolatedField [0%float; 1%float] FloatSrc FloatDest
     = [nan; 1%float; 2%float].
Proof. split; vm_compute; reflexivity. Qed.

(** One step of the solver: three cells of size 1 at temperature 1, inflow
    at temperature 2 with velocity 1, time step 1/2, no conductivity. *)
Example CalcStep_inflow :
  GetFluidTemperature
    (CalcStep
       (NewHeatStorage FloatDest 0.5%float 1%float 0%float 0%float
          2%float 1%float 0%float 0%float None None))
  = [1.5%float; 1%float; 1%float].
Proof. vm_compute. reflexivity. Qed.

End FloatRuns.

(** ** The tester *)

Section TesterFacts.
Context {Scal : Type} `{ScalOps Scal}.
Variable CalcDiff : FieldCell Scal -> FieldCell Scal -> Mesh Scal -> Scal.

Lemma alter_back {A} (f : A -> A) (l : list A) (x : A) :
  alter f (length l) (l ++ [x]) = l ++ [f x].
Proof.
  replace (length l) with (length l + 0)%nat at 1 by lia.
  rewrite alter_app_r. reflexivity.
Qed.

Lemma lookup_total_back {A} `{Inhabited A} (l : list A) (x : A) :
  (l ++ [x]) !!! length l = x.
Proof. apply list_lookup_total_middle. reflexivity. Qed.

Lemma back_snoc (l : list (Entry Scal)) (e : Entry Scal) :
  back (l ++ [e]) = e.
Proof.
  unfold back. rewrite length_app. simpl.
  replace (pred (length l + 1)) with (length l) by lia.
  apply lookup_total_back.
Qed.

Lemma match_snoc {A B} (l : list A) (x : A) (a b : B) :
  match l ++ [x] with [] => a | _ :: _ => b end = b.
Proof. destruct l; reflexivity. Qed.

(** A stage appends one entry and leaves the earlier ones alone; the new
    entry does not depend on them. *)
Lemma TesterStage_series domain_length num_steps time_step step_threshold
  fluid_velocity conductivity Tleft func_rhs func_exact
  (t : TesterMms Scal) (num_cells : N) :
  series_ (TesterStage CalcDiff domain_length num_steps time_step
             step_threshold fluid_velocity conductivity Tleft
             func_rhs func_exact t num_cells)
  = series_ t ++
    [StageEntry CalcDiff domain_length num_steps time_step step_threshold
       fluid_velocity conductivity Tleft func_rhs func_exact num_cells].
Proof.
  unfold TesterStage, StageEntry.
  destruct (StepLoop _ _ _ _ _ _ _) as [slv actual_num_steps].
  cbn [series_ fst].
  repeat first [ rewrite alter_back | rewrite match_snoc
               | rewrite lookup_total_back | rewrite back_snoc ].
  reflexivity.
Qed.

Lemma TesterStages_series domain_length num_steps time_step step_threshold
  fluid_velocity conductivity Tleft func_rhs func_exact
  (cells : list N) (t : TesterMms Scal) :
  series_
    (fold_left
       (TesterStage CalcDiff domain_length num_steps time_step
          step_threshold fluid_velocity conductivity Tleft
          func_rhs func_exact) cells t)
  = series_ t ++
    (StageEntry CalcDiff domain_length num_steps time_step step_threshold
       fluid_velocity conductivity Tleft func_rhs func_exact <$> cells).
Proof.
  revert t. induction cells as [|nc cells IH]; intros t; simpl.
  - rewrite app_nil_r. reflexivity.
  - rewrite IH, TesterStage_series, <- app_assoc. reflexivity.
Qed.

Lemma StageEntry_SelfCompared domain_length num_steps time_step
  step_threshold fluid_velocity conductivity Tleft func_rhs func_exact nc :
  SelfCompared CalcDiff
    (StageEntry CalcDiff domain_length num_steps time_step step_threshold
       fluid_velocity conductivity Tleft func_rhs func_exact nc).
Proof. reflexivity. Qed.

(** C1, as the code has it.  Whatever the parameters, the series holds one
    entry per stage, each made from the parameters and the cell count of its
    stage alone; every entry, the first one and the later ones alike,
    records as [diff_prev] the difference between its own fluid field and
    the interpolation of that same field from its own mesh onto its own
    mesh.  [series_.back()] is the entry of the running stage, and [series_]
    is never empty when it is tested: the field of the previous stage does
    not enter, and the first [diff_prev] is not the constant zero. *)
Theorem diff_prev_compares_entry_with_itself
  (num_cells_initial : N) (num_stages : nat) (factor : N)
  (domain_length : Scal) (num_steps : nat)
  (time_step step_threshold fluid_velocity conductivity Tleft : Scal)
  (func_rhs_fluid func_exact_fluid_temperature : FuncTX Scal) :
  GetSeries
    (NewTesterMms CalcDiff num_cells_initial num_stages factor
       domain_length num_steps time_step step_threshold
       fluid_velocity conductivity Tleft
       func_rhs_fluid func_exact_fluid_temperature)
  = (StageEntry CalcDiff domain_length num_steps time_step step_threshold
       fluid_velocity conductivity Tleft
       func_rhs_fluid func_exact_fluid_temperature
     <$> StageCells num_stages num_cells_initial factor)
  /\ Forall (SelfCompared CalcDiff)
       (GetSeries
          (NewTesterMms CalcDiff num_cells_initial num_stages factor
             domain_length num_steps time_step step_threshold
             fluid_velocity conductivity Tleft
             func_rhs_fluid func_exact_fluid_temperature)).
Proof.
  assert (GetSeries
            (NewTesterMms CalcDiff num_cells_initial num_stages factor
               domain_length num_steps time_step step_threshold
               fluid_velocity conductivity Tleft
               func_rhs_fluid func_exact_fluid_temperature)
          = (StageEntry CalcDiff domain_length num_steps time_step
               step_threshold fluid_velocity conductivity Tleft
               func_rhs_fluid func_exact_fluid_temperature
             <$> StageCells num_stages num_cells_initial factor)) as E.
  { unfold NewTesterMms, GetSeries.
    match goal with
    | |- context [fold_left ?f ?l ?t0] =>
      pose proof (TesterStages_series domain_length num_steps time_step
                    step_threshold fluid_velocity conductivity Tleft
                    func_rhs_fluid func_exact_fluid_temperature l t0) as Hs
    end.
    cbn [series_ app] in Hs.
    destruct (series_ (fold_left _ _ _)) eqn:E0; cbn [series_];
      rewrite ?E0; exact Hs. }
  split; [exact E|]. rewrite E.
  apply Forall_fmap, Forall_forall. intros nc _.
  apply StageEntry_SelfCompared.
Qed.

End TesterFacts.

(** ** The manufactured solutions *)

Section ManufacturedSolutions.
Local Open Scope R_scope.

Lemma derivable_pt_lim_eq (f : R -> R) (x l l' : R) :
  derivable_pt_lim f x l -> l = l' -> derivable_pt_lim f x l'.
Proof. intros Hf <-. exact Hf. Qed.

Lemma derivable_pt_lim_scale (k x : R) :
  derivable_pt_lim (fun y => y * k) x k.
Proof.
  apply (derivable_pt_lim_ext (id * fct_cte k)%F); [reflexivity|].
  eapply derivable_pt_lim_eq.
  - apply derivable_pt_lim_mult;
      [apply derivable_pt_lim_id | apply derivable_pt_lim_const].
  - unfold id, fct_cte. ring.
Qed.

Lemma derivable_pt_lim_square_scale (k x : R) :
  derivable_pt_lim (fun y => y * y * k) x (2 * x * k).
Proof.
  apply (derivable_pt_lim_ext ((id * id) * fct_cte k)%F); [reflexivity|].
  eapply derivable_pt_lim_eq.
  - apply derivable_pt_lim_mult; [|apply derivable_pt_lim_const].
    apply derivable_pt_lim_mult; apply derivable_pt_lim_id.
  - unfold mult_fct, id, fct_cte. ring.
Qed.

Lemma derivable_pt_lim_cos_of (g : R -> R) (x l : R) :
  derivable_pt_lim g x l ->
  derivable_pt_lim (fun y => cos (g y)) x (- sin (g x) * l).
Proof.
  intros Hg. apply (derivable_pt_lim_comp g cos x l (- sin (g x)) Hg).
  apply derivable_pt_lim_cos.
Qed.

Lemma derivable_pt_lim_sin_of (g : R -> R) (x l : R) :
  derivable_pt_lim g x l ->
  derivable_pt_lim (fun y => sin (g y)) x (cos (g x) * l).
Proof.
  intros Hg. apply (derivable_pt_lim_comp g sin x l (cos (g x)) Hg).
  apply derivable_pt_lim_sin.
Qed.

Lemma cos_kx_ManufacturedPair (uf alpha wavenumber : R) :
  ManufacturedPair uf alpha
    (func_exact_cos_kx wavenumber) (func_rhs_cos_kx uf alpha wavenumber).
Proof.
  exists (fun _ x => - sin (x * wavenumber) * wavenumber),
         (fun _ x => - (cos (x * wavenumber) * wavenumber) * wavenumber).
  split; [|split]; intros t x.
  - unfold func_exact_cos_kx. scal_R.
    apply (derivable_pt_lim_cos_of (fun y => y * wavenumber)),
      derivable_pt_lim_scale.
  - apply (derivable_pt_lim_ext
             ((- (fun y => sin (y * wavenumber))) * fct_cte wavenumber)%F);
      [reflexivity|].
    eapply derivable_pt_lim_eq.
    + apply derivable_pt_lim_mult; [|apply derivable_pt_lim_const].
      apply derivable_pt_lim_opp.
      apply (derivable_pt_lim_sin_of (fun y => y * wavenumber)),
        derivable_pt_lim_scale.
    + unfold opp_fct, fct_cte. ring.
  - unfold func_rhs_cos_kx, sqr. scal_R. ring.
Qed.

Lemma cos_kx2_ManufacturedPair (uf alpha wavenumber : R) :
  ManufacturedPair uf alpha
    (func_exact_cos_kx2 wavenumber) (func_rhs_cos_kx2 uf alpha wavenumber).
Proof.
  exists (fun _ x => - sin (x * x * wavenumber) * (2 * x * wavenumber)),
         (fun _ x =>
            - (cos (x * x * wavenumber) * (2 * x * wavenumber))
              * (2 * x * wavenumber)
            + - sin (x * x * wavenumber) * (2 * wavenumber)).
  split; [|split]; intros t x.
  - unfold func_exact_cos_kx2, sqr. scal_R.
    apply (derivable_pt_lim_cos_of (fun y => y * y * wavenumber)),
      derivable_pt_lim_square_scale.
  - apply (derivable_pt_lim_ext
             ((- (fun y => sin (y * y * wavenumber)))
              * (fun y => (y * (2 * wavenumber))%R))%F).
    { intros z. unfold mult_fct, opp_fct. ring. }
    eapply derivable_pt_lim_eq.
    + apply derivable_pt_lim_mult; [|apply derivable_pt_lim_scale].
      apply derivable_pt_lim_opp.
      apply (derivable_pt_lim_sin_of (fun y => y * y * wavenumber)),
        derivable_pt_lim_square_scale.
    + unfold opp_fct. ring.
  - unfold func_rhs_cos_kx2, sqr. scal_R. ring.
Qed.

Lemma Recognized_dec (mmsfunc : string) :
  Recognized mmsfunc \/ ~ Recognized mmsfunc.
Proof.
  unfold Recognized.
  destruct (String.eqb_spec mmsfunc "cos(kx)");
    destruct (String.eqb_spec mmsfunc "cos(kx^2)"); tauto.
Qed.

Lemma SelectMms_throws (mmsfunc : string) (uf alpha wavenumber : R) :
  (exists what, SelectMms mmsfunc uf alpha wavenumber = Throw what)
  <-> ~ Recognized mmsfunc.
Proof.
  unfold SelectMms, Recognized.
  destruct (String.eqb_spec mmsfunc "cos(kx)") as [E1|E1];
    [|destruct (String.eqb_spec mmsfunc "cos(kx^2)") as [E2|E2]].
  - split; [intros [what Hw]; discriminate Hw | tauto].
  - split; [intros [what Hw]; discriminate Hw | tauto].
  - split; [tauto | intros _; eexists; reflexivity].
Qed.

Lemma SelectMms_pair (mmsfunc : string) (uf alpha wavenumber : R) :
  Recognized mmsfunc ->
  exists func_exact func_rhs,
    SelectMms mmsfunc uf alpha wavenumber = Ok (func_exact, func_rhs)
    /\ SelectedAs mmsfunc uf alpha wavenumber func_exact func_rhs
    /\ ManufacturedPair uf alpha func_exact func_rhs.
Proof.
  unfold SelectMms. intros [->| ->]; simpl.
  - eexists _, _. split; [reflexivity|].
    split; [|apply cos_kx_ManufacturedPair].
    split; [|intros E; discriminate E]. intros _ t x.
    unfold func_exact_cos_kx, func_rhs_cos_kx, sqr. scal_R.
    rewrite (Rmult_comm x wavenumber). split; [reflexivity|ring].
  - eexists _, _. split; [reflexivity|].
    split; [|apply cos_kx2_ManufacturedPair].
    split; [intros E; discriminate E|]. intros _ t x.
    unfold func_exact_cos_kx2, func_rhs_cos_kx2, sqr. scal_R.
    replace (x * x * wavenumber) with (wavenumber * x ^ 2) by ring.
    split; [reflexivity|ring].
Qed.

(** C9.  With the flag [MMS] set, the constructor throws if and only if the
    selector [MMS_exact_solution] is neither "cos(kx)" nor "cos(kx^2)"; it
    throws from the selection, so that no tester exists then.  For a
    recognised name the selection succeeds: "cos(kx)" selects the exact
    solution cos(k x) and "cos(kx^2)" selects cos(k x^2), each with the
    right-hand side derived from it, rhs = u T' - alpha T'' for the exact
    solution [T]; and the tester is built from the selected pair. *)
Theorem MMS_selection_by_name
  (CalcDiff : FieldCell R -> FieldCell R -> Mesh R -> R)
  (P : Parameters R) (dt : R) :
  flag P "MMS" = true ->
  let mmsfunc := P_string P "MMS_exact_solution" in
  let uf := P_double P "MMS_fluid_velocity" in
  let alpha := P_double P "MMS_alpha" in
  let wavenumber := P_double P "MMS_wavenumber" in
  ((exists what, NewHydro CalcDiff P dt = Throw what)
   <-> ~ Recognized mmsfunc)
  /\ (~ Recognized mmsfunc ->
      NewHydro CalcDiff P dt
      = Throw ("Unknown MMS_exact_solution: " ++ mmsfunc))
  /\ (Recognized mmsfunc ->
      exists func_exact func_rhs hy,
        SelectMms mmsfunc uf alpha wavenumber = Ok (func_exact, func_rhs)
        /\ SelectedAs mmsfunc uf alpha wavenumber func_exact func_rhs
        /\ ManufacturedPair uf alpha func_exact func_rhs
        /\ NewHydro CalcDiff P dt = Ok hy
        /\ tester hy =
           Some (NewTesterMms CalcDiff
                   (size_t_of_int (P_int P "MMS_mesh_initial"))
                   (N.to_nat (size_t_of_int (P_int P "MMS_num_stages")))
                   (size_t_of_int (P_int P "MMS_factor"))
                   (P_double P "MMS_domain_length")
                   (N.to_nat (size_t_of_int (P_int P "MMS_num_steps")))
                   (P_double P "MMS_time_step")
                   (P_double P "MMS_step_threshold")
                   (P_double P "MMS_fluid_velocity")
                   (P_double P "MMS_alpha")
                   (P_double P "MMS_T_left")
                   func_rhs func_exact)).
Proof.
  intros Hflag mmsfunc uf alpha wavenumber.
  assert (~ Recognized mmsfunc ->
          NewHydro CalcDiff P dt
          = Throw ("Unknown MMS_exact_solution: " ++ mmsfunc)) as Hthrow.
  { intros Hn. unfold NewHydro. rewrite Hflag. fold mmsfunc uf alpha wavenumber.
    unfold SelectMms, Recognized in *.
    destruct (String.eqb_spec mmsfunc "cos(kx)"); [tauto|].
    destruct (String.eqb_spec mmsfunc "cos(kx^2)"); [tauto|].
    reflexivity. }
  assert (Recognized mmsfunc ->
          exists func_exact func_rhs hy,
            SelectMms mmsfunc uf alpha wavenumber = Ok (func_exact, func_rhs)
            /\ SelectedAs mmsfunc uf alpha wavenumber func_exact func_rhs
            /\ ManufacturedPair uf alpha func_exact func_rhs
            /\ NewHydro CalcDiff P dt = Ok hy
            /\ tester hy =
               Some (NewTesterMms CalcDiff
                       (size_t_of_int (P_int P "MMS_mesh_initial"))
                       (N.to_nat (size_t_of_int (P_int P "MMS_num_stages")))
                       (size_t_of_int (P_int P "MMS_factor"))
                       (P_double P "MMS_domain_length")
                       (N.to_nat (size_t_of_int (P_int P "MMS_num_steps")))
                       (P_double P "MMS_time_step")
                       (P_double P "MMS_step_threshold")
                       (P_double P "MMS_fluid_velocity")
                       (P_double P "MMS_alpha")
                       (P_double P "MMS_T_left")
                       func_rhs func_exact)) as Hok.
  { intros Hr.
    destruct (SelectMms_pair mmsfunc uf alpha wavenumber Hr)
      as (func_exact & func_rhs & Hsel & Has & Hpair).
    exists func_exact, func_rhs. unfold NewHydro. rewrite Hflag.
    fold mmsfunc uf alpha wavenumber. rewrite Hsel.
    eexists. split; [reflexivity|]. split; [exact Has|].
    split; [exact Hpair|]. split; reflexivity. }
  split; [|split; assumption].
  split.
  - intros [what Hw] Hr.
    destruct (Hok Hr) as (fe & fr & hy & _ & _ & _ & Hhy & _).
    rewrite Hhy in Hw. discriminate Hw.
  - intros Hn. eexists. apply Hthrow, Hn.
Qed.

Lemma MMS_selection_by_name_witness :
  NewHydro (fun _ _ _ => 0) (ExampleParameters "sin(kx)") (1 / 10)
  = Throw "Unknown MMS_exact_solution: sin(kx)".
Proof.
  refine (proj1 (proj2 (MMS_selection_by_name (fun _ _ _ => 0)
                          (ExampleParameters "sin(kx)") (1 / 10) eq_refl)) _).
  intros [E|E]; discriminate E.
Defined.

End ManufacturedSolutions.

(** * Further properties of the code *)

(** ** The solver, for every scalar type *)

Section StepFacts.
Context {Scal : Type} `{ScalOps Scal}.
Local Open Scope scal_scope.

(** The value [CalcStep] computes for a cell of a layer, from the fluxes it
    stored for the two faces of the cell. *)
Lemma IntegrateSource_cell (m : Mesh Scal) dt h0 (prev buf : FieldCell Scal)
  (fluxes : FieldFace Scal) p (c : nat) :
  (c < NumCells m)%nat -> length buf = NumCells m ->
  IntegrateSource m dt p
    (UpdateAll
       (fun c _ => prev !!! c - dt / h0 * (fluxes !!! S c - fluxes !!! c))
       (Cells m) buf) !!! c
  = match p with
    | Some fc_rhs =>
      prev !!! c - dt / h0 * (fluxes !!! S c - fluxes !!! c)
      + dt * fc_rhs !!! c
    | None => prev !!! c - dt / h0 * (fluxes !!! S c - fluxes !!! c)
    end.
Proof.
  intros Hc Hlen. rewrite IntegrateSource_updates. unfold Cells.
  destruct p as [src|].
  - rewrite UpdateAll_lookup_seq; [|lia|rewrite UpdateAll_length; lia].
    rewrite UpdateAll_lookup_seq; [|lia|lia]. reflexivity.
  - rewrite UpdateAll_lookup_seq; [|lia|lia]. reflexivity.
Qed.

Lemma CalcStep_fluid_cell (s : HeatStorage Scal) (c : nat) :
  WellFormed s -> (c < NumCells (mesh s))%nat ->
  GetFluidTemperature (CalcStep s) !!! c =
  let flux :=
    fun f => FluidFluxUpdate (mesh s) (fluid_velocity_ s)
               (conductivity_fluid_ s) (temperature_hot_ s)
               (GetVolume (mesh s) 0%nat)
               (GetFluidTemperature s) f (s_of_Z 0) in
  let value :=
    GetFluidTemperature s !!! c
    - time_step_ s / GetVolume (mesh s) 0%nat * (flux (S c) - flux c) in
  match p_fc_rhs_fluid_ s with
  | Some fc_rhs => value + time_step_ s * fc_rhs !!! c
  | None => value
  end.
Proof.
  intros (H1 & H2 & _) Hc. unfold GetFluidTemperature.
  rewrite CalcStep_fluid. cbn [time_curr]. cbv zeta.
  rewrite IntegrateSource_cell by assumption.
  rewrite !FluidFluxes_lookup by lia. reflexivity.
Qed.

Lemma CalcStep_solid_cell (s : HeatStorage Scal) (c : nat) :
  WellFormed s -> (c < NumCells (mesh s))%nat ->
  GetSolidTemperature (CalcStep s) !!! c =
  let flux :=
    fun f => SolidFluxUpdate (mesh s) (conductivity_solid_ s)
               (GetVolume (mesh s) 0%nat)
               (GetSolidTemperature s) f (s_of_Z 0) in
  let value :=
    GetSolidTemperature s !!! c
    - time_step_ s / GetVolume (mesh s) 0%nat * (flux (S c) - flux c) in
  match p_fc_rhs_solid_ s with
  | Some fc_rhs => value + time_step_ s * fc_rhs !!! c
  | None => value
  end.
Proof.
  intros (_ & _ & H3 & H4 & _) Hc. unfold GetSolidTemperature.
  rewrite CalcStep_solid. cbn [time_curr]. cbv zeta.
  rewrite IntegrateSource_cell by assumption.
  rewrite !SolidFluxes_lookup by lia. reflexivity.
Qed.

Lemma Step_mesh (s : HeatStorage Scal) : mesh (Step s) = mesh s.
Proof.
  unfold Step, StartStep, FinishStep. cbn [mesh].
  destruct (CalcStep_parameters s) as (_ & _ & Hm & _). exact Hm.
Qed.

Lemma iter_Step_WellFormed (n : nat) (s : HeatStorage Scal) :
  WellFormed s -> WellFormed (Nat.iter n Step s).
Proof.
  intros Hs. induction n as [|n IH]; simpl; [exact Hs|].
  apply Step_WellFormed, IH.
Qed.

(** *** Every access of [CalcStep] is within bounds *)

Lemma ReadAt_in (f : list Scal) (i : nat) :
  (i < length f)%nat -> ReadAt f i = Some (f !!! i).
Proof.
  intros Hi. unfold ReadAt. apply list_lookup_lookup_total_lt. exact Hi.
Qed.

Lemma WriteAt_in (f : list Scal) (i : nat) (v : Scal) :
  (i < length f)%nat -> WriteAt f i v = Some (<[i := v]> f).
Proof.
  intros Hi. unfold WriteAt. destruct (decide (i < length f)%nat);
    [reflexivity|contradiction].
Qed.

Lemma AddAtChecked_in (f : list Scal) (i : nat) (v : Scal) :
  (i < length f)%nat -> AddAtChecked f i v = Some (AddAt f i v).
Proof.
  intros Hi. unfold AddAtChecked, AddAt.
  rewrite ReadAt_in by exact Hi. cbn [mbind option_bind].
  apply WriteAt_in, Hi.
Qed.

Lemma AddAt_length (f : list Scal) (i : nat) (v : Scal) :
  length (AddAt f i v) = length f.
Proof. unfold AddAt. apply length_insert. Qed.

(** A loop whose body succeeds wherever an invariant holds, and keeps the
    invariant, succeeds and computes what the unchecked loop computes. *)
Lemma CheckedLoop_Some {A B : Type} (Inv : A -> Prop)
  (body : A -> B -> option A) (f : A -> B -> A) (l : list B) (a : A) :
  Inv a ->
  (forall a x, x ∈ l -> Inv a -> body a x = Some (f a x) /\ Inv (f a x)) ->
  CheckedLoop body l a = Some (fold_left f l a) /\ Inv (fold_left f l a).
Proof.
  unfold CheckedLoop. revert a.
  induction l as [|x l IH]; intros a Ha Hbody; [split; [reflexivity|exact Ha]|].
  cbn [fold_left mbind option_bind].
  destruct (Hbody a x) as [E Ha']; [left|exact Ha|].
  rewrite E. apply IH; [exact Ha'|].
  intros a0 y Hy. apply Hbody. right. exact Hy.
Qed.

Lemma FaceFluxesChecked_in (m : Mesh Scal) uf alpha_f alpha_s T_in h0
  (Tf Ts : FieldCell Scal) (st : FieldFace Scal * FieldFace Scal)
  (idxface : nat) :
  length Tf = NumCells m -> length Ts = NumCells m ->
  length st.1 = S (NumCells m) -> length st.2 = S (NumCells m) ->
  (idxface <= NumCells m)%nat ->
  FaceFluxesChecked m uf alpha_f alpha_s T_in h0 Tf Ts st idxface
  = Some (FaceFluxes m uf alpha_f alpha_s T_in h0 Tf Ts st idxface)
  /\ length (FaceFluxes m uf alpha_f alpha_s T_in h0 Tf Ts st idxface).1
     = S (NumCells m)
  /\ length (FaceFluxes m uf alpha_f alpha_s T_in h0 Tf Ts st idxface).2
     = S (NumCells m).
Proof.
  destruct st as [ff fs]. cbn [fst snd]. intros HTf HTs Hff Hfs Hf.
  unfold FaceFluxesChecked, FaceFluxes, GetNeighbourCellOfFace.
  destruct idxface as [|cm].
  - rewrite !AddAtChecked_in by lia. cbn [mbind option_bind fst snd].
    rewrite !AddAt_length. auto.
  - destruct (decide (S cm < NumCells m)%nat) as [Hcp|Hcp].
    + rewrite !ReadAt_in by lia. cbn [mbind option_bind].
      repeat (rewrite AddAtChecked_in by (rewrite ?AddAt_length; lia);
              cbn [mbind option_bind]).
      cbn [fst snd]. rewrite !AddAt_length. auto.
    + rewrite !ReadAt_in by lia. cbn [mbind option_bind].
      rewrite !AddAtChecked_in by lia. cbn [mbind option_bind fst snd].
      rewrite !AddAt_length. auto.
Qed.

Lemma IntegrateFluxesChecked_in (m : Mesh Scal) dt h0
  (ff fs : FieldFace Scal) (Tf Ts : FieldCell Scal)
  (st : FieldCell Scal * FieldCell Scal) (idxcell : nat) :
  length ff = S (NumCells m) -> length fs = S (NumCells m) ->
  length Tf = NumCells m -> length Ts = NumCells m ->
  length st.1 = NumCells m -> length st.2 = NumCells m ->
  (idxcell < NumCells m)%nat ->
  IntegrateFluxesChecked m dt h0 ff fs Tf Ts st idxcell
  = Some (IntegrateFluxes m dt h0 ff fs Tf Ts st idxcell)
  /\ length (IntegrateFluxes m dt h0 ff fs Tf Ts st idxcell).1 = NumCells m
  /\ length (IntegrateFluxes m dt h0 ff fs Tf Ts st idxcell).2 = NumCells m.
Proof.
  destruct st as [Tf_new Ts_new]. cbn [fst snd].
  intros Hff Hfs HTf HTs Hnf Hns Hc.
  unfold IntegrateFluxesChecked, IntegrateFluxes, GetNeighbourFace.
  rewrite !ReadAt_in by lia. cbn [mbind option_bind].
  rewrite WriteAt_in by lia. cbn [mbind option_bind].
  rewrite WriteAt_in by lia. cbn [mbind option_bind fst snd].
  rewrite !length_insert. auto.
Qed.

Lemma IntegrateSourceChecked_in (m : Mesh Scal) dt
  (p : option (FieldCell Scal)) (T_new : FieldCell Scal) :
  SourceSized m p -> length T_new = NumCells m ->
  IntegrateSourceChecked m dt p T_new = Some (IntegrateSource m dt p T_new).
Proof.
  intros Hp Hlen. unfold IntegrateSourceChecked, IntegrateSource.
  destruct p as [fc_rhs|]; [|reflexivity]. cbn [SourceSized] in Hp.
  apply (CheckedLoop_Some (fun T => length T = NumCells m)); [exact Hlen|].
  intros T c Hc HT. unfold Cells in Hc. apply elem_of_seq in Hc.
  rewrite ReadAt_in by lia. cbn [mbind option_bind].
  rewrite AddAtChecked_in by lia. rewrite AddAt_length. auto.
Qed.

(** On a solver whose fields are sized for its mesh, no access of
    [CalcStep] is outside a field: the checked step succeeds, with the
    result of [CalcStep]. *)
Lemma CalcStepChecked_WellFormed (s : HeatStorage Scal) :
  WellFormed s -> CalcStepChecked s = Some (CalcStep s).
Proof.
  intros (H1 & H2 & H3 & H4 & Hpf & Hps).
  unfold CalcStepChecked, CalcStep.
  match goal with
  | |- context [CheckedLoop (FaceFluxesChecked ?m ?uf ?af ?as' ?Tin ?h0
                               ?Tf ?Ts) ?l ?a] =>
    destruct (CheckedLoop_Some
                (fun st : FieldFace Scal * FieldFace Scal =>
                   length st.1 = S (NumCells m)
                   /\ length st.2 = S (NumCells m))
                (FaceFluxesChecked m uf af as' Tin h0 Tf Ts)
                (FaceFluxes m uf af as' Tin h0 Tf Ts) l a)
      as [Efaces [Hff Hfs]]
  end.
  { unfold NewFieldFace. cbn [fst snd]. rewrite !length_replicate. auto. }
  { intros st f Hf [Hl1 Hl2]. unfold Faces in Hf. apply elem_of_seq in Hf.
    destruct (FaceFluxesChecked_in (mesh s) (fluid_velocity_ s)
                (conductivity_fluid_ s) (conductivity_solid_ s)
                (temperature_hot_ s) (GetVolume (mesh s) 0%nat)
                (time_curr (fc_temperature_fluid_ s))
                (time_curr (fc_temperature_solid_ s)) st f)
      as (E & L1 & L2); try assumption; [lia|]. auto. }
  rewrite Efaces. cbn [mbind option_bind].
  destruct (fold_left _ (Faces (mesh s)) _) as [ff fs]. cbn [fst snd] in *.
  match goal with
  | |- context [CheckedLoop (IntegrateFluxesChecked ?m ?dt ?h0 ?ff ?fs
                               ?Tf ?Ts) ?l ?a] =>
    destruct (CheckedLoop_Some
                (fun st : FieldCell Scal * FieldCell Scal =>
                   length st.1 = NumCells m /\ length st.2 = NumCells m)
                (IntegrateFluxesChecked m dt h0 ff fs Tf Ts)
                (IntegrateFluxes m dt h0 ff fs Tf Ts) l a)
      as [Ecells [Hnf Hns]]
  end.
  { cbn [fst snd]. auto. }
  { intros st c Hc [Hl1 Hl2]. unfold Cells in Hc. apply elem_of_seq in Hc.
    destruct (IntegrateFluxesChecked_in (mesh s) (GetTimeStep s)
                (GetVolume (mesh s) 0%nat) ff fs
                (time_curr (fc_temperature_fluid_ s))
                (time_curr (fc_temperature_solid_ s)) st c)
      as (E & L1 & L2); try assumption; [lia|]. auto. }
  rewrite Ecells. cbn [mbind option_bind].
  destruct (fold_left _ (Cells (mesh s)) _) as [Tf_new Ts_new].
  cbn [fst snd] in *.
  rewrite !IntegrateSourceChecked_in by assumption.
  reflexivity.
Qed.

(** X1.  No loop of [CalcStep] ever indexes outside a field.  A solver
    constructed on a mesh, with source pointers that are null or point to
    fields sized for that mesh, has every layer sized for the mesh and keeps
    it through any number of steps; on such a solver the step that checks
    the index of every read and write of a temperature layer, a flux field
    or a source field never fails, and computes what [CalcStep] computes.
    This holds for every scalar type, binary64 included. *)
Theorem constructed_solver_indexes_in_bounds (m : Mesh Scal)
  (time_step uf alpha_f alpha_s T_hot T_cold exchange_f exchange_s : Scal)
  (p_fluid p_solid : option (FieldCell Scal)) (n : nat) :
  SourceSized m p_fluid -> SourceSized m p_solid ->
  let s := Nat.iter n Step
             (NewHeatStorage m time_step uf alpha_f alpha_s T_hot T_cold
                exchange_f exchange_s p_fluid p_solid) in
  WellFormed s
  /\ mesh s = m
  /\ CalcStepChecked s = Some (CalcStep s).
Proof.
  intros Hpf Hps s.
  assert (WellFormed s) as Hwf.
  { apply iter_Step_WellFormed, NewHeatStorage_WellFormed; assumption. }
  assert (mesh s = m) as Hm.
  { unfold s. clear Hwf s. induction n as [|n IH]; [reflexivity|].
    rewrite Nat.iter_succ, Step_mesh. exact IH. }
  split; [exact Hwf|]. split; [exact Hm|].
  apply CalcStepChecked_WellFormed, Hwf.
Qed.

End StepFacts.

Lemma constructed_solver_indexes_in_bounds_witness :
  CalcStepChecked
    (Nat.iter 3 Step
       (NewHeatStorage FloatDest 0.5%float 1%float 0.25%float 0.25%float
          2%float 1%float 0%float 0%float
          (Some [1%float; 0%float; 1%float]) None))
  = Some
      (CalcStep
         (Nat.iter 3 Step
            (NewHeatStorage FloatDest 0.5%float 1%float 0.25%float
               0.25%float 2%float 1%float 0%float 0%float
               (Some [1%float; 0%float; 1%float]) None))).
Proof.
  refine (proj2 (proj2
            (constructed_solver_indexes_in_bounds FloatDest 0.5%float
               1%float 0.25%float 0.25%float 2%float 1%float 0%float
               0%float (Some [1%float; 0%float; 1%float]) None 3 _ _))).
  - reflexivity.
  - exact I.
Defined.

(** The check is a real one: a source field shorter than the mesh makes the
    step index outside it. *)
Lemma CalcStepChecked_short_source :
  CalcStepChecked
    (NewHeatStorage FloatDest 0.5%float 1%float 0.25%float 0.25%float
       2%float 1%float 0%float 0%float (Some [1%float; 0%float]) None)
  = None.
Proof. vm_compute. reflexivity. Qed.

Section StepLocality.
Context {Scal : Type} `{ScalOps Scal}.
Local Open Scope scal_scope.

(** The flux through a face reads the two cells next to the face only. *)
Lemma FluidFluxUpdate_local (m : Mesh Scal) uf alpha_f T_in h0
  (Tf Tf' : FieldCell Scal) (f : nat) (flux : Scal) :
  (forall c, (S c = f \/ c = f) -> Tf !!! c = Tf' !!! c) ->
  FluidFluxUpdate m uf alpha_f T_in h0 Tf f flux
  = FluidFluxUpdate m uf alpha_f T_in h0 Tf' f flux.
Proof.
  intros Hagree. unfold FluidFluxUpdate, GetNeighbourCellOfFace.
  destruct f as [|c]; [reflexivity|].
  rewrite (Hagree c) by (left; reflexivity).
  destruct (decide (S c < NumCells m)%nat); [|reflexivity].
  rewrite (Hagree (S c)) by (right; reflexivity). reflexivity.
Qed.

Lemma SolidFluxUpdate_local (m : Mesh Scal) alpha_s h0
  (Ts Ts' : FieldCell Scal) (f : nat) (flux : Scal) :
  (forall c, (S c = f \/ c = f) -> Ts !!! c = Ts' !!! c) ->
  SolidFluxUpdate m alpha_s h0 Ts f flux
  = SolidFluxUpdate m alpha_s h0 Ts' f flux.
Proof.
  intros Hagree. unfold SolidFluxUpdate, GetNeighbourCellOfFace.
  destruct f as [|c]; [reflexivity|].
  destruct (decide (S c < NumCells m)%nat); [|reflexivity].
  rewrite (Hagree c) by (left; reflexivity).
  rewrite (Hagree (S c)) by (right; reflexivity). reflexivity.
Qed.

(** X2.  The three-point stencil.  The new fluid value of a cell after one
    [CalcStep] is determined by the previous fluid values of the cell and of
    its two neighbours (with the mesh, the time step, the velocity, the
    fluid conductivity, the inflow temperature and the fluid source): two
    solvers that agree on these get the same new value there, whatever the
    rest of their fluid fields and whatever their solid phase.  For every
    scalar type. *)
Theorem fluid_update_three_point_stencil (s1 s2 : HeatStorage Scal)
  (c : nat) :
  WellFormed s1 -> WellFormed s2 ->
  (c < NumCells (mesh s1))%nat ->
  mesh s1 = mesh s2 ->
  time_step_ s1 = time_step_ s2 ->
  fluid_velocity_ s1 = fluid_velocity_ s2 ->
  conductivity_fluid_ s1 = conductivity_fluid_ s2 ->
  temperature_hot_ s1 = temperature_hot_ s2 ->
  p_fc_rhs_fluid_ s1 = p_fc_rhs_fluid_ s2 ->
  (forall c', (S c' = c \/ c' = c \/ c' = S c) ->
     GetFluidTemperature s1 !!! c' = GetFluidTemperature s2 !!! c') ->
  GetFluidTemperature (CalcStep s1) !!! c
  = GetFluidTemperature (CalcStep s2) !!! c.
Proof.
  intros Hwf1 Hwf2 Hc Em Edt Eu Ea ET Ep Hagree.
  rewrite (CalcStep_fluid_cell s1 c Hwf1 Hc).
  rewrite (CalcStep_fluid_cell s2 c Hwf2) by (rewrite <- Em; exact Hc).
  cbv zeta. rewrite <- Em, <- Edt, <- Eu, <- Ea, <- ET, <- Ep.
  rewrite (FluidFluxUpdate_local _ _ _ _ _ (GetFluidTemperature s1)
             (GetFluidTemperature s2) (S c))
    by (intros c' [E|E]; apply Hagree; [injection E as ->|]; auto).
  rewrite (FluidFluxUpdate_local _ _ _ _ _ (GetFluidTemperature s1)
             (GetFluidTemperature s2) c)
    by (intros c' [E|E]; apply Hagree; auto).
  rewrite (Hagree c) by auto. reflexivity.
Qed.

End StepLocality.

Lemma fluid_update_three_point_stencil_witness :
  GetFluidTemperature
    (CalcStep (ExampleSolver 2 (1 / 2) (1 / 3) None None)) !!! 0%nat
  = GetFluidTemperature
      (CalcStep (ExampleSolverFar 2 (1 / 2) 5 None (Some [1; 1; 1]%R)))
    !!! 0%nat.
Proof.
  apply (fluid_update_three_point_stencil
           (ExampleSolver 2 (1 / 2) (1 / 3) None None)
           (ExampleSolverFar 2 (1 / 2) 5 None (Some [1; 1; 1]%R)) 0);
    try reflexivity;
    try (repeat split; reflexivity);
    try (simpl; lia).
  intros c' [E|[E|E]]; [discriminate E|subst c'; reflexivity..].
Defined.

(** ** The two phases do not interact *)

Section Phases.
Context {Scal : Type} `{ScalOps Scal}.
Local Open Scope scal_scope.

Lemma SameFluidProblem_CalcStep (s1 s2 : HeatStorage Scal) :
  SameFluidProblem s1 s2 -> SameFluidProblem (CalcStep s1) (CalcStep s2).
Proof.
  intros (Em & Edt & Eu & Ea & ET & Ep & Ef).
  destruct (CalcStep_parameters s1)
    as (_ & Adt & Am & Au & Aaf & _ & Ath & _ & _ & _ & Apf & _).
  destruct (CalcStep_parameters s2)
    as (_ & Bdt & Bm & Bu & Baf & _ & Bth & _ & _ & _ & Bpf & _).
  unfold SameFluidProblem.
  rewrite Adt, Am, Au, Aaf, Ath, Apf, Bdt, Bm, Bu, Baf, Bth, Bpf.
  rewrite !CalcStep_fluid. unfold FluidFluxes.
  rewrite <- Em, <- Edt, <- Eu, <- Ea, <- ET, <- Ep, <- Ef. tauto.
Qed.

Lemma SameSolidProblem_CalcStep (s1 s2 : HeatStorage Scal) :
  SameSolidProblem s1 s2 -> SameSolidProblem (CalcStep s1) (CalcStep s2).
Proof.
  intros (Em & Edt & Ea & Ep & Es).
  destruct (CalcStep_parameters s1)
    as (_ & Adt & Am & _ & _ & Aas & _ & _ & _ & _ & _ & Aps).
  destruct (CalcStep_parameters s2)
    as (_ & Bdt & Bm & _ & _ & Bas & _ & _ & _ & _ & _ & Bps).
  unfold SameSolidProblem.
  rewrite Adt, Am, Aas, Aps, Bdt, Bm, Bas, Bps.
  rewrite !CalcStep_solid. unfold SolidFluxes.
  rewrite <- Em, <- Edt, <- Ea, <- Ep, <- Es. tauto.
Qed.

(** X3.  The fluid field never depends on the solid phase.  Two solvers
    with the same mesh, time step, velocity, fluid conductivity, inflow
    temperature, fluid source and fluid layers hold the same fluid layers
    after any number of [CalcStep] calls, whatever their solid layers, solid
    conductivity, solid source, cold temperature and exchange coefficients:
    the heat exchange between the phases is not computed.  For every scalar
    type. *)
Theorem fluid_independent_of_solid (s1 s2 : HeatStorage Scal) (n : nat) :
  SameFluidProblem s1 s2 ->
  fc_temperature_fluid_ (Nat.iter n CalcStep s1)
  = fc_temperature_fluid_ (Nat.iter n CalcStep s2).
Proof.
  intros Hs.
  assert (SameFluidProblem (Nat.iter n CalcStep s1) (Nat.iter n CalcStep s2))
    as (_ & _ & _ & _ & _ & _ & Ef).
  { induction n as [|n IH]; [exact Hs|].
    rewrite !Nat.iter_succ. apply SameFluidProblem_CalcStep, IH. }
  exact Ef.
Qed.

(** X4.  The solid field never depends on the fluid phase.  Two solvers
    with the same mesh, time step, solid conductivity, solid source and
    solid layers hold the same solid layers after any number of [CalcStep]
    calls, whatever their fluid layers, velocity, fluid conductivity, fluid
    source, boundary temperatures and exchange coefficients.  For every
    scalar type. *)
Theorem solid_independent_of_fluid (s1 s2 : HeatStorage Scal) (n : nat) :
  SameSolidProblem s1 s2 ->
  fc_temperature_solid_ (Nat.iter n CalcStep s1)
  = fc_temperature_solid_ (Nat.iter n CalcStep s2).
Proof.
  intros Hs.
  assert (SameSolidProblem (Nat.iter n CalcStep s1) (Nat.iter n CalcStep s2))
    as (_ & _ & _ & _ & Es).
  { induction n as [|n IH]; [exact Hs|].
    rewrite !Nat.iter_succ. apply SameSolidProblem_CalcStep, IH. }
  exact Es.
Qed.

End Phases.

Lemma fluid_independent_of_solid_witness :
  fc_temperature_fluid_
    (Nat.iter 3 CalcStep
       (NewHeatStorage ExampleDest (1 / 10) 2 (1 / 2) (1 / 3) 7 1 0 0
          None None))%R
  = fc_temperature_fluid_
      (Nat.iter 3 CalcStep
         (NewHeatStorage ExampleDest (1 / 10) 2 (1 / 2) 5 7 1 4 6
            None (Some [1; 1; 1])))%R.
Proof.
  apply fluid_independent_of_solid. repeat split; reflexivity.
Defined.

Lemma solid_independent_of_fluid_witness :
  fc_temperature_solid_
    (Nat.iter 3 CalcStep
       (NewHeatStorage ExampleDest (1 / 10) 2 (1 / 2) (1 / 3) 7 1 0 0
          None (Some [1; 0; 1])))%R
  = fc_temperature_solid_
      (Nat.iter 3 CalcStep
         (NewHeatStorage ExampleDest (1 / 10) 0 5 (1 / 3) 9 1 4 6
            (Some [1; 1; 1]) (Some [1; 0; 1])))%R.
Proof.
  apply solid_independent_of_fluid. repeat split; reflexivity.
Defined.

(** ** Conservation and steady states, in exact arithmetic *)

Section ExactBalance.
Local Open Scope R_scope.

Lemma Total_app (l1 l2 : list R) : Total (l1 ++ l2) = Total l1 + Total l2.
Proof.
  unfold Total. induction l1 as [|x l1 IH]; simpl; [ring|].
  rewrite IH. ring.
Qed.

Lemma Total_lookup_seq (l : list R) :
  Total ((fun c => l !!! c) <$> seq 0 (length l)) = Total l.
Proof. rewrite fmap_lookup_total_seq. reflexivity. Qed.

(** The sum of the new values: the differences of the fluxes telescope. *)
Lemma Total_RefNewValue (m : Mesh R) dt h0 (prev : FieldCell R)
  (flux : nat -> R) (p : option (FieldCell R)) (n : nat) :
  Total (RefNewValue m dt h0 prev flux p <$> seq 0 n)
  = Total ((fun c => prev !!! c) <$> seq 0 n)
    - dt / h0 * (flux n - flux 0%nat)
    + dt * match p with
           | Some src => Total ((fun c => src !!! c) <$> seq 0 n)
           | None => 0
           end.
Proof.
  induction n as [|n IH].
  - simpl. destruct p; unfold Total; simpl; unfold Rdiv; ring.
  - rewrite seq_S, !fmap_app, !Total_app, IH. simpl.
    unfold RefNewValue, GetNeighbourFace.
    destruct p as [src|]; scal_R; rewrite ?fmap_app, ?Total_app;
      unfold Total; simpl; unfold Rdiv; ring.
Qed.

Lemma RefFluidFlux_left (m : Mesh R) u alpha_f T_in h0 Tf :
  RefFluidFlux m u alpha_f T_in h0 Tf 0 = u * T_in.
Proof. reflexivity. Qed.

Lemma RefFluidFlux_right (m : Mesh R) u alpha_f T_in h0 Tf :
  (0 < NumCells m)%nat ->
  RefFluidFlux m u alpha_f T_in h0 Tf (NumCells m)
  = u * Tf !!! (NumCells m - 1)%nat.
Proof.
  intros HN. unfold RefFluidFlux, GetNeighbourCellOfFace.
  destruct (NumCells m) as [|k]; [lia|].
  destruct (decide (S k < S k)%nat); [lia|].
  replace (S k - 1)%nat with k by lia. reflexivity.
Qed.

Lemma RefSolidFlux_boundary (m : Mesh R) alpha_s h0 Ts :
  RefSolidFlux m alpha_s h0 Ts 0 = 0
  /\ RefSolidFlux m alpha_s h0 Ts (NumCells m) = 0.
Proof.
  split; [reflexivity|].
  unfold RefSolidFlux, GetNeighbourCellOfFace.
  destruct (NumCells m) as [|k]; [reflexivity|].
  destruct (decide (S k < S k)%nat); [lia|reflexivity].
Qed.

(** X5.  Balance of the fluid.  One [CalcStep] changes the sum of the fluid
    field over the cells by what the inflow brings at the left boundary,
    what the outflow takes at the right boundary and what the source adds:
    the diffusive fluxes and the advective fluxes through interior faces
    cancel. *)
Theorem fluid_total_balance (s : HeatStorage R) :
  WellFormed s ->
  (0 < NumCells (mesh s))%nat ->
  Total (GetFluidTemperature (CalcStep s))
  = Total (GetFluidTemperature s)
    + time_step_ s / GetVolume (mesh s) 0%nat
      * (fluid_velocity_ s * temperature_hot_ s
         - fluid_velocity_ s
           * GetFluidTemperature s !!! (NumCells (mesh s) - 1)%nat)
    + time_step_ s * match p_fc_rhs_fluid_ s with
                     | Some src => Total src
                     | None => 0
                     end.
Proof.
  intros Hwf HN. unfold GetFluidTemperature.
  rewrite (proj1 (CalcStep_layers_Ref s Hwf)).
  destruct Hwf as (H1 & _ & _ & _ & H5 & _).
  unfold RefCalcStep. cbn [fc_temperature_fluid_ time_curr]. unfold Cells.
  rewrite Total_RefNewValue, RefFluidFlux_left, RefFluidFlux_right by exact HN.
  rewrite <- H1 at 1. rewrite Total_lookup_seq.
  destruct (p_fc_rhs_fluid_ s) as [src|].
  - simpl in H5. rewrite <- H5, Total_lookup_seq. unfold Rdiv. ring.
  - unfold Rdiv. ring.
Qed.

(** X6.  Conservation of the solid.  No solid flux crosses either domain
    boundary, so one [CalcStep] changes the sum of the solid field over the
    cells by the solid source only, and not at all without one. *)
Theorem solid_total_conserved (s : HeatStorage R) :
  WellFormed s ->
  Total (GetSolidTemperature (CalcStep s))
  = Total (GetSolidTemperature s)
    + time_step_ s * match p_fc_rhs_solid_ s with
                     | Some src => Total src
                     | None => 0
                     end.
Proof.
  intros Hwf. unfold GetSolidTemperature.
  rewrite (proj2 (CalcStep_layers_Ref s Hwf)).
  destruct Hwf as (_ & _ & H3 & _ & _ & H6).
  unfold RefCalcStep. cbn [fc_temperature_solid_ time_curr]. unfold Cells.
  rewrite Total_RefNewValue.
  destruct (RefSolidFlux_boundary (mesh s) (conductivity_solid_ s)
              (GetVolume (mesh s) 0%nat)
              (time_curr (fc_temperature_solid_ s))) as [-> ->].
  rewrite <- H3 at 1. rewrite Total_lookup_seq.
  destruct (p_fc_rhs_solid_ s) as [src|].
  - simpl in H6. rewrite <- H6, Total_lookup_seq. unfold Rdiv. ring.
  - unfold Rdiv. ring.
Qed.

End ExactBalance.

Lemma fluid_total_balance_witness :
  Total (GetFluidTemperature
           (CalcStep (ExampleSolver 2 (1 / 2) (1 / 3) (Some [1; 0; 1]) None)))%R
  = (Total [1; 2; 4]
     + 1 / 10 / GetVolume (InitUniformMesh 0 3 3) 0%nat * (2 * 7 - 2 * 4)
     + 1 / 10 * Total [1; 0; 1])%R.
Proof.
  apply (fluid_total_balance
           (ExampleSolver 2 (1 / 2) (1 / 3) (Some [1; 0; 1]%R) None)).
  - repeat split; reflexivity.
  - simpl. lia.
Defined.

Lemma solid_total_conserved_witness :
  Total (GetSolidTemperature
           (CalcStep (ExampleSolver 2 (1 / 2) (1 / 3) (Some [1; 0; 1]) None)))%R
  = (Total [5; 3; 1] + 1 / 10 * 0)%R.
Proof.
  apply (solid_total_conserved
           (ExampleSolver 2 (1 / 2) (1 / 3) (Some [1; 0; 1]%R) None)).
  repeat split; reflexivity.
Defined.

Section ExactSteady.
Local Open Scope R_scope.

Lemma lookup_total_uniform (n : nat) (v : R) (c : nat) :
  (c < n)%nat -> replicate n v !!! c = v.
Proof. apply lookup_total_replicate_2. Qed.

Lemma fmap_const_seq (f : nat -> R) (n : nat) (v : R) :
  (forall c, (c < n)%nat -> f c = v) -> f <$> seq 0 n = replicate n v.
Proof.
  intros Hf. apply (list_eq_same_length _ _ n).
  - apply length_replicate.
  - rewrite length_fmap. apply length_seq.
  - intros i x y Hi Hx Hy. rewrite list_lookup_fmap in Hx.
    rewrite lookup_seq_lt in Hx by exact Hi. simpl in Hx.
    injection Hx as <-. apply lookup_replicate in Hy as [-> _].
    apply Hf, Hi.
Qed.

(** A fluid field uniformly at the inflow temperature is a steady state. *)
Lemma uniform_fluid_CalcStep (s : HeatStorage R) :
  WellFormed s ->
  ZeroOrAbsent (mesh s) (p_fc_rhs_fluid_ s) ->
  GetFluidTemperature s = NewFieldCell (mesh s) (temperature_hot_ s) ->
  GetFluidTemperature (CalcStep s) = GetFluidTemperature s.
Proof.
  intros Hwf Hp Hu. unfold GetFluidTemperature in *.
  rewrite (proj1 (CalcStep_layers_Ref s Hwf)).
  unfold RefCalcStep. cbn [fc_temperature_fluid_ time_curr].
  rewrite Hu. unfold Cells, NewFieldCell.
  apply fmap_const_seq. intros c Hc.
  assert (forall f, (f <= NumCells (mesh s))%nat ->
            RefFluidFlux (mesh s) (fluid_velocity_ s) (conductivity_fluid_ s)
              (temperature_hot_ s) (GetVolume (mesh s) 0%nat)
              (replicate (NumCells (mesh s)) (temperature_hot_ s)) f
            = fluid_velocity_ s * temperature_hot_ s) as Hflux.
  { intros f Hf. unfold RefFluidFlux, GetNeighbourCellOfFace.
    destruct f as [|k]; [reflexivity|].
    rewrite lookup_total_uniform by lia.
    destruct (decide (S k < NumCells (mesh s))%nat); [|reflexivity].
    rewrite lookup_total_uniform by lia. scal_R. unfold Rdiv. ring. }
  unfold RefNewValue, GetNeighbourFace.
  rewrite !Hflux by lia. rewrite lookup_total_uniform by exact Hc.
  destruct (p_fc_rhs_fluid_ s) as [src|]; scal_R.
  - destruct Hp as [_ Hz]. rewrite Hz by exact Hc. scal_R. unfold Rdiv. ring.
  - unfold Rdiv. ring.
Qed.

(** A uniform solid field is a steady state, at any value. *)
Lemma uniform_solid_CalcStep (s : HeatStorage R) (v : R) :
  WellFormed s ->
  ZeroOrAbsent (mesh s) (p_fc_rhs_solid_ s) ->
  GetSolidTemperature s = NewFieldCell (mesh s) v ->
  GetSolidTemperature (CalcStep s) = GetSolidTemperature s.
Proof.
  intros Hwf Hp Hu. unfold GetSolidTemperature in *.
  rewrite (proj2 (CalcStep_layers_Ref s Hwf)).
  unfold RefCalcStep. cbn [fc_temperature_solid_ time_curr].
  rewrite Hu. unfold Cells, NewFieldCell.
  apply fmap_const_seq. intros c Hc.
  assert (forall f, (f <= NumCells (mesh s))%nat ->
            RefSolidFlux (mesh s) (conductivity_solid_ s)
              (GetVolume (mesh s) 0%nat)
              (replicate (NumCells (mesh s)) v) f = 0) as Hflux.
  { intros f Hf. unfold RefSolidFlux, GetNeighbourCellOfFace.
    destruct f as [|k]; [reflexivity|].
    destruct (decide (S k < NumCells (mesh s))%nat); [|reflexivity].
    rewrite !lookup_total_uniform by lia. scal_R. unfold Rdiv. ring. }
  unfold RefNewValue, GetNeighbourFace.
  rewrite !Hflux by lia. rewrite lookup_total_uniform by exact Hc.
  destruct (p_fc_rhs_solid_ s) as [src|]; scal_R.
  - destruct Hp as [_ Hz]. rewrite Hz by exact Hc. scal_R. unfold Rdiv. ring.
  - unfold Rdiv. ring.
Qed.

Lemma iter_CalcStep_parameters (n : nat) (s : HeatStorage R) :
  WellFormed s ->
  let s' := Nat.iter n CalcStep s in
  WellFormed s'
  /\ mesh s' = mesh s
  /\ temperature_hot_ s' = temperature_hot_ s
  /\ p_fc_rhs_fluid_ s' = p_fc_rhs_fluid_ s
  /\ p_fc_rhs_solid_ s' = p_fc_rhs_solid_ s.
Proof.
  intros Hwf. induction n as [|n (IH1 & IH2 & IH3 & IH4 & IH5)]; [tauto|].
  cbv zeta in *. rewrite Nat.iter_succ.
  destruct (CalcStep_parameters (Nat.iter n CalcStep s))
    as (_ & _ & -> & _ & _ & _ & -> & _ & _ & _ & -> & ->).
  split; [apply CalcStep_WellFormed, IH1 | tauto].
Qed.

(** X7.  A solver started with equal hot and cold temperatures and a null
    or zero fluid source stays where it starts: after any number of
    [CalcStep] calls the fluid field is still uniformly at that
    temperature, whatever the velocity, the conductivities, the time step
    and the cell size. *)
Theorem fluid_at_inflow_temperature_is_steady (m : Mesh R)
  (dt uf alpha_f alpha_s T exchange_f exchange_s : R)
  (p_fluid p_solid : option (FieldCell R)) (n : nat) :
  ZeroOrAbsent m p_fluid ->
  SourceSized m p_solid ->
  GetFluidTemperature
    (Nat.iter n CalcStep
       (NewHeatStorage m dt uf alpha_f alpha_s T T
          exchange_f exchange_s p_fluid p_solid))
  = NewFieldCell m T.
Proof.
  intros Hpf Hps.
  set (s0 := NewHeatStorage m dt uf alpha_f alpha_s T T
               exchange_f exchange_s p_fluid p_solid).
  assert (WellFormed s0) as Hwf.
  { apply NewHeatStorage_WellFormed; [|exact Hps].
    destruct p_fluid; [apply Hpf|exact I]. }
  induction n as [|n IH]; [reflexivity|].
  rewrite Nat.iter_succ.
  destruct (iter_CalcStep_parameters n s0 Hwf) as (Hw & Em & ET & Ep & _).
  rewrite uniform_fluid_CalcStep; [exact IH|exact Hw| |].
  - rewrite Em, Ep. exact Hpf.
  - rewrite IH, Em, ET. reflexivity.
Qed.

(** X8.  Without a solid source the solid never leaves the cold
    temperature it is constructed with: after any number of [CalcStep]
    calls the solid field is still uniformly [temperature_cold], whatever
    the fluid does.  This is the case of the solver the module constructor
    builds, whose source pointers are null. *)
Theorem solid_stays_cold (m : Mesh R)
  (dt uf alpha_f alpha_s T_hot T_cold exchange_f exchange_s : R)
  (p_fluid p_solid : option (FieldCell R)) (n : nat) :
  SourceSized m p_fluid ->
  ZeroOrAbsent m p_solid ->
  GetSolidTemperature
    (Nat.iter n CalcStep
       (NewHeatStorage m dt uf alpha_f alpha_s T_hot T_cold
          exchange_f exchange_s p_fluid p_solid))
  = NewFieldCell m T_cold.
Proof.
  intros Hpf Hps.
  set (s0 := NewHeatStorage m dt uf alpha_f alpha_s T_hot T_cold
               exchange_f exchange_s p_fluid p_solid).
  assert (WellFormed s0) as Hwf.
  { apply NewHeatStorage_WellFormed; [exact Hpf|].
    destruct p_solid; [apply Hps|exact I]. }
  induction n as [|n IH]; [reflexivity|].
  rewrite Nat.iter_succ.
  destruct (iter_CalcStep_parameters n s0 Hwf) as (Hw & Em & _ & _ & Ep).
  rewrite (uniform_solid_CalcStep _ T_cold); [exact IH|exact Hw| |].
  - rewrite Em, Ep. exact Hps.
  - rewrite IH, Em. reflexivity.
Qed.

End ExactSteady.

Lemma fluid_at_inflow_temperature_is_steady_witness :
  GetFluidTemperature
    (Nat.iter 4 CalcStep
       (NewHeatStorage ExampleDest (1 / 10) 2 (1 / 2) (1 / 3) 7 7 0 0
          None (Some [1; 0; 1])))%R
  = [7; 7; 7]%R.
Proof.
  apply (fluid_at_inflow_temperature_is_steady ExampleDest (1 / 10) 2
           (1 / 2) (1 / 3) 7 0 0 None (Some [1; 0; 1]%R) 4).
  - exact I.
  - reflexivity.
Defined.

Lemma solid_stays_cold_witness :
  GetSolidTemperature
    (Nat.iter 4 CalcStep
       (NewHeatStorage ExampleDest (1 / 10) 2 (1 / 2) (1 / 3) 7 1 0 0
          (Some [1; 0; 1]) None))%R
  = [1; 1; 1]%R.
Proof.
  apply (solid_stays_cold ExampleDest (1 / 10) 2 (1 / 2) (1 / 3) 7 1 0 0
           (Some [1; 0; 1]%R) None 4).
  - reflexivity.
  - exact I.
Defined.

(** ** The discrete maximum principle *)

Section MaximumPrinciple.
Local Open Scope R_scope.

Lemma convex_combination (lo hi a b c x y z : R) :
  0 <= a -> 0 <= b -> 0 <= c -> a + b + c = 1 ->
  lo <= x <= hi -> lo <= y <= hi -> lo <= z <= hi ->
  lo <= a * x + b * y + c * z <= hi.
Proof. intros. split; nra. Qed.

Lemma lookup_total_fmap_seq (f : nat -> R) (n c : nat) :
  (c < n)%nat -> (f <$> seq 0 n) !!! c = f c.
Proof.
  intros Hc. apply list_lookup_total_correct.
  rewrite list_lookup_fmap, lookup_seq_lt by exact Hc. reflexivity.
Qed.

(** One step keeps the fluid between the bounds of the previous field and
    the inflow temperature. *)
Lemma CalcStep_bounds (s : HeatStorage R) (lo hi : R) :
  WellFormed s ->
  ZeroOrAbsent (mesh s) (p_fc_rhs_fluid_ s) ->
  0 <= AdvectionNumber s -> 0 <= DiffusionNumber s ->
  AdvectionNumber s + 2 * DiffusionNumber s <= 1 ->
  lo <= temperature_hot_ s <= hi ->
  (forall c, (c < NumCells (mesh s))%nat ->
     lo <= GetFluidTemperature s !!! c <= hi) ->
  forall c, (c < NumCells (mesh s))%nat ->
    lo <= GetFluidTemperature (CalcStep s) !!! c <= hi.
Proof.
  intros Hwf Hp HA HB HAB Hin Hold c Hc.
  unfold GetFluidTemperature in *.
  rewrite (proj1 (CalcStep_layers_Ref s Hwf)).
  unfold RefCalcStep. cbn [fc_temperature_fluid_ time_curr]. unfold Cells.
  rewrite lookup_total_fmap_seq by exact Hc.
  unfold AdvectionNumber, DiffusionNumber in *.
  set (A := fluid_velocity_ s * (time_step_ s / GetVolume (mesh s) 0%nat))
    in *.
  set (B := conductivity_fluid_ s
            * (time_step_ s / GetVolume (mesh s) 0%nat)
            / GetVolume (mesh s) 0%nat) in *.
  set (Tf := time_curr (fc_temperature_fluid_ s)) in *.
  assert (RefNewValue (mesh s) (time_step_ s) (GetVolume (mesh s) 0%nat) Tf
            (RefFluidFlux (mesh s) (fluid_velocity_ s)
               (conductivity_fluid_ s) (temperature_hot_ s)
               (GetVolume (mesh s) 0%nat) Tf) (p_fc_rhs_fluid_ s) c
          = RefNewValue (mesh s) (time_step_ s) (GetVolume (mesh s) 0%nat) Tf
              (RefFluidFlux (mesh s) (fluid_velocity_ s)
                 (conductivity_fluid_ s) (temperature_hot_ s)
                 (GetVolume (mesh s) 0%nat) Tf) None c) as ->.
  { unfold RefNewValue. destruct (p_fc_rhs_fluid_ s) as [src|]; [|reflexivity].
    destruct Hp as [_ Hz]. rewrite Hz by exact Hc. scal_R. ring. }
  unfold RefNewValue, RefFluidFlux, GetNeighbourFace, GetNeighbourCellOfFace.
  pose proof (Hold c Hc) as Hc0.
  destruct c as [|k].
  - destruct (decide (1 < NumCells (mesh s))%nat) as [H1|H1]; scal_R.
    + pose proof (Hold 1%nat H1) as Hc1.
      replace (_ - _ * _)
        with ((1 - A - B) * Tf !!! 0%nat + A * temperature_hot_ s
              + B * Tf !!! 1%nat)
        by (unfold A, B, Rdiv; ring).
      apply convex_combination; (assumption || lra).
    + replace (_ - _ * _)
        with ((1 - A) * Tf !!! 0%nat + A * temperature_hot_ s
              + 0 * Tf !!! 0%nat)
        by (unfold A, Rdiv; ring).
      apply convex_combination; (assumption || lra).
  - destruct (decide (S k < NumCells (mesh s))%nat) as [_|]; [|lia].
    assert (k < NumCells (mesh s))%nat as Hk by lia.
    pose proof (Hold k Hk) as Hcp.
    destruct (decide (S (S k) < NumCells (mesh s))%nat) as [H1|H1]; scal_R.
    + pose proof (Hold (S (S k)) H1) as Hcn.
      replace (_ - _ * _)
        with ((1 - A - 2 * B) * Tf !!! S k + (A + B) * Tf !!! k
              + B * Tf !!! S (S k))
        by (unfold A, B, Rdiv; ring).
      apply convex_combination; (assumption || lra).
    + replace (_ - _ * _)
        with ((1 - A - B) * Tf !!! S k + (A + B) * Tf !!! k
              + 0 * Tf !!! S k)
        by (unfold A, B, Rdiv; ring).
      apply convex_combination; (assumption || lra).
Qed.

Lemma CalcStep_numbers (s : HeatStorage R) :
  AdvectionNumber (CalcStep s) = AdvectionNumber s
  /\ DiffusionNumber (CalcStep s) = DiffusionNumber s.
Proof.
  unfold AdvectionNumber, DiffusionNumber.
  destruct (CalcStep_parameters s)
    as (_ & -> & -> & -> & -> & _).
  split; reflexivity.
Qed.

(** X9.  The discrete maximum principle.  Without a fluid source, with a
    velocity and a fluid conductivity that are not negative and a time step
    small enough that u dt/h + 2 alpha dt/h^2 <= 1, every fluid value after
    any number of [CalcStep] calls lies between the bounds that hold for the
    initial fluid values and the inflow temperature: the update creates no
    new maximum and no new minimum. *)
Theorem fluid_maximum_principle (s : HeatStorage R) (lo hi : R) (n : nat) :
  WellFormed s ->
  ZeroOrAbsent (mesh s) (p_fc_rhs_fluid_ s) ->
  0 <= AdvectionNumber s -> 0 <= DiffusionNumber s ->
  AdvectionNumber s + 2 * DiffusionNumber s <= 1 ->
  lo <= temperature_hot_ s <= hi ->
  (forall c, (c < NumCells (mesh s))%nat ->
     lo <= GetFluidTemperature s !!! c <= hi) ->
  forall c, (c < NumCells (mesh s))%nat ->
    lo <= GetFluidTemperature (Nat.iter n CalcStep s) !!! c <= hi.
Proof.
  intros Hwf Hp HA HB HAB Hin Hold.
  induction n as [|n IH]; [exact Hold|].
  intros c Hc. rewrite Nat.iter_succ.
  destruct (iter_CalcStep_parameters n s Hwf) as (Hw & Em & ET & Ep & _).
  assert (AdvectionNumber (Nat.iter n CalcStep s) = AdvectionNumber s
          /\ DiffusionNumber (Nat.iter n CalcStep s) = DiffusionNumber s)
    as [EA EB].
  { clear. induction n as [|n [IHA IHB]]; [tauto|].
    rewrite Nat.iter_succ.
    destruct (CalcStep_numbers (Nat.iter n CalcStep s)) as [-> ->]. tauto. }
  apply CalcStep_bounds; rewrite ?Em, ?ET, ?Ep, ?EA, ?EB; assumption.
Qed.

End MaximumPrinciple.

Lemma fluid_maximum_principle_witness :
  (1 <= GetFluidTemperature
          (Nat.iter 5 CalcStep (ExampleSolver 2 (1 / 2) (1 / 3) None None))
        !!! 1%nat <= 7)%R.
Proof.
  assert (GetVolume (mesh (ExampleSolver 2 (1 / 2) (1 / 3) None None)) 0%nat
          = 1%R) as Eh by (simpl; norm_Z; field).
  apply (fluid_maximum_principle
           (ExampleSolver 2 (1 / 2) (1 / 3) None None) 1 7 5).
  - repeat split; reflexivity.
  - exact I.
  - unfold AdvectionNumber. rewrite Eh. simpl. lra.
  - unfold DiffusionNumber. rewrite Eh. simpl. lra.
  - unfold AdvectionNumber, DiffusionNumber. rewrite Eh. simpl. lra.
  - simpl. lra.
  - intros [|[|[|c]]] Hc; simpl in *; try lra; lia.
  - simpl. lia.
Defined.

(** ** The interpolation at the edges, for every scalar type *)

Section InterpolationEdges.
Context {Scal : Type} `{ScalOps Scal}.
Local Open Scope scal_scope.

(** X10.  Over a source mesh that has a cell, the two ends of the bracket
    are cells of the source mesh at every moment of the scan, the left one
    not after the right one, and the result has one value per destination
    cell: the interpolation reads the source mesh and a source field sized
    for it within their bounds only.  For every scalar type. *)
Theorem interpolation_stays_in_range (fc : FieldCell Scal)
  (src dest : Mesh Scal) (k : nat) :
  (0 < NumCells src)%nat ->
  let b := BracketAfter fc src dest k in
  (b.1 <= b.2)%nat /\ (b.2 < NumCells src)%nat
  /\ length (GetInterpolatedField fc src dest) = NumCells dest.
Proof.
  intros HN b.
  pose proof (BracketAfter_shape fc src dest k) as Hb. fold b in Hb.
  unfold BracketShape in Hb. clearbody b.
  split; [|split; [|apply GetInterpolatedField_length]];
    destruct Hb as [[E1 E2]|[E1 Hr]]; lia.
Qed.

(** From the initial bracket the loop does not move when the first source
    centre is not below the destination centre, or when the source mesh has
    no second cell. *)
Lemma AdvanceBracket_stays (m : Mesh Scal) (x : Scal) (fuel : nat) :
  (GetCenter m 0%nat <? x) = false \/ (NumCells m <= 1)%nat ->
  AdvanceBracket fuel m x 0 0 = (0%nat, 0%nat).
Proof.
  intros Hst. destruct fuel as [|fuel]; simpl; [reflexivity|].
  destruct Hst as [-> | HN]; [reflexivity|].
  destruct (GetCenter m 0%nat <? x); [|reflexivity].
  destruct (decide (1 < NumCells m)%nat); [lia|reflexivity].
Qed.

Lemma BracketAfter_stays (fc : FieldCell Scal) (src dest : Mesh Scal)
  (k : nat) :
  (forall j, (j < k)%nat ->
     (GetCenter src 0%nat <? GetCenter dest j) = false)
  \/ (NumCells src <= 1)%nat ->
  BracketAfter fc src dest k = (0%nat, 0%nat).
Proof.
  intros Hst. induction k as [|k IH]; [reflexivity|].
  rewrite BracketAfter_S, IH.
  - apply AdvanceBracket_stays.
    destruct Hst as [Hx|HN]; [left; apply Hx; lia | right; exact HN].
  - destruct Hst as [Hx|HN]; [left; intros j Hj; apply Hx; lia
                             | right; exact HN].
Qed.

(** X11.  The left edge.  A destination cell such that neither its centre
    nor the centre of an earlier destination cell lies above the first
    source centre is computed on the initial bracket, whose two ends are
    the first source cell: its value is
    GetInterpolated(x, x0, x0, u0, u0), a quotient by x0 - x0.  For every
    scalar type. *)
Theorem interpolation_left_of_first_source_cell (fc : FieldCell Scal)
  (src dest : Mesh Scal) (j : nat) :
  (j < NumCells dest)%nat ->
  (forall k, (k <= j)%nat ->
     (GetCenter src 0%nat <? GetCenter dest k) = false) ->
  GetInterpolatedField fc src dest !!! j =
  GetInterpolated (GetCenter dest j)
    (GetCenter src 0%nat) (GetCenter src 0%nat) (fc !!! 0%nat) (fc !!! 0%nat).
Proof.
  intros Hj Hx. rewrite GetInterpolatedField_lookup by exact Hj. cbv zeta.
  rewrite BracketAfter_stays; [reflexivity|].
  left. intros k Hk. apply Hx. lia.
Qed.

(** X12.  A source mesh of one cell.  The bracket cannot move, and every
    destination cell, wherever it lies, gets
    GetInterpolated(x, x0, x0, u0, u0): no destination value is the source
    value.  For every scalar type. *)
Theorem interpolation_from_single_cell (fc : FieldCell Scal)
  (src dest : Mesh Scal) (j : nat) :
  (NumCells src <= 1)%nat ->
  (j < NumCells dest)%nat ->
  GetInterpolatedField fc src dest !!! j =
  GetInterpolated (GetCenter dest j)
    (GetCenter src 0%nat) (GetCenter src 0%nat) (fc !!! 0%nat) (fc !!! 0%nat).
Proof.
  intros HN Hj. rewrite GetInterpolatedField_lookup by exact Hj. cbv zeta.
  rewrite BracketAfter_stays; [reflexivity|]. right. exact HN.
Qed.

(** The right end of the bracket never moves back, and it moves when the
    source centre under it is below the destination centre and a next
    source cell exists. *)
Lemma AdvanceBracket_right_ge (m : Mesh Scal) (x : Scal) (fuel l r : nat) :
  (r <= (AdvanceBracket fuel m x l r).2)%nat.
Proof.
  revert l r. induction fuel as [|fuel IH]; intros l r; simpl; [lia|].
  destruct (GetCenter m r <? x); [|simpl; lia].
  destruct (decide (S r < NumCells m)%nat); [|simpl; lia].
  pose proof (IH r (S r)). lia.
Qed.

Lemma AdvanceBracket_moves (m : Mesh Scal) (x : Scal) (fuel l r : nat) :
  (GetCenter m r <? x) = true -> (S r < NumCells m)%nat ->
  (r < (AdvanceBracket (S fuel) m x l r).2)%nat.
Proof.
  intros Hx Hr. simpl. rewrite Hx.
  destruct (decide (S r < NumCells m)%nat); [|lia].
  pose proof (AdvanceBracket_right_ge m x fuel r (S r)). lia.
Qed.

End InterpolationEdges.

Lemma interpolation_stays_in_range_witness :
  length (GetInterpolatedField [0%float; 1%float] FloatSrc FloatDest)
  = 3%nat.
Proof.
  refine (proj2 (proj2 (interpolation_stays_in_range [0%float; 1%float]
                          FloatSrc FloatDest 2 _))).
  simpl. lia.
Defined.

Lemma interpolation_left_of_first_source_cell_witness :
  GetInterpolatedField [1%float; 2%float] FloatMesh FloatFine !!! 0%nat
  = GetInterpolated 0.125%float 0.25%float 0.25%float 1%float 1%float.
Proof.
  apply (interpolation_left_of_first_source_cell [1%float; 2%float]
           FloatMesh FloatFine 0).
  - simpl. lia.
  - intros k Hk. assert (k = 0%nat) as -> by lia. reflexivity.
Defined.

Lemma interpolation_from_single_cell_witness :
  GetInterpolatedField [3%float] FloatOne FloatMesh !!! 1%nat
  = GetInterpolated 0.75%float 0.5%float 0.5%float 3%float 3%float.
Proof.
  apply (interpolation_from_single_cell [3%float] FloatOne FloatMesh 1).
  - simpl. lia.
  - simpl. lia.
Defined.

(** ** The interpolation between source cells, in exact arithmetic *)

Section ExactBracketing.
Local Open Scope R_scope.

(** From a bracket not past source cell [S i], the loop stops on the cells
    [i] and [S i] when the destination centre lies above the centre of [i]
    and not above the centre of [S i]. *)
Lemma AdvanceBracket_between (src : Mesh R) (x : R) (i fuel l r : nat) :
  Ascending src ->
  (S i < NumCells src)%nat ->
  GetCenter src i < x <= GetCenter src (S i) ->
  (r <= S i)%nat ->
  (NumCells src <= fuel + S r)%nat ->
  AdvanceBracket fuel src x l r =
  if decide (r = S i) then (l, r) else (i, S i).
Proof.
  intros Hsrc Hi Hx. revert l r.
  induction fuel as [|fuel IH]; intros l r Hr Hfuel;
    cbn [AdvanceBracket]; unfold GetNeighbourCell.
  - destruct (decide (r = S i)); [reflexivity|lia].
  - destruct (decide (r = S i)) as [->|Hne].
    + assert ((GetCenter src (S i) <? x)%scal = false) as ->
        by (apply ltb_R_false; lra).
      reflexivity.
    + assert ((GetCenter src r <? x)%scal = true) as ->.
      { apply ltb_R_true.
        assert (GetCenter src r <= GetCenter src i)
          by (apply Ascending_le; (assumption || lia)).
        lra. }
      destruct (decide (S r < NumCells src)%nat); [|lia].
      rewrite IH by lia.
      destruct (decide (S r = S i)) as [E|]; [|reflexivity].
      injection E as ->. reflexivity.
Qed.

Lemma BracketAfter_between (fc : FieldCell R) (src dest : Mesh R)
  (i j : nat) :
  Ascending src ->
  (forall k, (k < j)%nat -> GetCenter dest k <= GetCenter dest j) ->
  (S i < NumCells src)%nat ->
  GetCenter src i < GetCenter dest j <= GetCenter src (S i) ->
  BracketAfter fc src dest (S j) = (i, S i).
Proof.
  intros Hsrc Hdest Hi Hx. rewrite BracketAfter_S.
  pose proof (BracketAfter_reached fc src dest j) as Hb.
  destruct (BracketAfter fc src dest j) as [l r].
  unfold BracketReached in Hb. simpl in *.
  assert (r <= S i)%nat as Hr.
  { destruct Hb as [[_ ->]|(-> & HSl & k' & Hk' & Hlt)]; [lia|].
    destruct (decide (S l <= S i)%nat) as [|Hgt]; [assumption|].
    pose proof (Hdest k' Hk') as Hle.
    assert (GetCenter src (S i) <= GetCenter src l)
      by (apply Ascending_le; (assumption || lia)).
    lra. }
  rewrite (AdvanceBracket_between src _ i) by (assumption || lia).
  destruct (decide (r = S i)) as [->|]; [|reflexivity].
  destruct Hb as [[_ E]|(E & _)]; [discriminate E|].
  injection E as ->. reflexivity.
Qed.

(** X13.  Between two source cells.  With the source centres ascending and
    no earlier destination centre above it, a destination centre that lies
    above the centre of source cell i and not above that of cell i+1 is
    bracketed by these two cells: its value is the linear interpolation
    GetInterpolated(x, x_i, x_i+1, u_i, u_i+1), which lies between the two
    source values. *)
Theorem interpolation_between_source_cells (fc : FieldCell R)
  (src dest : Mesh R) (i j : nat) :
  Ascending src ->
  (forall k, (k < j)%nat -> GetCenter dest k <= GetCenter dest j) ->
  (j < NumCells dest)%nat ->
  (S i < NumCells src)%nat ->
  GetCenter src i < GetCenter dest j <= GetCenter src (S i) ->
  GetInterpolatedField fc src dest !!! j =
  GetInterpolated (GetCenter dest j)
    (GetCenter src i) (GetCenter src (S i)) (fc !!! i) (fc !!! S i)
  /\ Rmin (fc !!! i) (fc !!! S i)
     <= GetInterpolatedField fc src dest !!! j
     <= Rmax (fc !!! i) (fc !!! S i).
Proof.
  intros Hsrc Hdest Hj Hi Hx.
  assert (GetInterpolatedField fc src dest !!! j =
          GetInterpolated (GetCenter dest j)
            (GetCenter src i) (GetCenter src (S i)) (fc !!! i) (fc !!! S i))
    as Hval.
  { rewrite GetInterpolatedField_lookup by exact Hj. cbv zeta.
    rewrite (BracketAfter_between fc src dest i j) by assumption.
    reflexivity. }
  split; [exact Hval|]. rewrite Hval. unfold GetInterpolated. scal_R.
  set (x := GetCenter dest j) in *. set (xl := GetCenter src i) in *.
  set (xr := GetCenter src (S i)) in *.
  set (ul := fc !!! i). set (ur := fc !!! S i).
  assert (0 < xr - xl) as Hd by lra.
  assert (((x - xl) * ur + (xr - x) * ul) / (xr - xl)
          = ul + (x - xl) / (xr - xl) * (ur - ul)) as -> by (field; lra).
  assert (0 <= (x - xl) / (xr - xl) <= 1) as Hth.
  { split.
    - apply Rmult_le_pos; [lra|]. apply Rlt_le, Rinv_0_lt_compat, Hd.
    - apply (Rmult_le_reg_r (xr - xl)); [exact Hd|].
      unfold Rdiv. rewrite Rmult_assoc, Rinv_l by lra. lra. }
  set (th := (x - xl) / (xr - xl)) in *.
  unfold Rmin, Rmax. destruct (Rle_dec ul ur); split; nra.
Qed.

(** X14.  Source data that is a linear function of the position is
    reproduced exactly: if the source field is a x + b at every source
    centre (at least two source cells, centres ascending), then every
    destination cell whose centre lies above the first source centre gets
    a x + b at its own centre, between source cells and beyond the last one
    alike, in whatever order the destination cells come. *)
Theorem interpolation_exact_on_linear_data (fc : FieldCell R)
  (src dest : Mesh R) (a b : R) (j : nat) :
  Ascending src ->
  (2 <= NumCells src)%nat ->
  (forall c, (c < NumCells src)%nat -> fc !!! c = a * GetCenter src c + b) ->
  (j < NumCells dest)%nat ->
  GetCenter src 0 < GetCenter dest j ->
  GetInterpolatedField fc src dest !!! j = a * GetCenter dest j + b.
Proof.
  intros Hsrc HN Hfc Hj Hx.
  rewrite GetInterpolatedField_lookup by exact Hj. cbv zeta.
  pose proof (BracketAfter_shape fc src dest (S j)) as Hb.
  assert (0 < (BracketAfter fc src dest (S j)).2)%nat as Hpos.
  { rewrite BracketAfter_S.
    pose proof (BracketAfter_shape fc src dest j) as Hb0.
    destruct (BracketAfter fc src dest j) as [l r].
    unfold BracketShape in Hb0. simpl in *.
    destruct Hb0 as [[-> ->]|[-> Hr]].
    - destruct (NumCells src) as [|N] eqn:EN; [lia|].
      rewrite <- EN.
      assert (S N = NumCells src) as EN' by (symmetry; exact EN).
      rewrite EN.
      apply (AdvanceBracket_moves src (GetCenter dest j) N 0 0);
        [apply ltb_R_true, Hx | lia].
    - pose proof (AdvanceBracket_right_ge src (GetCenter dest j)
                    (NumCells src) l (S l)).
      lia. }
  destruct (BracketAfter fc src dest (S j)) as [l r].
  unfold BracketShape in Hb. simpl in *.
  destruct Hb as [[_ ->]|[-> Hr]]; [lia|].
  rewrite !Hfc by lia. unfold GetInterpolated. scal_R.
  assert (GetCenter src l < GetCenter src (S l)) by (apply Hsrc; lia).
  field. lra.
Qed.

(** X15.  The scalar overload between two distinct abscissae: it returns
    the left value at the left abscissa and the right value at the right
    one, and it does not change when the two ends are exchanged. *)
Theorem GetInterpolated_endpoints (x x_left x_right u_left u_right : R) :
  x_left <> x_right ->
  GetInterpolated x_left x_left x_right u_left u_right = u_left
  /\ GetInterpolated x_right x_left x_right u_left u_right = u_right
  /\ GetInterpolated x x_left x_right u_left u_right
     = GetInterpolated x x_right x_left u_right u_left.
Proof.
  intros Hne. unfold GetInterpolated. scal_R.
  repeat split; field; lra.
Qed.

End ExactBracketing.

Lemma interpolation_between_source_cells_witness :
  (Rmin 0 1 <= GetInterpolatedField [0; 1] ExampleSrc ExampleFine !!! 1%nat
   <= Rmax 0 1)%R.
Proof.
  refine (proj2 (interpolation_between_source_cells [0; 1]%R
                   ExampleSrc ExampleFine 0 1 ExampleSrc_Ascending _ _ _ _)).
  - intros k Hk. assert (k = 0%nat) as -> by lia. simpl. norm_Z. lra.
  - simpl. lia.
  - simpl. lia.
  - simpl. norm_Z. lra.
Defined.

Lemma interpolation_exact_on_linear_data_witness :
  (GetInterpolatedField [2; 4] ExampleSrc ExampleFine !!! 3%nat
   = 2 * GetCenter ExampleFine 3 + 1)%R.
Proof.
  apply (interpolation_exact_on_linear_data [2; 4]%R ExampleSrc ExampleFine
           2 1 3 ExampleSrc_Ascending).
  - simpl. lia.
  - intros [|[|c]] Hc; simpl in *; norm_Z; try lra; lia.
  - simpl. lia.
  - simpl. norm_Z. lra.
Defined.

Lemma GetInterpolated_endpoints_witness :
  (GetInterpolated 1 1 3 5 9 = 5)%R.
Proof.
  refine (proj1 (GetInterpolated_endpoints 2 1 3 5 9 _)). lra.
Defined.

(** ** [Evaluate] and the tester, for every scalar type *)

Section EvaluateFacts.
Context {Scal : Type} `{ScalOps Scal}.
Local Open Scope scal_scope.

Lemma Evaluate_UpdateAll (func : FuncTX Scal) (t : Scal) (m : Mesh Scal) :
  Evaluate func t m =
  UpdateAll (fun c _ => func t (GetCenter m c)) (Cells m)
    (NewFieldCell m (s_of_Z 0)).
Proof. reflexivity. Qed.

Lemma Evaluate_length (func : FuncTX Scal) (t : Scal) (m : Mesh Scal) :
  length (Evaluate func t m) = NumCells m.
Proof.
  rewrite Evaluate_UpdateAll, UpdateAll_length. unfold NewFieldCell.
  apply length_replicate.
Qed.

(** X16.  [Evaluate] samples the function at the cell centres: the field
    it returns has one value per cell of the mesh, and the value of cell c
    is func(t, x_c).  For every scalar type. *)
Theorem Evaluate_samples_centres (func : FuncTX Scal) (t : Scal)
  (m : Mesh Scal) (c : nat) :
  (c < NumCells m)%nat ->
  length (Evaluate func t m) = NumCells m
  /\ Evaluate func t m !!! c = func t (GetCenter m c).
Proof.
  intros Hc. split; [apply Evaluate_length|].
  rewrite Evaluate_UpdateAll. unfold Cells.
  rewrite UpdateAll_lookup_seq; [reflexivity|lia|].
  unfold NewFieldCell. rewrite length_replicate. exact Hc.
Qed.

End EvaluateFacts.

Lemma Evaluate_samples_centres_witness :
  Evaluate (fun t x => PrimFloat.add t x) 1%float FloatMesh !!! 1%nat
  = 1.75%float.
Proof.
  refine (proj2 (Evaluate_samples_centres
                   (fun t x => PrimFloat.add t x) 1%float FloatMesh 1 _)).
  simpl. lia.
Defined.

Section TesterShape.
Context {Scal : Type} `{ScalOps Scal}.
Local Open Scope scal_scope.
Variable CalcDiff : FieldCell Scal -> FieldCell Scal -> Mesh Scal -> Scal.

(** The inner loop of a stage takes whole steps. *)
Lemma StepLoop_steps (remaining n num_steps : nat) (step_threshold : Scal)
  (m : Mesh Scal) (slv : HeatStorage Scal) :
  let r := StepLoop CalcDiff remaining n num_steps step_threshold m slv in
  exists k : nat,
    (k <= remaining)%nat
    /\ r.1 = Nat.iter k Step slv
    /\ ((r.2 = num_steps /\ k = remaining)
        \/ (S r.2 = (n + k)%nat /\ (1 <= k)%nat
            /\ (CalcDiff (GetFluidTemperatureAt r.1 Layers_time_curr)
                  (GetFluidTemperatureAt r.1 Layers_time_prev) m
                <? step_threshold) = true)).
Proof.
  revert n slv. induction remaining as [|remaining IH]; intros n slv.
  - exists 0%nat. simpl. auto.
  - cbn [StepLoop]. change (FinishStep (CalcStep (StartStep slv)))
      with (Step slv).
    destruct (CalcDiff _ _ m <? step_threshold) eqn:E.
    + exists 1%nat. cbn [fst snd]. split; [lia|]. split; [reflexivity|].
      right. split; [lia|]. split; [lia|exact E].
    + destruct (IH (S n) (Step slv)) as (k & Hk & Hslv & Hcase).
      exists (S k). split; [lia|]. split.
      * rewrite Nat.iter_succ_r. exact Hslv.
      * destruct Hcase as [[E1 E2]|(E1 & E2 & E3)].
        -- left. split; [exact E1|lia].
        -- right. split; [lia|]. split; [lia|exact E3].
Qed.

(** X17.  The step count of a stage.  The inner loop of a tester stage
    leaves the solver after k whole steps, k <= num_steps.  Either the
    budget ran out, and then k = num_steps = actual_num_steps; or the
    threshold stopped the loop after the k-th step, and then
    actual_num_steps = k - 1: the count that goes to the statistics is one
    less than the number of steps taken.  For every scalar type. *)
Theorem StepLoop_reports_steps (num_steps : nat) (step_threshold : Scal)
  (m : Mesh Scal) (slv : HeatStorage Scal) :
  let r := StepLoop CalcDiff num_steps 0 num_steps step_threshold m slv in
  exists k : nat,
    (k <= num_steps)%nat
    /\ r.1 = Nat.iter k Step slv
    /\ (r.2 <= num_steps)%nat
    /\ ((r.2 = num_steps /\ k = num_steps)
        \/ (S r.2 = k
            /\ (CalcDiff (GetFluidTemperatureAt r.1 Layers_time_curr)
                  (GetFluidTemperatureAt r.1 Layers_time_prev) m
                <? step_threshold) = true)).
Proof.
  intros r.
  destruct (StepLoop_steps num_steps 0 num_steps step_threshold m slv)
    as (k & Hk & Hslv & Hcase).
  fold r in Hslv, Hcase. exists k.
  split; [exact Hk|]. split; [exact Hslv|].
  destruct Hcase as [[E1 E2]|(E1 & E2 & E3)].
  - split; [lia|]. left. split; assumption.
  - split; [lia|]. right. split; [lia|exact E3].
Qed.

End TesterShape.

Section TesterSeries.
Context {Scal : Type} `{ScalOps Scal}.
Local Open Scope scal_scope.
Variable CalcDiff : FieldCell Scal -> FieldCell Scal -> Mesh Scal -> Scal.

Lemma StageCells_length (num_stages : nat) (num_cells factor : N) :
  length (StageCells num_stages num_cells factor) = num_stages.
Proof.
  revert num_cells. induction num_stages as [|k IH]; intros c; simpl;
    [reflexivity|].
  rewrite IH. reflexivity.
Qed.

Lemma StageCells_lookup (num_stages : nat) (num_cells factor : N) (i : nat) :
  (i < num_stages)%nat ->
  StageCells num_stages num_cells factor !! i =
  Some (match i with
        | O => num_cells
        | _ => (num_cells * factor ^ N.of_nat i) mod size_t_max
        end)%N.
Proof.
  revert num_cells i.
  induction num_stages as [|k IH]; intros c i Hi; [lia|].
  destruct i as [|i]; [reflexivity|].
  cbn [StageCells]. change ((?x :: ?l) !! S i) with (l !! i).
  rewrite IH by lia. f_equal.
  assert (size_t_max <> 0)%N as HM by (unfold size_t_max; lia).
  destruct i as [|i].
  - change (N.of_nat 1) with 1%N. rewrite N.pow_1_r. reflexivity.
  - rewrite N.Div0.mul_mod_idemp_l.
    replace (N.of_nat (S (S i))) with (N.succ (N.of_nat (S i))) by lia.
    rewrite N.pow_succ_r'. f_equal. lia.
Qed.

Lemma iter_Step_mesh (n : nat) (s : HeatStorage Scal) :
  mesh (Nat.iter n Step s) = mesh s.
Proof.
  induction n as [|n IH]; [reflexivity|].
  rewrite Nat.iter_succ, Step_mesh. exact IH.
Qed.

Lemma NewTesterMms_series (num_cells_initial : N) (num_stages : nat)
  (factor : N) (domain_length : Scal) (num_steps : nat)
  (time_step step_threshold fluid_velocity conductivity Tleft : Scal)
  (func_rhs func_exact : FuncTX Scal) :
  GetSeries
    (NewTesterMms CalcDiff num_cells_initial num_stages factor
       domain_length num_steps time_step step_threshold
       fluid_velocity conductivity Tleft func_rhs func_exact)
  = (StageEntry CalcDiff domain_length num_steps time_step step_threshold
       fluid_velocity conductivity Tleft func_rhs func_exact
     <$> StageCells num_stages num_cells_initial factor).
Proof.
  unfold NewTesterMms, GetSeries.
  match goal with
  | |- context [fold_left ?f ?l ?t0] =>
    pose proof (TesterStages_series CalcDiff domain_length num_steps
                  time_step step_threshold fluid_velocity conductivity
                  Tleft func_rhs func_exact l t0) as Hs
  end.
  cbn [series_ app] in Hs.
  destruct (series_ (fold_left _ _ _)) eqn:E0; cbn [series_];
    rewrite ?E0; exact Hs.
Qed.

(** The fields a stage records are sized for the mesh of the stage. *)
Lemma StageEntry_sized domain_length num_steps time_step step_threshold
  fluid_velocity conductivity Tleft func_rhs func_exact (nc : N) :
  let e := StageEntry CalcDiff domain_length num_steps time_step
             step_threshold fluid_velocity conductivity Tleft
             func_rhs func_exact nc in
  NumCells (entry_mesh e) = N.to_nat nc
  /\ length (fc_fluid_temperature e) = N.to_nat nc
  /\ length (fc_exact_fluid_temperature e) = N.to_nat nc.
Proof.
  unfold StageEntry. cbn [entry_mesh fc_fluid_temperature
                            fc_exact_fluid_temperature].
  set (m := InitUniformMesh (s_of_Z 0) domain_length (N.to_nat nc)).
  set (slv0 := NewHeatStorage m time_step fluid_velocity conductivity
                 conductivity Tleft Tleft (s_of_Z 0) (s_of_Z 0)
                 (Some (Evaluate func_rhs (s_of_Z 0) m))
                 (Some (NewFieldCell m (s_of_Z 0)))).
  split; [reflexivity|]. split; [|apply Evaluate_length].
  destruct (StepLoop_steps CalcDiff num_steps 0 num_steps step_threshold
              m slv0) as (k & _ & -> & _).
  assert (WellFormed slv0) as Hwf.
  { apply NewHeatStorage_WellFormed; simpl.
    - apply Evaluate_length.
    - unfold NewFieldCell. apply length_replicate. }
  destruct (iter_Step_WellFormed k slv0 Hwf) as (H1 & _).
  unfold GetFluidTemperature. rewrite H1, iter_Step_mesh. reflexivity.
Qed.

(** X18.  The series of the tester.  The series holds exactly one entry per
    stage, in stage order; the mesh of stage i has
    num_cells_initial * factor^i cells, reduced modulo 2^64 as [size_t]
    multiplies, and the computed and the exact field of the entry both have
    one value per cell of that mesh. *)
Theorem tester_series_shape (num_cells_initial : N) (num_stages : nat)
  (factor : N) (domain_length : Scal) (num_steps : nat)
  (time_step step_threshold fluid_velocity conductivity Tleft : Scal)
  (func_rhs func_exact : FuncTX Scal) (i : nat) :
  (num_cells_initial < size_t_max)%N ->
  (i < num_stages)%nat ->
  let series :=
    GetSeries
      (NewTesterMms CalcDiff num_cells_initial num_stages factor
         domain_length num_steps time_step step_threshold
         fluid_velocity conductivity Tleft func_rhs func_exact) in
  let cells :=
    N.to_nat ((num_cells_initial * factor ^ N.of_nat i) mod size_t_max) in
  length series = num_stages
  /\ exists e, series !! i = Some e
       /\ NumCells (entry_mesh e) = cells
       /\ length (fc_fluid_temperature e) = cells
       /\ length (fc_exact_fluid_temperature e) = cells.
Proof.
  intros Hinit Hi series cells. unfold series.
  rewrite NewTesterMms_series. split.
  - rewrite length_fmap. apply StageCells_length.
  - rewrite list_lookup_fmap, StageCells_lookup by exact Hi.
    eexists. split; [reflexivity|].
    assert (match i with
            | O => num_cells_initial
            | S _ => (num_cells_initial * factor ^ N.of_nat i) mod size_t_max
            end%N
            = ((num_cells_initial * factor ^ N.of_nat i) mod size_t_max)%N)
      as ->.
    { destruct i; [|reflexivity]. change (N.of_nat 0) with 0%N.
      rewrite N.pow_0_r, N.mul_1_r, N.mod_small by exact Hinit.
      reflexivity. }
    apply StageEntry_sized.
Qed.

End TesterSeries.

Lemma tester_series_shape_witness :
  length
    (GetSeries
       (NewTesterMms (fun _ _ _ => 0%R) 2 3 2 1%R 4 (1 / 10)%R (1 / 100)%R
          1%R (1 / 2)%R 1%R (fun _ x => x) (fun _ x => x)))
  = 3%nat.
Proof.
  refine (proj1 (tester_series_shape (fun _ _ _ => 0%R) 2 3 2 1%R 4
                   (1 / 10)%R (1 / 100)%R 1%R (1 / 2)%R 1%R
                   (fun _ x => x) (fun _ x => x) 2 _ _)).
  - reflexivity.
  - lia.
Defined.

Section TesterOutput.
Context {Scal : Type} `{ScalOps Scal}.
Local Open Scope scal_scope.
Variable CalcDiff : FieldCell Scal -> FieldCell Scal -> Mesh Scal -> Scal.




End TesterOutput.

(** ** The driver *)

Section Driver.
Local Open Scope R_scope.

Lemma NewHydro_solver (CalcDiff : FieldCell R -> FieldCell R -> Mesh R -> R)
  (P : Parameters R) (dt : R) (hy : hydro R) :
  NewHydro CalcDiff P dt = Ok hy ->
  hydro_mesh hy
  = InitUniformMesh (GetVect (P_vect P "A")) (GetVect (P_vect P "B"))
      (Z.to_nat (P_int P "Nx"))
  /\ solver_ hy
     = NewHeatStorage (hydro_mesh hy) dt (P_double P "uf")
         (P_double P "alpha_fluid") (P_double P "alpha_solid")
         (P_double P "T_hot") (P_double P "T_cold")
         (P_double P "exchange") (P_double P "exchange") None None.
Proof.
  unfold NewHydro. destruct (flag P "MMS").
  - destruct (SelectMms _ _ _ _) as [[fe fr]|]; [|discriminate].
    intros [= <-]. split; reflexivity.
  - intros [= <-]. split; reflexivity.
Qed.

Lemma iter_step_solver (n : nat) (hy : hydro R) :
  solver_ (Nat.iter n step hy) = Nat.iter n Step (solver_ hy)
  /\ hydro_mesh (Nat.iter n step hy) = hydro_mesh hy
  /\ tester (Nat.iter n step hy) = tester hy.
Proof.
  induction n as [|n (IH1 & IH2 & IH3)]; [tauto|].
  rewrite !Nat.iter_succ. unfold step at 1 3 5. cbn [solver_ hydro_mesh tester].
  rewrite IH1, IH2, IH3. tauto.
Qed.

Lemma Step_sources (s : HeatStorage R) :
  p_fc_rhs_fluid_ (Step s) = p_fc_rhs_fluid_ s
  /\ p_fc_rhs_solid_ (Step s) = p_fc_rhs_solid_ s.
Proof.
  unfold Step, StartStep, FinishStep. cbn [p_fc_rhs_fluid_ p_fc_rhs_solid_].
  destruct (CalcStep_parameters s)
    as (_ & _ & _ & _ & _ & _ & _ & _ & _ & _ & -> & ->).
  tauto.
Qed.

(** X20.  The module as [hydro::hydro] constructs it and [hydro::step]
    advances it.  After any number of steps the mesh and the tester are
    those of the construction, the solver still has both source pointers
    null and every layer sized for the mesh, and the solid temperature is
    still [T_cold] in every cell: in this module the solid phase never
    changes. *)
Theorem driver_solid_never_changes
  (CalcDiff : FieldCell R -> FieldCell R -> Mesh R -> R)
  (P : Parameters R) (dt : R) (hy : hydro R) (n : nat) :
  NewHydro CalcDiff P dt = Ok hy ->
  let hy' := Nat.iter n step hy in
  hydro_mesh hy' = hydro_mesh hy
  /\ tester hy' = tester hy
  /\ WellFormed (solver_ hy')
  /\ mesh (solver_ hy') = hydro_mesh hy
  /\ p_fc_rhs_fluid_ (solver_ hy') = None
  /\ p_fc_rhs_solid_ (solver_ hy') = None
  /\ GetSolidTemperature (solver_ hy')
     = NewFieldCell (hydro_mesh hy) (P_double P "T_cold").
Proof.
  intros Hnew hy'.
  destruct (NewHydro_solver CalcDiff P dt hy Hnew) as [_ Hs].
  destruct (iter_step_solver n hy) as (E1 & E2 & E3). fold hy' in E1, E2, E3.
  split; [exact E2|]. split; [exact E3|]. rewrite E1, Hs.
  set (s0 := NewHeatStorage (hydro_mesh hy) dt (P_double P "uf")
               (P_double P "alpha_fluid") (P_double P "alpha_solid")
               (P_double P "T_hot") (P_double P "T_cold")
               (P_double P "exchange") (P_double P "exchange") None None).
  clear. induction n as [|n (IH1 & IH2 & IH3 & IH4 & IH5)].
  - split; [apply NewHeatStorage_WellFormed; exact I|].
    repeat split; reflexivity.
  - rewrite Nat.iter_succ.
    destruct (Step_sources (Nat.iter n Step s0)) as [-> ->].
    rewrite Step_mesh.
    split; [apply Step_WellFormed, IH1|]. split; [exact IH2|].
    split; [exact IH3|]. split; [exact IH4|].
    change (GetSolidTemperature (Step ?s))
      with (GetSolidTemperature (CalcStep s)).
    rewrite (uniform_solid_CalcStep _ (P_double P "T_cold"));
      [exact IH5|exact IH1| |].
    + rewrite IH4. exact I.
    + rewrite IH5, IH2. reflexivity.
Qed.

End Driver.

Lemma driver_solid_never_changes_witness :
  GetSolidTemperature
    (solver_
       (Nat.iter 3 step
          {| solver_ :=
               NewHeatStorage (InitUniformMesh 0 1 2)%R (1 / 10)%R
                 1%R 1%R 1%R 1%R 1%R 1%R 1%R None None;
             hydro_mesh := InitUniformMesh 0%R 1%R 2;
             tester := None |}))
  = [1%R; 1%R].
Proof.
  refine (proj2 (proj2 (proj2 (proj2 (proj2 (proj2
            (driver_solid_never_changes (fun _ _ _ => 0%R)
               {| P_int := fun _ => 2%Z;
                  P_double := fun _ => 1%R;
                  P_string := fun _ => ""%string;
                  P_vect :=
                    fun key => if String.eqb key "A" then [0%R] else [1%R];
                  flag := fun _ => false |}
               (1 / 10)%R _ 3 _))))))).
  reflexivity.
Defined.

(** ** The times the scheduler cannot handle *)

Section SchedulerEdge.
Import Scheduler.
Local Open Scope Q_scope.



(** The program on the same edge, in binary64.  With the durations
    1, 2, 3, 4 the time -1 is answered [Charging], and 9, one cycle later,
    [Idle].  With the durations 0.1, 0.2, 0.3, 0.4 the cycle length rounds
    to 1, the quotient at the time -1 is -1, and the conversion is
    undefined; so it is at the time 2^66. *)
Lemma GetState_edges_in_binary64 :
  GetState {| d1_ := 1; d2_ := 2; d3_ := 3; d4_ := 4 |}%float (-1)%float
    = Some Charging
  /\ GetState {| d1_ := 1; d2_ := 2; d3_ := 3; d4_ := 4 |}%float 9%float
     = Some Idle
  /\ GetState {| d1_ := 0x1.999999999999ap-4; d2_ := 0x1.999999999999ap-3;
                 d3_ := 0x1.3333333333333p-2; d4_ := 0x1.999999999999ap-2
              |}%float (-1)%float
     = None
  /\ GetState {| d1_ := 0x1.999999999999ap-4; d2_ := 0x1.999999999999ap-3;
                 d3_ := 0x1.3333333333333p-2; d4_ := 0x1.999999999999ap-2
              |}%float 1%float
     = Some Charging
  /\ GetState {| d1_ := 1; d2_ := 1; d3_ := 1; d4_ := 0 |}%float 0x1p+66%float
     = None.
Proof. vm_compute. repeat split. Qed.

End SchedulerEdge.

(** ** The output cadence *)

Section OutputCadence.
Local Open Scope R_scope.

Lemma leb_R_true (x y : R) : s_leb x y = true <-> x <= y.
Proof. cbn. destruct (Rle_dec x y); split; intros; (congruence || lra). Qed.

Lemma frame_duration_pos (T : R) (m : N) :
  0 < T -> (0 < m)%N -> 0 < T / IZR (Z.of_N m).
Proof.
  intros HT Hm. apply Rdiv_lt_0_compat; [exact HT|].
  apply (IZR_lt 0). lia.
Qed.

Lemma IZR_succ_sub (c c0 : Z) : IZR (c + 1 - c0) = IZR (c - c0) + 1.
Proof. rewrite <- plus_IZR. f_equal. lia. Qed.

Lemma Cadence_refl (T : R) (m ms : N) (st0 : FrameState R) :
  last_frame_time_ st0 <= T -> last_frame_scalar_time_ st0 <= T ->
  Cadence T m ms st0 st0.
Proof.
  intros H1 H2. unfold Cadence.
  rewrite !Z.sub_diag, !Nat.add_0_r. cbn [Z.to_nat].
  repeat split; try lia; try assumption; lra.
Qed.

Lemma write_results_Cadence (no_output no_mesh_output : bool) (time T : R)
  (m ms : N) (st0 st : FrameState R) :
  0 < T -> (0 < m)%N -> (0 < ms)%N -> time <= T ->
  Cadence T m ms st0 st ->
  Cadence T m ms st0
    (write_results no_output no_mesh_output time T m ms false st).
Proof.
  intros HT Hm Hms Ht HC. unfold write_results.
  destruct no_output; [exact HC|]. cbn [orb].
  pose proof (frame_duration_pos T m HT Hm) as Hd.
  pose proof (frame_duration_pos T ms HT Hms) as Hds.
  assert (Cadence T m ms st0
    (if negb no_mesh_output
        && s_leb (last_frame_time_ st + T / s_of_Z (Z.of_N m))%scal time
     then
       {| last_frame_time_ := time;
          last_frame_scalar_time_ := last_frame_scalar_time_ st;
          current_frame := current_frame st + 1;
          current_frame_scalar := current_frame_scalar st;
          session_frames := session_frames st ++ [time];
          session_scalar_frames := session_scalar_frames st |}
     else st)) as HC1.
  { destruct (negb no_mesh_output
              && s_leb (last_frame_time_ st + T / s_of_Z (Z.of_N m))%scal time)
      eqn:E; [|exact HC].
    apply andb_prop in E as [_ E]. apply leb_R_true in E.
    change (last_frame_time_ st + T / IZR (Z.of_N m) <= time) in E.
    destruct HC as (Hc & Hcs & Hl & HlT & Hls & HlsT & Hn & Hns).
    unfold Cadence.
    cbn [last_frame_time_ last_frame_scalar_time_ current_frame
         current_frame_scalar session_frames session_scalar_frames].
    rewrite IZR_succ_sub, length_app. cbn [length].
    repeat split; try assumption; try lia; lra. }
  match goal with
  | HC1 : Cadence _ _ _ _ ?s |- _ => set (st1 := s) in *
  end.
  clearbody st1. clear HC st.
  destruct (s_leb (last_frame_scalar_time_ st1 + T / s_of_Z (Z.of_N ms))%scal
              time) eqn:E; [|exact HC1].
  apply leb_R_true in E.
  change (last_frame_scalar_time_ st1 + T / IZR (Z.of_N ms) <= time) in E.
  destruct HC1 as (Hc & Hcs & Hl & HlT & Hls & HlsT & Hn & Hns).
  unfold Cadence.
  cbn [last_frame_time_ last_frame_scalar_time_ current_frame
       current_frame_scalar session_frames session_scalar_frames].
  rewrite IZR_succ_sub, length_app. cbn [length].
  repeat split; try assumption; try lia; lra.
Qed.

Lemma write_results_run_Cadence (no_output no_mesh_output : bool) (T : R)
  (m ms : N) (times : list R) (st0 st : FrameState R) :
  0 < T -> (0 < m)%N -> (0 < ms)%N ->
  Forall (fun time => time <= T) times ->
  Cadence T m ms st0 st ->
  Cadence T m ms st0
    (write_results_run no_output no_mesh_output T m ms times st).
Proof.
  intros HT Hm Hms Hts. revert st.
  induction Hts as [|time times Ht _ IH]; intros st HC; [exact HC|].
  unfold write_results_run. cbn [fold_left].
  apply IH. apply write_results_Cadence; assumption.
Qed.

Lemma frames_within_duration (T last0 last : R) (m : N) (k : Z) :
  0 < T -> (0 < m)%N -> 0 <= last0 -> last <= T ->
  IZR k * (T / IZR (Z.of_N m)) <= last - last0 ->
  (k <= Z.of_N m)%Z.
Proof.
  intros HT Hm H0 HlT Hk.
  pose proof (frame_duration_pos T m HT Hm) as Hd.
  destruct (Z_le_gt_dec k (Z.of_N m)) as [Hle|Hgt]; [exact Hle|exfalso].
  assert (IZR (Z.of_N m) + 1 <= IZR k) as Hk1.
  { rewrite <- plus_IZR. apply IZR_le. lia. }
  assert (0 < IZR (Z.of_N m)) as HM by (apply (IZR_lt 0); lia).
  assert ((IZR (Z.of_N m) + 1) * (T / IZR (Z.of_N m))
          = T + T / IZR (Z.of_N m)) as Heq by (field; lra).
  assert ((IZR (Z.of_N m) + 1) * (T / IZR (Z.of_N m))
          <= IZR k * (T / IZR (Z.of_N m))) as Hmul
    by (apply Rmult_le_compat_r; lra).
  lra.
Qed.

(** X22.  Unforced output never exceeds the configured number of frames.
    Over the reals, with a positive total time [T] and positive frame
    counts, a run of unforced calls of [write_results] at times that do
    not exceed [T] (in any order), started with both last-frame times in
    [0, T], advances [current_frame] by at most [max_frame_index] and
    [current_frame_scalar] by at most [max_frame_scalar_index], and each
    session has written exactly as many frames as its counter has
    advanced. *)
Theorem unforced_frames_bounded (no_output no_mesh_output : bool) (T : R)
  (max_frame_index max_frame_scalar_index : N) (times : list R)
  (st0 : FrameState R) :
  0 < T -> (0 < max_frame_index)%N -> (0 < max_frame_scalar_index)%N ->
  Forall (fun time => time <= T) times ->
  0 <= last_frame_time_ st0 <= T ->
  0 <= last_frame_scalar_time_ st0 <= T ->
  let st := write_results_run no_output no_mesh_output T max_frame_index
              max_frame_scalar_index times st0 in
  (0 <= current_frame st - current_frame st0 <= Z.of_N max_frame_index)%Z
  /\ (0 <= current_frame_scalar st - current_frame_scalar st0
      <= Z.of_N max_frame_scalar_index)%Z
  /\ length (session_frames st)
     = (length (session_frames st0)
        + Z.to_nat (current_frame st - current_frame st0))%nat
  /\ length (session_scalar_frames st)
     = (length (session_scalar_frames st0)
        + Z.to_nat (current_frame_scalar st - current_frame_scalar st0))%nat.
Proof.
  intros HT Hm Hms Hts [H0 H0T] [Hs0 Hs0T] st.
  assert (Cadence T max_frame_index max_frame_scalar_index st0 st) as HC.
  { apply write_results_run_Cadence; try assumption.
    apply Cadence_refl; assumption. }
  destruct HC as (Hc & Hcs & Hl & HlT & Hls & HlsT & Hn & Hns).
  repeat split; try assumption.
  - eapply frames_within_duration; [exact HT|exact Hm|exact H0| |exact Hl].
    exact HlT.
  - eapply frames_within_duration; [exact HT|exact Hms|exact Hs0| |exact Hls].
    exact HlsT.
Qed.

Lemma unforced_frames_bounded_witness :
  let st := write_results_run false false 1 2 4
              [0.25; 0.5; 0.75; 1; 1] ExampleFrameState in
  (0 <= current_frame st - 0 <= 2)%Z
  /\ (0 <= current_frame_scalar st - 0 <= 4)%Z
  /\ length (session_frames st)
     = (1 + Z.to_nat (current_frame st - 0))%nat
  /\ length (session_scalar_frames st)
     = (1 + Z.to_nat (current_frame_scalar st - 0))%nat.
Proof.
  apply (unforced_frames_bounded false false 1 2 4
           [0.25; 0.5; 0.75; 1; 1] ExampleFrameState);
    try lia; try (cbn; lra).
  repeat constructor; lra.
Defined.

End OutputCadence.
